(** * OptiCom: conversation lifecycle, agent reservation, generation driver
      and background scheduler

    A shallow embedding of the TypeScript services
    - [AgentService]        (services/agentService.ts),
    - [ConversationService] (services/conversationService.ts),
    - [OpenAIService]       (services/openaiService.ts),
    - [BackgroundService]   (services/backgroundService.ts),
    together with the properties the specification states about them.

    Conventions.
    - An [async] method is a computation in the monad [M S]: it reads and
      writes a state [S] and either returns a value or throws.  A [throw]
      keeps the writes made before it, exactly as a rejected promise does.
    - [new Date()] and [Date.now()] are read from an explicit argument [now].
    - Console output and interactive prompts have no effect on the state and
      are left out.
    - Text is a Rocq [string] (a sequence of bytes): [length], lower-casing
      and trimming agree with JavaScript on ASCII text. *)

From Stdlib Require Import ZArith String Ascii Lia.
From stdpp Require Import base option list strings gmap sets.

Local Open Scope string_scope.
Local Open Scope Z_scope.

(** ** Data model (domain/models) *)

Definition Id := string.

(** [AgentStatus = 'active' | 'inactive'] *)
Inductive AgentStatus : Type := AgentActive | AgentInactive.

(** [AgentType = 'learning' | 'assistant' | 'specialist'] *)
Inductive AgentType : Type := Learning | Assistant | Specialist.

(** [ConversationStatus = 'active' | 'completed' | 'terminated' | 'paused'] *)
Inductive ConversationStatus : Type :=
  ConvActive | ConvCompleted | ConvTerminated | ConvPaused.

#[global] Instance AgentStatus_eq_dec : EqDecision AgentStatus.
Proof. solve_decision. Defined.
#[global] Instance AgentType_eq_dec : EqDecision AgentType.
Proof. solve_decision. Defined.
#[global] Instance ConversationStatus_eq_dec : EqDecision ConversationStatus.
Proof. solve_decision. Defined.

Definition agentTypeName (t : AgentType) : string :=
  match t with
  | Learning => "learning"
  | Assistant => "assistant"
  | Specialist => "specialist"
  end.

Record Agent : Type := mkAgent {
  agent_id : Id;
  agent_name : string;
  agent_type : AgentType;
  agent_description : option string;
  agent_status : AgentStatus;
  agent_createdAt : Z
}.

(** [recipients: 'all' | string[]] *)
Inductive Recipients : Type :=
  | RecipientsAll
  | RecipientsOf (ids : list Id).

Record Message : Type := mkMessage {
  msg_id : Id;
  msg_conversationId : Id;
  msg_senderId : Id;
  msg_content : string;
  msg_recipients : Recipients;
  msg_timestamp : Z
}.

Record Conversation : Type := mkConversation {
  conv_id : Id;
  conv_name : string;
  conv_topic : string;
  conv_goal : string;
  conv_surrounding : string;
  conv_status : ConversationStatus;
  conv_participants : list Id;
  conv_messages : list Message;
  conv_startedAt : Z;
  conv_endedAt : option Z;
  conv_goalAchieved : option bool
}.

(** The two tables behind the repositories. *)
Record World : Type := mkWorld {
  agentTable : gmap Id Agent;
  conversationTable : gmap Id Conversation
}.

Definition with_agents (t : gmap Id Agent) (w : World) : World :=
  mkWorld t (conversationTable w).

Definition with_conversations (t : gmap Id Conversation) (w : World) : World :=
  mkWorld (agentTable w) t.

(** ** Errors

    Every [throw new Error(...)] of the services, named after the error
    taxonomy; the comment gives the message text of the source. *)
Inductive Error : Type :=
  | NotFound                 (* 'Conversation not found', 'Agent not found' *)
  | DuplicateName            (* '... with this name already exists' *)
  | InvalidInput             (* 'Agent name must be at least 3 characters long' *)
  | InvalidState             (* 'Conversation is not active', 'Only active conversations
                                can be paused', 'Only paused conversations can be
                                unpaused', 'Only active or paused conversations can be
                                terminated', 'Cannot add message to a non-active
                                conversation', 'Cannot delete an active agent' *)
  | InvalidParticipantCount  (* 'A conversation must have between 2 and 10 participants' *)
  | AgentNotFound (id : Id)  (* `Agent ${participantId} not found` *)
  | AgentNotAvailable (name : string)
                             (* `Agent ${agent.name} is not inactive and cannot be
                                added to a new conversation` *)
  | NotParticipant           (* 'Sender is not a participant in this conversation' *)
  | InvalidRecipients (ids : list Id)
                             (* `Invalid recipients: ${invalidRecipients.join(', ')}` *)
  | UpdateFailed             (* 'Failed to complete conversation', 'Failed to pause
                                conversation', ... *)
  | MalformedResponse        (* 'Invalid response format' *)
  | UnknownSpeaker (name : string) (available : list string)
                             (* `Agent "${agentName}" not found in conversation.
                                Available agents: ${availableAgents}` *)
  | NoResponse               (* 'No response from OpenAI' *)
  | ProviderError            (* the chat completion request is rejected *)
  | ClientMissing            (* 'OpenAI client is not initialized' *)
  | ContextError             (* 'Conversation context not found', 'Failed to initialize
                                conversation context', `Sender ${m.senderId} not found
                                in conversation context` *)
  | StoreFailure.            (* an exception raised by a repository call itself *)

(** ** The monad of asynchronous methods *)

Inductive Result (A : Type) : Type :=
  | Ok (a : A)
  | Throw (e : Error).
Arguments Ok {A} a.
Arguments Throw {A} e.

Definition M (S A : Type) : Type := S -> Result A * S.

Definition ret {S A} (a : A) : M S A := fun s => (Ok a, s).

Definition throw {S A} (e : Error) : M S A := fun s => (Throw e, s).

Definition bind {S A B} (m : M S A) (k : A -> M S B) : M S B :=
  fun s =>
    match m s with
    | (Ok a, s') => k a s'
    | (Throw e, s') => (Throw e, s')
    end.

Definition get {S} : M S S := fun s => (Ok s, s).

Definition modify {S} (f : S -> S) : M S unit := fun s => (Ok tt, f s).

(** [try { body } catch (error) { handler(error) }] *)
Definition try_catch {S A} (body : M S A) (handler : Error -> M S A) : M S A :=
  fun s =>
    match body s with
    | (Ok a, s') => (Ok a, s')
    | (Throw e, s') => handler e s'
    end.

Declare Scope async_scope.
Delimit Scope async_scope with async.
Notation "'let!' x ':=' m 'in' k" := (bind m (fun x => k))
  (at level 10, x name, m at level 100, k at level 200) : async_scope.
Notation "'do!' m 'in' k" := (bind m (fun _ => k))
  (at level 10, m at level 100, k at level 200) : async_scope.
Local Open Scope async_scope.

(** [if (cond) throw new Error(...)] *)
Definition throw_if {S} (cond : bool) (e : Error) : M S unit :=
  if cond then throw e else ret tt.

(** [for (const x of xs) { await body(x) }]; a throw leaves the loop. *)
Fixpoint for_of {S A} (xs : list A) (body : A -> M S unit) : M S unit :=
  match xs with
  | [] => ret tt
  | x :: rest => do! body x in for_of rest body
  end.

(** [Promise.all(xs.map(async x => f(x)))] run in list order. *)
Fixpoint map_async {S A B} (xs : list A) (f : A -> M S B) : M S (list B) :=
  match xs with
  | [] => ret []
  | x :: rest =>
      let! y := f x in
      let! ys := map_async rest f in
      ret (y :: ys)
  end.

(** A computation of a component run against a larger state, through a
    getter and a setter. *)
Definition zoom {S T A} (proj : T -> S) (inj : S -> T -> T) (m : M S A) : M T A :=
  fun t => match m (proj t) with (r, s') => (r, inj s' t) end.

(** ** Repositories (data/repositories)

    The services are written against the interfaces [IAgentRepository] and
    [IConversationRepository] and receive an implementation through their
    constructor. *)

(** The argument of [agentRepository.create]. *)
Record AgentData : Type := mkAgentData {
  ad_name : string;
  ad_type : AgentType;
  ad_status : AgentStatus;
  ad_description : option string
}.

(** [Partial<Agent>] as the services use it: [{ status }], [{ description }]. *)
Record AgentPatch : Type := mkAgentPatch {
  ap_status : option AgentStatus;
  ap_description : option string
}.

(** The argument of [repository.create]. *)
Record ConversationData : Type := mkConversationData {
  cd_name : string;
  cd_topic : string;
  cd_goal : string;
  cd_surrounding : string;
  cd_participants : list Id;
  cd_status : ConversationStatus;
  cd_messages : list Message;
  cd_startedAt : Z;
  cd_endedAt : option Z;
  cd_goalAchieved : option bool
}.

(** [Partial<Conversation>] as the services use it:
    [{ status }], [{ status, endedAt, goalAchieved }]. *)
Record ConversationPatch : Type := mkConversationPatch {
  cp_status : option ConversationStatus;
  cp_endedAt : option Z;
  cp_goalAchieved : option bool
}.

(** The argument of [repository.addMessage]: a message without its id. *)
Record MessageData : Type := mkMessageData {
  md_conversationId : Id;
  md_senderId : Id;
  md_content : string;
  md_recipients : Recipients;
  md_timestamp : Z
}.

(** Modelled from the spec: the interface [IAgentRepository]
    (data/repositories/agentRepository.ts), "findAll|findById|findByName|
    create|update|delete over Agent records".  [create] receives the time of
    the call for the creation-date column. *)
Record IAgentRepository : Type := mkAgentRepository {
  agents_findAll : M World (list Agent);
  agents_findById : Id -> M World (option Agent);
  agents_findByName : string -> M World (option Agent);
  agents_create : Z -> AgentData -> M World Agent;
  agents_update : Id -> AgentPatch -> M World (option Agent);
  agents_delete : Id -> M World bool
}.

(** Modelled from the spec: the interface [IConversationRepository]
    (data/repositories/conversationRepository.ts), "findAll|findById|
    findByName|create|update over Conversation records plus getMessages(id) /
    addMessage(id, messageData) for the append-only log". *)
Record IConversationRepository : Type := mkConversationRepository {
  convs_findAll : M World (list Conversation);
  convs_findById : Id -> M World (option Conversation);
  convs_findByName : string -> M World (option Conversation);
  convs_create : ConversationData -> M World Conversation;
  convs_update : Id -> ConversationPatch -> M World (option Conversation);
  convs_getMessages : Id -> M World (list Message);
  convs_addMessage : Id -> MessageData -> M World Message
}.

(** *** The store: a reliable CRUD table per entity *)

Definition patchAgent (p : AgentPatch) (a : Agent) : Agent :=
  mkAgent (agent_id a) (agent_name a) (agent_type a)
    (match ap_description p with Some d => Some d | None => agent_description a end)
    (default (agent_status a) (ap_status p))
    (agent_createdAt a).

Definition patchConversation (p : ConversationPatch) (c : Conversation) : Conversation :=
  mkConversation (conv_id c) (conv_name c) (conv_topic c) (conv_goal c)
    (conv_surrounding c)
    (default (conv_status c) (cp_status p))
    (conv_participants c) (conv_messages c) (conv_startedAt c)
    (match cp_endedAt p with Some t => Some t | None => conv_endedAt c end)
    (match cp_goalAchieved p with Some g => Some g | None => conv_goalAchieved c end).

Definition appendMessage (m : Message) (c : Conversation) : Conversation :=
  mkConversation (conv_id c) (conv_name c) (conv_topic c) (conv_goal c)
    (conv_surrounding c) (conv_status c) (conv_participants c)
    (conv_messages c ++ [m]) (conv_startedAt c) (conv_endedAt c)
    (conv_goalAchieved c).

Definition allAgents (w : World) : list Agent := (map_to_list (agentTable w)).*2.

Definition allConversations (w : World) : list Conversation :=
  (map_to_list (conversationTable w)).*2.

(** The ids of all stored messages; a new message gets an id outside it. *)
Definition messageIds (w : World) : gset Id :=
  list_to_set (msg_id <$> concat (conv_messages <$> allConversations w)).

(** Modelled from the spec: the class [AgentRepository], a CRUD store over the
    agent table with generated primary keys and exact name lookup. *)
Definition agentStore : IAgentRepository := {|
  agents_findAll := fun w => (Ok (allAgents w), w);
  agents_findById := fun id w => (Ok (agentTable w !! id), w);
  agents_findByName := fun name w =>
    (Ok (List.find (fun a => String.eqb (agent_name a) name) (allAgents w)), w);
  agents_create := fun now d w =>
    let id : Id := fresh (dom (agentTable w)) in
    let a := mkAgent id (ad_name d) (ad_type d) (ad_description d) (ad_status d) now in
    (Ok a, with_agents (<[id := a]> (agentTable w)) w);
  agents_update := fun id p w =>
    match agentTable w !! id with
    | None => (Ok None, w)
    | Some a =>
        let a' := patchAgent p a in
        (Ok (Some a'), with_agents (<[id := a']> (agentTable w)) w)
    end;
  agents_delete := fun id w =>
    match agentTable w !! id with
    | None => (Ok false, w)
    | Some _ => (Ok true, with_agents (delete id (agentTable w)) w)
    end
|}.

(** Modelled from the spec: the class [ConversationRepository], a CRUD store
    over the conversation table whose message log is append-only. *)
Definition conversationStore : IConversationRepository := {|
  convs_findAll := fun w => (Ok (allConversations w), w);
  convs_findById := fun id w => (Ok (conversationTable w !! id), w);
  convs_findByName := fun name w =>
    (Ok (List.find (fun c => String.eqb (conv_name c) name) (allConversations w)), w);
  convs_create := fun d w =>
    let id : Id := fresh (dom (conversationTable w)) in
    let c := mkConversation id (cd_name d) (cd_topic d) (cd_goal d)
               (cd_surrounding d) (cd_status d) (cd_participants d)
               (cd_messages d) (cd_startedAt d) (cd_endedAt d)
               (cd_goalAchieved d) in
    (Ok c, with_conversations (<[id := c]> (conversationTable w)) w);
  convs_update := fun id p w =>
    match conversationTable w !! id with
    | None => (Ok None, w)
    | Some c =>
        let c' := patchConversation p c in
        (Ok (Some c'), with_conversations (<[id := c']> (conversationTable w)) w)
    end;
  convs_getMessages := fun id w =>
    (Ok (from_option conv_messages [] (conversationTable w !! id)), w);
  convs_addMessage := fun id d w =>
    match conversationTable w !! id with
    | None => (Throw NotFound, w)
    | Some c =>
        let m := mkMessage (fresh (messageIds w)) (md_conversationId d)
                   (md_senderId d) (md_content d) (md_recipients d)
                   (md_timestamp d) in
        (Ok m, with_conversations (<[id := appendMessage m c]> (conversationTable w)) w)
    end
|}.

(** An implementation of [IConversationRepository] whose [update] is rejected
    for one conversation: the store above behind a database that fails that
    write (a locked or unreachable database makes the promise reject). *)
Definition failingUpdateStore (bad : Id) : IConversationRepository := {|
  convs_findAll := convs_findAll conversationStore;
  convs_findById := convs_findById conversationStore;
  convs_findByName := convs_findByName conversationStore;
  convs_create := convs_create conversationStore;
  convs_update := fun id p w =>
    if decide (id = bad) then (Throw StoreFailure, w)
    else convs_update conversationStore id p w;
  convs_getMessages := convs_getMessages conversationStore;
  convs_addMessage := convs_addMessage conversationStore
|}.

(** ** AgentService (services/agentService.ts) *)

Record CreateAgentDTO : Type := mkCreateAgentDTO {
  (** Name of the agent (must be unique and at least 3 characters) *)
  ca_name : string;
  ca_type : AgentType;
  (** Initial status of the agent (defaults to 'inactive') *)
  ca_status : option AgentStatus;
  ca_description : option string
}.

Module AgentService.
Section Service.
Context (repository : IAgentRepository).

Definition getAllAgents : M World (list Agent) := agents_findAll repository.

Definition findById (id : Id) : M World (option Agent) :=
  agents_findById repository id.

Definition isNameTaken (name : string) : M World bool :=
  let! existingAgent := agents_findByName repository name in
  ret (bool_decide (is_Some existingAgent)).

Definition createAgent (now : Z) (data : CreateAgentDTO) : M World Agent :=
  (* if (!data.name || data.name.length < 3) *)
  do! throw_if (String.eqb (ca_name data) "" ||
                (String.length (ca_name data) <? 3)%nat) InvalidInput in
  let! taken := isNameTaken (ca_name data) in
  do! throw_if taken DuplicateName in
  let! agent := agents_create repository now
    {| ad_name := ca_name data;
       ad_type := ca_type data;
       ad_status := default AgentInactive (ca_status data);
       ad_description := ca_description data |} in
  ret agent.

Definition deleteAgent (id : Id) : M World bool :=
  let! agent := agents_findById repository id in
  match agent with
  | None => throw NotFound
  | Some agent =>
      do! throw_if (bool_decide (agent_status agent = AgentActive)) InvalidState in
      agents_delete repository id
  end.

Definition activateAgent (id : Id) : M World Agent :=
  let! agent := agents_findById repository id in
  match agent with
  | None => throw NotFound
  | Some _ =>
      let! updatedAgent :=
        agents_update repository id (mkAgentPatch (Some AgentActive) None) in
      match updatedAgent with
      | None => throw UpdateFailed
      | Some updatedAgent => ret updatedAgent
      end
  end.

Definition deactivateAgent (id : Id) : M World Agent :=
  let! agent := agents_findById repository id in
  match agent with
  | None => throw NotFound
  | Some _ =>
      let! updatedAgent :=
        agents_update repository id (mkAgentPatch (Some AgentInactive) None) in
      match updatedAgent with
      | None => throw UpdateFailed
      | Some updatedAgent => ret updatedAgent
      end
  end.

Definition updateAgentDescription (id : Id) (description : string) : M World Agent :=
  let! agent := agents_findById repository id in
  match agent with
  | None => throw NotFound
  | Some _ =>
      let! updatedAgent :=
        agents_update repository id (mkAgentPatch None (Some description)) in
      match updatedAgent with
      | None => throw UpdateFailed
      | Some updatedAgent => ret updatedAgent
      end
  end.
End Service.
End AgentService.

(** ** ConversationService (services/conversationService.ts) *)

Record CreateConversationDTO : Type := mkCreateConversationDTO {
  cc_name : string;
  cc_topic : string;
  cc_goal : string;
  cc_surrounding : string;
  cc_participantIds : list Id
}.

Record AddMessageDTO : Type := mkAddMessageDTO {
  am_conversationId : Id;
  am_senderId : Id;
  am_content : string;
  (** 'all' for group message, or specific agent IDs *)
  am_recipients : Recipients
}.

(** [participants.includes(id)] *)
Definition includes (ids : list Id) (id : Id) : bool := bool_decide (id ∈ ids).

Definition statusIs (s : ConversationStatus) (c : Conversation) : bool :=
  bool_decide (conv_status c = s).

Module ConversationService.
Section Service.
Context (repository : IConversationRepository).
Context (agentRepository : IAgentRepository).

Definition getAllConversations : M World (list Conversation) :=
  convs_findAll repository.

Definition findById (id : Id) : M World (option Conversation) :=
  convs_findById repository id.

Definition isAgentInActiveConversation (agentId : Id) : M World bool :=
  let! conversations := convs_findAll repository in
  ret (existsb (fun conversation =>
                  statusIs ConvActive conversation &&
                  includes (conv_participants conversation) agentId)
               conversations).

Definition isNameTaken (name : string) : M World bool :=
  let! conversation := convs_findByName repository name in
  ret (bool_decide (conversation <> None)).

Definition createConversation (now : Z) (data : CreateConversationDTO)
  : M World Conversation :=
  (* Validate name uniqueness *)
  let! isNameTaken := isNameTaken (cc_name data) in
  do! throw_if isNameTaken DuplicateName in
  (* Validate participant count *)
  do! throw_if ((length (cc_participantIds data) <? 2)%nat ||
                (10 <? length (cc_participantIds data))%nat)
        InvalidParticipantCount in
  (* Check if any participant is not inactive *)
  do! for_of (cc_participantIds data) (fun participantId =>
        let! agent := agents_findById agentRepository participantId in
        match agent with
        | None => throw (AgentNotFound participantId)
        | Some agent =>
            throw_if (negb (bool_decide (agent_status agent = AgentInactive)))
              (AgentNotAvailable (agent_name agent))
        end) in
  (* Create the conversation *)
  let! conversation := convs_create repository
    {| cd_name := cc_name data;
       cd_topic := cc_topic data;
       cd_goal := cc_goal data;
       cd_surrounding := cc_surrounding data;
       cd_participants := cc_participantIds data;
       cd_status := ConvActive;
       cd_messages := [];
       cd_startedAt := now;
       cd_endedAt := None;
       cd_goalAchieved := Some false |} in
  (* Set all participating agents to active *)
  do! for_of (cc_participantIds data) (fun participantId =>
        do! agents_update agentRepository participantId
              (mkAgentPatch (Some AgentActive) None) in
        ret tt) in
  ret conversation.

Definition addMessage (now : Z) (data : AddMessageDTO) : M World Message :=
  let! conversation := convs_findById repository (am_conversationId data) in
  match conversation with
  | None => throw NotFound
  | Some conversation =>
      do! throw_if (negb (statusIs ConvActive conversation)) InvalidState in
      (* Validate sender is a participant *)
      do! throw_if (negb (includes (conv_participants conversation) (am_senderId data)))
            NotParticipant in
      (* Validate recipients *)
      do! match am_recipients data with
          | RecipientsAll => ret tt
          | RecipientsOf recipients =>
              let invalidRecipients :=
                List.filter (fun id => negb (includes (conv_participants conversation) id))
                  recipients in
              throw_if (0 <? length invalidRecipients)%nat
                (InvalidRecipients invalidRecipients)
          end in
      let! message := convs_addMessage repository (am_conversationId data)
        {| md_conversationId := am_conversationId data;
           md_senderId := am_senderId data;
           md_content := am_content data;
           md_recipients :=
             match am_recipients data with
             | RecipientsAll => RecipientsOf (conv_participants conversation)
             | RecipientsOf recipients => RecipientsOf recipients
             end;
           md_timestamp := now |} in
      ret message
  end.

Definition completeConversation (now : Z) (id : Id) (goalAchieved : bool)
  : M World Conversation :=
  let! conversation := convs_findById repository id in
  match conversation with
  | None => throw NotFound
  | Some conversation =>
      do! throw_if (negb (statusIs ConvActive conversation)) InvalidState in
      (* Set all participating agents to inactive *)
      do! for_of (conv_participants conversation) (fun participantId =>
            do! agents_update agentRepository participantId
                  (mkAgentPatch (Some AgentInactive) None) in
            ret tt) in
      let! updatedConversation := convs_update repository id
        (mkConversationPatch (Some ConvCompleted) (Some now) (Some goalAchieved)) in
      match updatedConversation with
      | None => throw UpdateFailed
      | Some updatedConversation => ret updatedConversation
      end
  end.

Definition pauseConversation (id : Id) : M World Conversation :=
  let! conversation := convs_findById repository id in
  match conversation with
  | None => throw NotFound
  | Some conversation =>
      do! throw_if (negb (statusIs ConvActive conversation)) InvalidState in
      (* Note: We keep agents active when paused *)
      let! updatedConversation := convs_update repository id
        (mkConversationPatch (Some ConvPaused) None None) in
      match updatedConversation with
      | None => throw UpdateFailed
      | Some updatedConversation => ret updatedConversation
      end
  end.

Definition pauseAllConversations : M World unit :=
  let! conversations := convs_findAll repository in
  let activeConversations := List.filter (statusIs ConvActive) conversations in
  for_of activeConversations (fun conversation =>
    (* Note: We keep agents active when paused *)
    do! convs_update repository (conv_id conversation)
          (mkConversationPatch (Some ConvPaused) None None) in
    ret tt).

Definition unpauseConversation (id : Id) : M World Conversation :=
  let! conversation := convs_findById repository id in
  match conversation with
  | None => throw NotFound
  | Some conversation =>
      do! throw_if (negb (statusIs ConvPaused conversation)) InvalidState in
      (* Note: Agents are already active from when the conversation was
         first created *)
      let! updatedConversation := convs_update repository id
        (mkConversationPatch (Some ConvActive) None None) in
      match updatedConversation with
      | None => throw UpdateFailed
      | Some updatedConversation => ret updatedConversation
      end
  end.

Definition terminateConversation (now : Z) (id : Id) : M World Conversation :=
  let! conversation := convs_findById repository id in
  match conversation with
  | None => throw NotFound
  | Some conversation =>
      do! throw_if (negb (statusIs ConvActive conversation) &&
                    negb (statusIs ConvPaused conversation)) InvalidState in
      (* Set all participating agents to inactive *)
      do! for_of (conv_participants conversation) (fun participantId =>
            do! agents_update agentRepository participantId
                  (mkAgentPatch (Some AgentInactive) None) in
            ret tt) in
      let! updatedConversation := convs_update repository id
        (mkConversationPatch (Some ConvTerminated) (Some now) (Some false)) in
      match updatedConversation with
      | None => throw UpdateFailed
      | Some updatedConversation => ret updatedConversation
      end
  end.

Definition getConversationMessages (id : Id) : M World (list Message) :=
  let! conversation := convs_findById repository id in
  match conversation with
  | None => throw NotFound
  | Some _ => convs_getMessages repository id
  end.
End Service.
End ConversationService.

(** ** Text helpers (the JavaScript string methods the driver uses) *)

Definition lowerAscii (c : ascii) : ascii :=
  let n := nat_of_ascii c in
  if ((65 <=? n) && (n <=? 90))%nat then ascii_of_nat (n + 32) else c.

(** [s.toLowerCase()] *)
Fixpoint toLowerCase (s : string) : string :=
  match s with
  | EmptyString => EmptyString
  | String c rest => String (lowerAscii c) (toLowerCase rest)
  end.

(** White space: tab, line feed, vertical tab, form feed, carriage return,
    space. *)
Definition isSpace (c : ascii) : bool :=
  let n := nat_of_ascii c in
  ((9 <=? n) && (n <=? 13) || (n =? 32))%nat.

Fixpoint trimStart (s : string) : string :=
  match s with
  | EmptyString => EmptyString
  | String c rest => if isSpace c then trimStart rest else s
  end.

Fixpoint trimEnd (s : string) : string :=
  match s with
  | EmptyString => EmptyString
  | String c rest =>
      match trimEnd rest with
      | EmptyString => if isSpace c then EmptyString else String c EmptyString
      | rest' => String c rest'
      end
  end.

(** [s.trim()] *)
Definition trim (s : string) : string := trimEnd (trimStart s).

(** [hay.includes(needle)] *)
Fixpoint includesText (hay needle : string) : bool :=
  String.prefix needle hay ||
  match hay with
  | EmptyString => false
  | String _ rest => includesText rest needle
  end.

(** The text before and after the first colon. *)
Fixpoint splitAtColon (s : string) : option (string * string) :=
  match s with
  | EmptyString => None
  | String c rest =>
      if Ascii.eqb c ":"%char then Some (EmptyString, rest)
      else match splitAtColon rest with
           | Some (name, tail) => Some (String c name, tail)
           | None => None
           end
  end.

(** [xs.slice(-n)]: the last [n] elements. *)
Definition lastN {A} (n : nat) (xs : list A) : list A :=
  skipn (length xs - n) xs.

(** ** OpenAIService (services/openaiService.ts) *)

(** What the external chat completion call does when it is awaited: the
    promise is rejected, or it resolves to a completion whose
    [choices[0]?.message?.content] is the given optional text. *)
Inductive Completion : Type :=
  | Rejects
  | Resolves (content : option string).

(** The client [OpenAI]: the provider is outside the program, so the client
    carries the outcome of every future call ([script k] is the outcome of the
    call number [k]) and the number of calls made so far.  The request text
    has no influence on the model. *)
Record OpenAI : Type := mkOpenAI {
  script : nat -> Completion;
  served : nat
}.

(** An entry of [ConversationContext['participants']]. *)
Record Participant : Type := mkParticipant {
  part_id : Id;
  part_name : string;
  part_type : AgentType;
  part_description : option string
}.

(** types/openai.ts *)
Record ConversationContext : Type := mkContext {
  ctx_topic : string;
  ctx_goal : string;
  ctx_surrounding : string;
  ctx_participants : list Participant;
  ctx_messageCount : Z
}.

Record OpenAIService : Type := mkOpenAIService {
  openai : option OpenAI;
  conversationContexts : gmap Id ConversationContext;
  messageCheckThreshold : Z;
  consecutiveErrors : Z;
  maxConsecutiveErrors : Z;
  isEnabled : bool;
  disabledReason : option string
}.

(** ** BackgroundService (services/backgroundService.ts): its fields *)

Record BackgroundService : Type := mkBackgroundService {
  (** the timer handle of [setInterval], holding the period it was set with *)
  intervalId : option Z;
  isProcessing : bool;
  processInterval : Z;
  lastMessageTime : gmap Id Z
}.

(** The process: the database tables, the generation driver and the
    scheduler. *)
Record System : Type := mkSystem {
  world : World;
  ai : OpenAIService;
  bg : BackgroundService
}.

Definition with_world (w : World) (s : System) : System := mkSystem w (ai s) (bg s).
Definition with_ai (a : OpenAIService) (s : System) : System := mkSystem (world s) a (bg s).
Definition with_bg (b : BackgroundService) (s : System) : System := mkSystem (world s) (ai s) b.

(** A repository or ConversationService call made from a service object. *)
Definition onWorld {A} (m : M World A) : M System A := zoom world with_world m.

Definition set_openai (c : option OpenAI) (a : OpenAIService) : OpenAIService :=
  mkOpenAIService c (conversationContexts a) (messageCheckThreshold a)
    (consecutiveErrors a) (maxConsecutiveErrors a) (isEnabled a) (disabledReason a).

Definition set_contexts (m : gmap Id ConversationContext) (a : OpenAIService)
  : OpenAIService :=
  mkOpenAIService (openai a) m (messageCheckThreshold a)
    (consecutiveErrors a) (maxConsecutiveErrors a) (isEnabled a) (disabledReason a).

Definition set_consecutiveErrors (n : Z) (a : OpenAIService) : OpenAIService :=
  mkOpenAIService (openai a) (conversationContexts a) (messageCheckThreshold a)
    n (maxConsecutiveErrors a) (isEnabled a) (disabledReason a).

Definition set_disabled (reason : string) (a : OpenAIService) : OpenAIService :=
  mkOpenAIService (openai a) (conversationContexts a) (messageCheckThreshold a)
    (consecutiveErrors a) (maxConsecutiveErrors a) false (Some reason).

Definition set_messageCount (n : Z) (c : ConversationContext) : ConversationContext :=
  mkContext (ctx_topic c) (ctx_goal c) (ctx_surrounding c) (ctx_participants c) n.

Definition liftResult {S A} (r : Result A) : M S A := fun s => (r, s).

Module GenerationDriver.
Section Service.
Context (repository : IConversationRepository).
Context (agentRepository : IAgentRepository).

(** [new OpenAIService(apiKey, conversationService, agentRepository)];
    [goalCheckInterval] is [config.GOAL_CHECK_INTERVAL], and [client] is
    the result of [new OpenAI({ apiKey })], [None] when it throws. *)
Definition create (goalCheckInterval : Z) (apiKey : option string)
    (client : option OpenAI) : OpenAIService :=
  let this := mkOpenAIService None ∅ goalCheckInterval 0 10 true None in
  match apiKey with
  | None | Some EmptyString =>
      set_disabled "OpenAI API key is missing. Agents cannot communicate. Please check your .env file and add OPENAI_API_KEY." this
  | Some _ =>
      match client with
      | Some c => set_openai (Some c) this
      | None =>
          set_disabled "Failed to initialize OpenAI client. Agents cannot communicate. Please check your API key configuration." this
      end
  end.

Definition disableService (reason : string) : M System unit :=
  modify (fun s => with_ai (set_disabled reason (ai s)) s).

Definition getStatus (s : System) : bool * option string :=
  (isEnabled (ai s), disabledReason (ai s)).

Definition handleApiError (error : Error) : M System unit :=
  do! modify (fun s =>
        with_ai (set_consecutiveErrors (consecutiveErrors (ai s) + 1) (ai s)) s) in
  let! this := get in
  if maxConsecutiveErrors (ai this) <=? consecutiveErrors (ai this)
  then disableService "Too many consecutive API errors. Service temporarily disabled."
  else ret tt.

Definition resetErrorCount : M System unit :=
  modify (fun s => with_ai (set_consecutiveErrors 0 (ai s)) s).

(** [await this.openai.chat.completions.create({...})], reduced to
    [completion.choices[0]?.message?.content]. *)
Definition chatCompletionsCreate : M System (option string) :=
  fun s =>
    match openai (ai s) with
    | None => (Throw ClientMissing, s)
    | Some client =>
        let s' := with_ai (set_openai
                    (Some (mkOpenAI (script client) (S (served client)))) (ai s)) s in
        match script client (served client) with
        | Rejects => (Throw ProviderError, s')
        | Resolves content => (Ok content, s')
        end
    end.

Definition initializeConversation (conversation : Conversation) : M System unit :=
  let! participants :=
    map_async (conv_participants conversation) (fun id =>
      let! agent := onWorld (agents_findById agentRepository id) in
      match agent with
      | None => throw (AgentNotFound id)
      | Some agent =>
          ret (mkParticipant (agent_id agent) (agent_name agent)
                 (agent_type agent) (agent_description agent))
      end) in
  modify (fun s =>
    with_ai (set_contexts
               (<[conv_id conversation :=
                    mkContext (conv_topic conversation) (conv_goal conversation)
                      (conv_surrounding conversation) participants 0]>
                  (conversationContexts (ai s)))
               (ai s)) s).

(** [generateSystemPrompt]: the prompt is request text; what remains is
    the lookup of the context, which throws when there is none. *)
Definition generateSystemPrompt (conversationId : Id) : M System unit :=
  let! this := get in
  match conversationContexts (ai this) !! conversationId with
  | None => throw ContextError
  | Some _ => ret tt
  end.

Definition findParticipant (participants : list Participant) (id : Id)
  : option Participant :=
  List.find (fun p => String.eqb (part_id p) id) participants.

(** One turn of [formattedMessages] in [processMessage]:
    [`${sender.name}: ${m.content} (to: ${...})`]. *)
Definition formatTurn (context : ConversationContext) (m : Message) : M System string :=
  match findParticipant (ctx_participants context) (msg_senderId m) with
  | None => throw ContextError
  | Some sender =>
      ret (part_name sender ++ ": " ++ msg_content m ++ " (to: " ++
           match msg_recipients m with
           | RecipientsOf ids => String.concat ", " ids
           | RecipientsAll => "all"
           end ++ ")")
  end.

(** One line of [formattedMessages] in [checkGoalAchievement]. *)
Definition formatLine (context : ConversationContext) (m : Message) : M System string :=
  match findParticipant (ctx_participants context) (msg_senderId m) with
  | None => throw ContextError
  | Some sender => ret (part_name sender ++ ": " ++ msg_content m)
  end.

(** [response.match(/^([^:]+):\s*(.+)$/s)]: the first group is the text
    before the first colon and must not be empty; the text after the colon
    must not be empty either, and the second group is that text without
    leading white space (its last character when it is all white space), so
    that [content.trim()] is the trimmed text after the colon. *)
Definition parseResponse (response : string) (participants : list Participant)
  : Result (Id * string) :=
  match splitAtColon response with
  | None => Throw MalformedResponse
  | Some (agentName, content) =>
      if String.eqb agentName "" || String.eqb content "" then Throw MalformedResponse
      else
        match List.find (fun p => String.eqb (trim (toLowerCase (part_name p)))
                                    (trim (toLowerCase agentName))) participants with
        | None => Throw (UnknownSpeaker agentName (part_name <$> participants))
        | Some agent => Ok (part_id agent, trim content)
        end
  end.

Definition checkGoalAchievement (conversationId : Id) : M System bool :=
  let! this := get in
  match openai (ai this) with
  | None => throw ClientMissing
  | Some _ =>
      match conversationContexts (ai this) !! conversationId with
      | None => throw ContextError
      | Some context =>
          let! conversation :=
            onWorld (ConversationService.findById repository conversationId) in
          match conversation with
          | None => throw NotFound
          | Some _ =>
              let! messages := onWorld
                (ConversationService.getConversationMessages repository conversationId) in
              let! formattedMessages := map_async (lastN 10 messages) (formatLine context) in
              let! content := chatCompletionsCreate in
              let answer :=
                match content with
                | None => "no"
                | Some text =>
                    if String.eqb (toLowerCase text) "" then "no" else toLowerCase text
                end in
              ret (includesText answer "yes")
          end
      end
  end.

(** The [try] block of [processMessage] from the fetch of the messages on;
    [context] is the context object after [context.messageCount++]. *)
Definition processMessage_generate (now : Z) (conversation : Conversation)
    (context : ConversationContext) : M System unit :=
  let! messages := onWorld
    (ConversationService.getConversationMessages repository (conv_id conversation)) in
  let! formattedMessages := map_async (lastN 5 messages) (formatTurn context) in
  do! generateSystemPrompt (conv_id conversation) in
  let! content := chatCompletionsCreate in
  match content with
  | None | Some EmptyString => throw NoResponse
  | Some content =>
      let! parsed := liftResult (parseResponse content (ctx_participants context)) in
      do! onWorld (ConversationService.addMessage repository now
            {| am_conversationId := conv_id conversation;
               am_senderId := parsed.1;
               am_content := parsed.2;
               am_recipients := RecipientsAll |}) in
      let! this := get in
      do! (if Z.rem (ctx_messageCount context) (messageCheckThreshold (ai this)) =? 0
           then
             let! goalAchieved := checkGoalAchievement (conv_id conversation) in
             if goalAchieved
             then do! onWorld (ConversationService.completeConversation
                                 repository agentRepository now
                                 (conv_id conversation) true) in
                  ret tt
             else ret tt
           else ret tt) in
      resetErrorCount
  end.

(** The [try] block of [processMessage]: the context is fetched or built,
    its counter is incremented, and the generation follows. *)
Definition processMessage_try (now : Z) (message : Message)
    (conversation : Conversation) : M System unit :=
  let! this := get in
  let! context :=
    match conversationContexts (ai this) !! conv_id conversation with
    | Some context => ret context
    | None =>
        do! initializeConversation conversation in
        let! this := get in
        match conversationContexts (ai this) !! conv_id conversation with
        | Some context => ret context
        | None => throw ContextError
        end
    end in
  (* context.messageCount++ : the object held by the map is updated *)
  let context := set_messageCount (ctx_messageCount context + 1) context in
  do! modify (fun s =>
        with_ai (set_contexts
                   (<[conv_id conversation := context]> (conversationContexts (ai s)))
                   (ai s)) s) in
  processMessage_generate now conversation context.

Definition processMessage (now : Z) (message : Message)
    (conversation : Conversation) : M System unit :=
  let! this := get in
  if negb (isEnabled (ai this)) || negb (bool_decide (is_Some (openai (ai this))))
  then ret tt
  else try_catch (processMessage_try now message conversation) handleApiError.

(** The opening message of a conversation. *)
Definition openingMessage (agent : Agent) (conversation : Conversation) : string :=
  "As a " ++ agentTypeName (agent_type agent) ++
  match agent_description agent with
  | None | Some EmptyString => ""
  | Some description => " who " ++ description
  end ++
  ", I'd like to begin our discussion about " ++ conv_topic conversation ++
  ". Our goal is to " ++ conv_goal conversation ++
  ". Let's work together to achieve this.".

Definition processActiveConversations (now : Z) : M System unit :=
  let! this := get in
  if negb (isEnabled (ai this)) || negb (bool_decide (is_Some (openai (ai this))))
  then ret tt
  else
    try_catch
      (let! conversations :=
         onWorld (ConversationService.getAllConversations repository) in
       let activeConversations := List.filter (statusIs ConvActive) conversations in
       for_of activeConversations (fun conversation =>
         let! messages := onWorld
           (ConversationService.getConversationMessages repository
              (conv_id conversation)) in
         match last messages with
         | None =>
             (* Start the conversation with a message from the first
                participant *)
             match head (conv_participants conversation) with
             | None => ret tt
             | Some firstAgent =>
                 let! agent := onWorld (agents_findById agentRepository firstAgent) in
                 match agent with
                 | None => ret tt (* continue *)
                 | Some agent =>
                     do! onWorld (ConversationService.addMessage repository now
                           {| am_conversationId := conv_id conversation;
                              am_senderId := firstAgent;
                              am_content := openingMessage agent conversation;
                              am_recipients := RecipientsAll |}) in
                     ret tt
                 end
             end
         | Some lastMessage => processMessage now lastMessage conversation
         end))
      handleApiError.
End Service.
End GenerationDriver.

Module Scheduler.
Section Service.
Context (repository : IConversationRepository).
Context (agentRepository : IAgentRepository).

(** [new BackgroundService(openAIService)]; [interval] is
    [config.AGENT_RESPONSE_INTERVAL]. *)
Definition create (interval : Z) : BackgroundService :=
  mkBackgroundService None false interval ∅.

Definition set_isProcessing (b : bool) (s : System) : System :=
  with_bg (mkBackgroundService (intervalId (bg s)) b (processInterval (bg s))
             (lastMessageTime (bg s))) s.

Definition set_lastMessageTime (id : Id) (now : Z) (s : System) : System :=
  with_bg (mkBackgroundService (intervalId (bg s)) (isProcessing (bg s))
             (processInterval (bg s)) (<[id := now]> (lastMessageTime (bg s)))) s.

Definition processConversations (now : Z) : M System unit :=
  try_catch
    (let! conversations :=
       onWorld (ConversationService.getAllConversations repository) in
     let activeConversations := List.filter (statusIs ConvActive) conversations in
     for_of activeConversations (fun conversation =>
       let! this := get in
       (* this.lastMessageTime.get(conversation.id) || 0 *)
       let lastTime := default 0 (lastMessageTime (bg this) !! conv_id conversation) in
       let timeSinceLastMessage := now - lastTime in
       (* If enough time has passed since the last message *)
       if processInterval (bg this) <=? timeSinceLastMessage then
         let! messages := onWorld
           (ConversationService.getConversationMessages repository
              (conv_id conversation)) in
         match last messages with
         | None =>
             (* Start the conversation with a message from the first
                participant *)
             do! GenerationDriver.processActiveConversations
                   repository agentRepository now in
             modify (set_lastMessageTime (conv_id conversation) now)
         | Some lastMessage =>
             do! GenerationDriver.processMessage repository agentRepository
                   now lastMessage conversation in
             modify (set_lastMessageTime (conv_id conversation) now)
         end
       else ret tt))
    (fun error => ret tt).

(** [start()]: the timer is set with the period
    [Math.min(1000, this.processInterval)]. *)
Definition start (s : System) : System :=
  match intervalId (bg s) with
  | Some _ => s (* Already running *)
  | None =>
      with_bg (mkBackgroundService (Some (Z.min 1000 (processInterval (bg s))))
                 (isProcessing (bg s)) (processInterval (bg s))
                 (lastMessageTime (bg s))) s
  end.

(** The callback given to [setInterval], run at time [now]. *)
Definition tick (now : Z) : M System unit :=
  let! this := get in
  if isProcessing (bg this) then ret tt (* Skip if still processing previous iteration *)
  else
    do! modify (set_isProcessing true) in
    do! try_catch (processConversations now) (fun error => ret tt) in
    (* finally *)
    modify (set_isProcessing false).

Definition stop (s : System) : System :=
  match intervalId (bg s) with
  | Some _ =>
      with_bg (mkBackgroundService None (isProcessing (bg s))
                 (processInterval (bg s)) ∅) s
  | None => s
  end.
End Service.
End Scheduler.


(** ** ConversationService: the queries (services/conversationService.ts) *)

(** An entry of [messagesByAgent] and [conversationsByAgent]. *)
Record AgentCount : Type := mkAgentCount {
  ac_agentId : Id;
  ac_name : string;
  ac_count : nat
}.

Record ConversationStats : Type := mkConversationStats {
  stats_total : nat;
  stats_active : nat;
  stats_paused : nat;
  stats_completed : nat;
  stats_terminated : nat
}.

Record Statistics : Type := mkStatistics {
  totalMessages : nat;
  messagesByAgent : list AgentCount;
  conversationsByAgent : list AgentCount;
  conversationStats : ConversationStats
}.

(** [Map<string, number>] with its insertion order:
    [map.set(key, (map.get(key) || 0) + 1)]. *)
Fixpoint bump (key : Id) (counts : list (Id * nat)) : list (Id * nat) :=
  match counts with
  | [] => [(key, 1%nat)]
  | (k, n) :: rest =>
      if String.eqb k key then (k, (n + 1)%nat) :: rest
      else (k, n) :: bump key rest
  end.

(** [xs.forEach(x => bump(x))] *)
Definition bumpAll (keys : list Id) (counts : list (Id * nat)) : list (Id * nat) :=
  foldl (fun counts key => bump key counts) counts keys.

(** [entries.sort((a, b) => b.count - a.count)]: descending by count, and
    stable, as [Array.prototype.sort] is. *)
Fixpoint insertByCount (x : AgentCount) (sorted : list AgentCount) : list AgentCount :=
  match sorted with
  | [] => [x]
  | y :: rest =>
      if (ac_count x <? ac_count y)%nat then y :: insertByCount x rest
      else x :: y :: rest
  end.

Definition sortByCount (entries : list AgentCount) : list AgentCount :=
  foldr insertByCount [] entries.

(** [new Map(agents.map(agent => [agent.id, agent])).get(id)]: the last agent
    of the list with this id. *)
Definition agentMapGet (agents : list Agent) (id : Id) : option Agent :=
  List.find (fun agent => String.eqb (agent_id agent) id) (rev agents).

(** [agentMap.get(agentId)?.name || 'Unknown Agent'] *)
Definition agentNameOr (agents : list Agent) (id : Id) : string :=
  match agentMapGet agents id with
  | None => "Unknown Agent"
  | Some agent =>
      if String.eqb (agent_name agent) "" then "Unknown Agent" else agent_name agent
  end.

Module ConversationQueries.
Section Service.
Context (repository : IConversationRepository).
Context (agentRepository : IAgentRepository).

Definition getAvailableAgents : M World (list Agent) :=
  let! allAgents := agents_findAll agentRepository in
  let! activeConversations := convs_findAll repository in
  (* Get all agent IDs that are in active conversations *)
  let busyAgentIds : gset Id :=
    list_to_set
      (flat_map conv_participants
         (List.filter (statusIs ConvActive) activeConversations)) in
  (* Return only agents that are not in any active conversation and are
     inactive *)
  ret (List.filter (fun agent =>
                      negb (bool_decide (agent_id agent ∈ busyAgentIds)) &&
                      bool_decide (agent_status agent = AgentInactive))
                   allAgents).

Definition getStatistics : M World Statistics :=
  let! conversations := convs_findAll repository in
  let! messages := map_async conversations (fun conv =>
                     convs_getMessages repository (conv_id conv)) in
  let allMessages := concat messages in
  (* Count messages by agent *)
  let messageCountByAgent := bumpAll (msg_senderId <$> allMessages) [] in
  (* Count conversations by agent *)
  let conversationCountByAgent :=
    foldl (fun counts conv => bumpAll (conv_participants conv) counts) []
      conversations in
  (* Get agent details for the counts *)
  let! agents := agents_findAll agentRepository in
  let named (entry : Id * nat) :=
    mkAgentCount entry.1 (agentNameOr agents entry.1) entry.2 in
  ret {| totalMessages := length allMessages;
         messagesByAgent := sortByCount (named <$> messageCountByAgent);
         conversationsByAgent := sortByCount (named <$> conversationCountByAgent);
         conversationStats :=
           {| stats_total := length conversations;
              stats_active := length (List.filter (statusIs ConvActive) conversations);
              stats_paused := length (List.filter (statusIs ConvPaused) conversations);
              stats_completed :=
                length (List.filter (statusIs ConvCompleted) conversations);
              stats_terminated :=
                length (List.filter (statusIs ConvTerminated) conversations) |} |}.

Definition hasEnoughInactiveAgents : M World bool :=
  let! agents := agents_findAll agentRepository in
  let inactiveAgents :=
    List.filter (fun agent => bool_decide (agent_status agent = AgentInactive)) agents in
  ret (2 <=? length inactiveAgents)%nat.
End Service.
End ConversationQueries.

(** ** OpenAIService: roles and communication styles
    (services/openaiService.ts) *)

Module PromptStyle.

Definition getAgentTypeDescription (type : string) : string :=
  let t := toLowerCase type in
  if String.eqb t "learning" then
    "Curious and adaptable, focuses on gathering information and understanding different perspectives"
  else if String.eqb t "assistant" then
    "Helpful and supportive, aims to facilitate discussion and find common ground"
  else if String.eqb t "specialist" then
    "Expert in their field, provides detailed insights and technical knowledge"
  else "Standard agent with balanced characteristics".

(** [if (description.toLowerCase().includes(word)) traits.push(trait)] *)
Definition pushIf (description word trait : string) (traits : list string)
  : list string :=
  if includesText (toLowerCase description) word then (traits ++ [trait])%list
  else traits.

Definition analyzeDescriptionForTraits (description : string) : string :=
  (* Look for key personality indicators in the description *)
  let traits : list string := [] in
  let traits := pushIf description "formal" "formal" traits in
  let traits := pushIf description "casual" "casual" traits in
  let traits := pushIf description "direct" "direct" traits in
  let traits := pushIf description "diplomatic" "diplomatic" traits in
  let traits := pushIf description "technical" "technical" traits in
  let traits := pushIf description "friendly" "friendly" traits in
  let traits := pushIf description "professional" "professional" traits in
  (* If no specific traits found, analyze the general tone *)
  let traits :=
    if (length traits =? 0)%nat then
      let traits := pushIf description "expert" "authoritative" traits in
      let traits := pushIf description "help" "supportive" traits in
      let traits := pushIf description "learn" "curious" traits in
      pushIf description "collaborate" "collaborative" traits
    else traits in
  if (0 <? length traits)%nat then String.concat " and " traits
  else "adaptable and context-aware".

Definition baseStyle (type : string) : string :=
  let t := toLowerCase type in
  if String.eqb t "learning" then
    "inquisitive and open-minded manner, often asking questions and seeking clarification"
  else if String.eqb t "assistant" then
    "supportive and diplomatic way, focusing on clarity and understanding"
  else if String.eqb t "specialist" then
    "precise and authoritative tone, using field-specific terminology when appropriate"
  else "balanced and professional manner".

Definition getCommunicationStyle (type : string) (description : option string)
  : string :=
  (* Analyze description for additional communication traits *)
  match description with
  | None | Some EmptyString => baseStyle type
  | Some description =>
      baseStyle type ++ ", while also being " ++ analyzeDescriptionForTraits description
  end.

End PromptStyle.

(** ** AI logs (menu/submenus/logs): the preview of a message *)

(** [s.split(' ')]: the pieces between the spaces, empty pieces included. *)
Fixpoint splitOnSpace (s : string) : list string :=
  match s with
  | EmptyString => [EmptyString]
  | String c rest =>
      if Ascii.eqb c " "%char then EmptyString :: splitOnSpace rest
      else
        match splitOnSpace rest with
        | word :: words => String c word :: words
        | [] => [String c EmptyString]
        end
  end.

(** The first 10 words of a message, with an ellipsis when there are more. *)
Definition preview (content : string) : string :=
  let previewWords := String.concat " " (take 10 (splitOnSpace content)) in
  previewWords ++
  (if (10 <? length (splitOnSpace content))%nat then "..." else "").
(** ** The services over the store *)

Abbreviation createAgent := (AgentService.createAgent agentStore).
Abbreviation createConversation :=
  (ConversationService.createConversation conversationStore agentStore).
Abbreviation addMessage := (ConversationService.addMessage conversationStore).
Abbreviation completeConversation :=
  (ConversationService.completeConversation conversationStore agentStore).
Abbreviation pauseConversation := (ConversationService.pauseConversation conversationStore).
Abbreviation pauseAllConversations :=
  (ConversationService.pauseAllConversations conversationStore).
Abbreviation unpauseConversation :=
  (ConversationService.unpauseConversation conversationStore).
Abbreviation terminateConversation :=
  (ConversationService.terminateConversation conversationStore agentStore).
Abbreviation processMessage :=
  (GenerationDriver.processMessage conversationStore agentStore).
Abbreviation processMessage_try :=
  (GenerationDriver.processMessage_try conversationStore agentStore).
Abbreviation processMessage_generate :=
  (GenerationDriver.processMessage_generate conversationStore agentStore).
Abbreviation initializeConversation :=
  (GenerationDriver.initializeConversation agentStore).
Abbreviation checkGoalAchievement :=
  (GenerationDriver.checkGoalAchievement conversationStore).
Abbreviation getConversationMessages :=
  (ConversationService.getConversationMessages conversationStore).
Abbreviation tick := (Scheduler.tick conversationStore agentStore).

(** ** Vocabulary of the specification *)

(** An agent of this name is stored (byte-for-byte, hence case-sensitive). *)
Definition agentNameTaken (w : World) (name : string) : Prop :=
  Exists (fun a => agent_name a = name) (allAgents w).

Definition conversationNameTaken (w : World) (name : string) : Prop :=
  Exists (fun c => conv_name c = name) (allConversations w).

#[global] Instance agentNameTaken_dec w name : Decision (agentNameTaken w name).
Proof. unfold agentNameTaken. apply _. Defined.

#[global] Instance conversationNameTaken_dec w name :
  Decision (conversationNameTaken w name).
Proof. unfold conversationNameTaken. apply _. Defined.

(** Non-terminal and terminal conversation states. *)
Definition live (c : Conversation) : Prop :=
  conv_status c = ConvActive ∨ conv_status c = ConvPaused.

Definition terminal (c : Conversation) : Prop :=
  conv_status c = ConvCompleted ∨ conv_status c = ConvTerminated.

(** The agent takes part in a stored conversation that is active or paused. *)
Definition participates (w : World) (id : Id) : Prop :=
  ∃ cid c, conversationTable w !! cid = Some c ∧ live c ∧ id ∈ conv_participants c.

(** The reservation invariant: active exactly when taking part. *)
Definition reservedIffParticipating (w : World) : Prop :=
  ∀ id a, agentTable w !! id = Some a →
    (agent_status a = AgentActive ↔ participates w id).

(** Two distinct live conversations share no participant. *)
Definition liveDisjoint (w : World) : Prop :=
  ∀ cid1 cid2 c1 c2 id,
    conversationTable w !! cid1 = Some c1 → conversationTable w !! cid2 = Some c2 →
    live c1 → live c2 → id ∈ conv_participants c1 → id ∈ conv_participants c2 →
    cid1 = cid2.

(** A fresh system: agents as [createAgent] leaves them by default, and no
    conversation yet. *)
Definition allInactive (w : World) : bool :=
  forallb (fun a => bool_decide (agent_status a = AgentInactive)) (allAgents w).

Definition initial (w : World) : Prop :=
  conversationTable w = ∅ ∧ allInactive w = true.

(** The calls of the lifecycle manager. *)
Inductive Call : Type :=
  | CreateConversation (now : Z) (data : CreateConversationDTO)
  | AddMessage (now : Z) (data : AddMessageDTO)
  | CompleteConversation (now : Z) (id : Id) (goalAchieved : bool)
  | PauseConversation (id : Id)
  | PauseAllConversations
  | UnpauseConversation (id : Id)
  | TerminateConversation (now : Z) (id : Id).

(** The state a call leaves behind, whether it returns or throws. *)
Definition perform (call : Call) (w : World) : World :=
  match call with
  | CreateConversation now data => (createConversation now data w).2
  | AddMessage now data => (addMessage now data w).2
  | CompleteConversation now id g => (completeConversation now id g w).2
  | PauseConversation id => (pauseConversation id w).2
  | PauseAllConversations => (pauseAllConversations w).2
  | UnpauseConversation id => (unpauseConversation id w).2
  | TerminateConversation now id => (terminateConversation now id w).2
  end.

Definition performAll (calls : list Call) (w : World) : World :=
  foldl (fun w call => perform call w) w calls.

(** A table after [update(id, patch)] for each listed id, where [f] applies
    the patch: a missing id is skipped, as [update] returns [null] for it. *)
Definition updateAt {V} (f : V → V) (t : gmap Id V) (id : Id) : gmap Id V :=
  match t !! id with
  | None => t
  | Some v => <[id := f v]> t
  end.

Definition updateAll {V} (f : V → V) (ids : list Id) (t : gmap Id V) : gmap Id V :=
  foldl (updateAt f) t ids.

Definition setStatus (st : AgentStatus) (a : Agent) : Agent :=
  patchAgent (mkAgentPatch (Some st) None) a.

Definition setConvStatus (st : ConversationStatus) (c : Conversation) : Conversation :=
  patchConversation (mkConversationPatch (Some st) None None) c.

(** The first reason, in list order, why a participant cannot be reserved. *)
Fixpoint firstUnavailable (t : gmap Id Agent) (ids : list Id) : option Error :=
  match ids with
  | [] => None
  | id :: rest =>
      match t !! id with
      | None => Some (AgentNotFound id)
      | Some a =>
          if bool_decide (agent_status a = AgentInactive)
          then firstUnavailable t rest
          else Some (AgentNotAvailable (agent_name a))
      end
  end.


(** The record [createConversation] stores under the generated id. *)
Definition newConversation (now : Z) (data : CreateConversationDTO) (id : Id)
  : Conversation :=
  mkConversation id (cc_name data) (cc_topic data) (cc_goal data)
    (cc_surrounding data) ConvActive (cc_participantIds data) [] now None
    (Some false).

(** The message [addMessage] stores under the generated id. *)
Definition storedMessage (now : Z) (data : AddMessageDTO) (c : Conversation)
    (id : Id) : Message :=
  mkMessage id (am_conversationId data) (am_senderId data) (am_content data)
    (match am_recipients data with
     | RecipientsAll => RecipientsOf (conv_participants c)
     | RecipientsOf recipients => RecipientsOf recipients
     end) now.

(** The explicit recipients that are no participants. *)
Definition invalidRecipients (data : AddMessageDTO) (c : Conversation) : list Id :=
  match am_recipients data with
  | RecipientsAll => []
  | RecipientsOf recipients =>
      List.filter (fun id => negb (includes (conv_participants c) id)) recipients
  end.

(** The world after the participants of [c] are released and [c'] replaces
    it. *)
Definition releasedWorld (w : World) (id : Id) (c c' : Conversation) : World :=
  mkWorld (updateAll (setStatus AgentInactive) (conv_participants c) (agentTable w))
    (<[id := c']> (conversationTable w)).

(** Every row is stored under its own id (the primary key). *)
Definition wellKeyed (w : World) : Prop :=
  ∀ k c, conversationTable w !! k = Some c → conv_id c = k.

(** Two conversation tables with the same keys, and under each key the same
    participants and the same liveness. *)
Definition sameRoster (t t' : gmap Id Conversation) : Prop :=
  ∀ k,
    match t !! k, t' !! k with
    | Some c, Some c' =>
        conv_id c' = conv_id c ∧ conv_participants c' = conv_participants c ∧
        (live c' ↔ live c)
    | None, None => True
    | _, _ => False
    end.

(** What the lifecycle calls maintain. *)
Definition consistent (w : World) : Prop :=
  wellKeyed w ∧ reservedIffParticipating w ∧ liveDisjoint w.

(** *** Frames of a computation *)

(** The computation leaves the observation [f] of the state as it was,
    whether it returns or throws. *)
Definition keeps {S T A} (f : S → T) (m : M S A) : Prop :=
  ∀ s, f (m s).2 = f s.

(** The computation returns with the error counter at zero, or throws with
    the error counter as it was. *)
Definition resets {A} (m : M System A) : Prop :=
  ∀ s,
    match (m s).1 with
    | Ok _ => consecutiveErrors (ai (m s).2) = 0
    | Throw _ => consecutiveErrors (ai (m s).2) = consecutiveErrors (ai s)
    end.

(** The guard of [processMessage] lets the step through. *)
Definition ready (s : System) : Prop :=
  isEnabled (ai s) = true ∧ is_Some (openai (ai s)).

(** The settings of the driver that no step changes while it fails or
    succeeds. *)
Definition driverSettings (s : System) : bool * Z * Z * option string :=
  (isEnabled (ai s), maxConsecutiveErrors (ai s), messageCheckThreshold (ai s),
   disabledReason (ai s)).

Definition contextsOf (s : System) : gmap Id ConversationContext :=
  conversationContexts (ai s).

Definition clientOf (s : System) : option OpenAI := openai (ai s).

Definition errorsOf (s : System) : Z := consecutiveErrors (ai s).

Definition tooManyErrors : string :=
  "Too many consecutive API errors. Service temporarily disabled.".

(** One invocation of [processMessage]. *)
Record Step : Type := mkStep {
  step_now : Z;
  step_message : Message;
  step_conversation : Conversation
}.

Definition runStep (s : System) (st : Step) : System :=
  (processMessage (step_now st) (step_message st) (step_conversation st) s).2.

Definition runSteps (steps : list Step) (s : System) : System :=
  foldl runStep s steps.

(** The generation call at the cursor of the client fails, or its reply does
    not parse against the roster. *)
Definition generationFails (c : OpenAI) (roster : list Participant) : Prop :=
  match script c (served c) with
  | Rejects => True
  | Resolves None => True
  | Resolves (Some text) =>
      text = "" ∨ ∃ e, GenerationDriver.parseResponse text roster = Throw e
  end.

(** ** The agent registry and the queries over the store *)

Abbreviation deleteAgent := (AgentService.deleteAgent agentStore).
Abbreviation activateAgent := (AgentService.activateAgent agentStore).
Abbreviation deactivateAgent := (AgentService.deactivateAgent agentStore).
Abbreviation updateAgentDescription := (AgentService.updateAgentDescription agentStore).
Abbreviation getAvailableAgents :=
  (ConversationQueries.getAvailableAgents conversationStore agentStore).
Abbreviation getStatistics :=
  (ConversationQueries.getStatistics conversationStore agentStore).
Abbreviation processActiveConversations :=
  (GenerationDriver.processActiveConversations conversationStore agentStore).

(** Every agent is stored under its own id. *)
Definition agentsKeyed (w : World) : Prop :=
  ∀ k a, agentTable w !! k = Some a → agent_id a = k.

(** Every participant of an active or paused conversation is a stored
    agent. *)
Definition participantsStored (w : World) : Prop :=
  ∀ cid c id, conversationTable w !! cid = Some c → live c →
    id ∈ conv_participants c → is_Some (agentTable w !! id).

(** No two stored agents, and no two stored conversations, have the same
    name. *)
Definition agentNamesUnique (w : World) : Prop :=
  ∀ k1 k2 a1 a2, agentTable w !! k1 = Some a1 → agentTable w !! k2 = Some a2 →
    agent_name a1 = agent_name a2 → k1 = k2.

Definition conversationNamesUnique (w : World) : Prop :=
  ∀ k1 k2 c1 c2,
    conversationTable w !! k1 = Some c1 → conversationTable w !! k2 = Some c2 →
    conv_name c1 = conv_name c2 → k1 = k2.

(** The calls of the whole service layer: the lifecycle manager and the
    agent registry. *)
Inductive Command : Type :=
  | Lifecycle (call : Call)
  | CreateAgent (now : Z) (data : CreateAgentDTO)
  | DeleteAgent (id : Id)
  | ActivateAgent (id : Id)
  | DeactivateAgent (id : Id)
  | UpdateAgentDescription (id : Id) (description : string).

(** The state a command leaves behind, whether it returns or throws. *)
Definition execute (command : Command) (w : World) : World :=
  match command with
  | Lifecycle call => perform call w
  | CreateAgent now data => (createAgent now data w).2
  | DeleteAgent id => (deleteAgent id w).2
  | ActivateAgent id => (activateAgent id w).2
  | DeactivateAgent id => (deactivateAgent id w).2
  | UpdateAgentDescription id description => (updateAgentDescription id description w).2
  end.

Definition executeAll (commands : list Command) (w : World) : World :=
  foldl (fun w command => execute command w) w commands.

(** The commands that leave the status of an agent to the lifecycle manager:
    no direct activation or deactivation, and no agent created as 'active'. *)
Definition leavesStatus (command : Command) : bool :=
  match command with
  | ActivateAgent _ | DeactivateAgent _ => false
  | CreateAgent _ data => negb (bool_decide (ca_status data = Some AgentActive))
  | _ => true
  end.

(** The stored messages of a conversation are well addressed: each carries
    the id of the conversation, a participant as its sender and participants
    as its recipients. *)
Definition wellAddressed (k : Id) (c : Conversation) (m : Message) : Prop :=
  msg_conversationId m = k ∧
  msg_senderId m ∈ conv_participants c ∧
  ∃ recipients, msg_recipients m = RecipientsOf recipients ∧
                recipients ⊆ conv_participants c.

Definition messagesAddressed (w : World) : Prop :=
  ∀ k c m, conversationTable w !! k = Some c → m ∈ conv_messages c →
    wellAddressed k c m.

(** What a conversation keeps for its whole life: everything but its status,
    its end date, its outcome and the tail of its history. *)
Definition sameIdentity (c c' : Conversation) : Prop :=
  conv_id c' = conv_id c ∧ conv_name c' = conv_name c ∧
  conv_topic c' = conv_topic c ∧ conv_goal c' = conv_goal c ∧
  conv_surrounding c' = conv_surrounding c ∧
  conv_participants c' = conv_participants c ∧
  conv_startedAt c' = conv_startedAt c.

(** What one call can do to the row stored under [k]: its identity stays, a
    completed or terminated row is not revived, and its history stays or
    grows by one well addressed message, which needs the row to be active. *)
Definition rowStep (k : Id) (c c' : Conversation) : Prop :=
  sameIdentity c c' ∧ (live c' → live c) ∧
  (conv_messages c' = conv_messages c ∨
   ∃ m, conv_messages c' = (conv_messages c ++ [m])%list ∧ wellAddressed k c m ∧
        conv_status c = ConvActive ∧ conv_status c' = ConvActive).

(** What one call can do to a stored agent: nothing, or set its status. *)
Definition agentStep (a a' : Agent) : Prop :=
  a' = a ∨ ∃ st, a' = setStatus st a.

(** The computation changes the tables only as a sequence of calls of the
    lifecycle manager does; [L] describes the sequence. *)
Definition through {A} (L : list Call → Prop) (m : M System A) : Prop :=
  ∀ s, ∃ calls, L calls ∧ world (m s).2 = performAll calls (world s).

(** The calls the generation driver makes at time [now]: a message to all
    participants, or a completion with the goal achieved. *)
Definition driverCall (now : Z) (call : Call) : Prop :=
  match call with
  | AddMessage now' data => now' = now ∧ am_recipients data = RecipientsAll
  | CompleteConversation now' _ goalAchieved => now' = now ∧ goalAchieved = true
  | _ => False
  end.

(** A computation keeps a property of the state, whether it returns or
    throws. *)
Definition preserves {S A} (P : S → Prop) (m : M S A) : Prop :=
  ∀ s, P s → P (m s).2.

(** A computation never throws. *)
Definition neverThrows {S A} (m : M S A) : Prop :=
  ∀ s, ∃ a, (m s).1 = Ok a.

(** The messages stored for a conversation. *)
Definition messagesOf (w : World) (id : Id) : list Message :=
  from_option conv_messages [] (conversationTable w !! id).

(** The agent is a participant of a stored conversation that is active. *)
Definition busyIn (w : World) (id : Id) : Prop :=
  ∃ c, c ∈ allConversations w ∧ conv_status c = ConvActive ∧ id ∈ conv_participants c.

(** The messages [getStatistics] fetches: those of each listed conversation,
    by its id. *)
Definition fetchedMessages (w : World) : list Message :=
  concat ((fun c => messagesOf w (conv_id c)) <$> allConversations w).

(** A list of counts in descending order. *)
Definition descending (l : list AgentCount) : Prop :=
  ∀ i j x y, (i ≤ j)%nat → l !! i = Some x → l !! j = Some y →
    (ac_count y ≤ ac_count x)%nat.

(** The number of the messages sent by an agent. *)
Definition sentBy (id : Id) (messages : list Message) : nat :=
  length (List.filter (fun m => String.eqb (msg_senderId m) id) messages).

(** [counts.get(key) || 0] *)
Definition getCount (counts : list (Id * nat)) (key : Id) : nat :=
  from_option snd 0%nat (List.find (fun e => String.eqb e.1 key) counts).


(** ** Vocabulary of the generation driver *)

(** The text has no colon. *)
Definition colonFree (s : string) : Prop := ∀ a b, s ≠ a ++ String ":" b.

(** A name as [parseResponse] compares it: lower case, trimmed. *)
Definition normalName (s : string) : string := trim (toLowerCase s).

(** The reply to the goal check contains "yes", in any case. *)
Definition saysYes (content : option string) : Prop :=
  ∃ text pre post, content = Some text ∧ toLowerCase text = pre ++ "yes" ++ post.

(** The roster entry [initializeConversation] builds for an agent. *)
Definition participantOf (a : Agent) : Participant :=
  mkParticipant (agent_id a) (agent_name a) (agent_type a) (agent_description a).

(** The fields of the scheduler during a sweep at time [now] that started
    from [b0]: the timer and the interval are those of [b0], and an entry of
    the last-advance map is the one of [b0] or [now]. *)
Definition sweeping (now : Z) (b0 : BackgroundService) (s : System) : Prop :=
  intervalId (bg s) = intervalId b0 ∧ processInterval (bg s) = processInterval b0 ∧
  isProcessing (bg s) = true ∧
  ∀ id, lastMessageTime (bg s) !! id = lastMessageTime b0 !! id ∨
        lastMessageTime (bg s) !! id = Some now.

(** What happens to the running system: a call of the user through the
    menus, a generation step of the driver, the opening pass of the driver,
    and a callback of the timer. *)
Inductive Event : Type :=
  | UserCall (call : Call)
  | Generate (now : Z) (message : Message) (conversation : Conversation)
  | Opening (now : Z)
  | Tick (now : Z).

(** The state an event leaves behind when it runs to completion on its
    own, with no other event in between its steps. *)
Definition occur (s : System) (event : Event) : System :=
  match event with
  | UserCall call => with_world (perform call (world s)) s
  | Generate now message conversation => (processMessage now message conversation s).2
  | Opening now => (processActiveConversations now s).2
  | Tick now => (tick now s).2
  end.

Definition occurAll (events : list Event) (s : System) : System :=
  foldl occur s events.

(** The events that are no call of the user. *)
Definition automated (event : Event) : bool :=
  match event with
  | UserCall _ => false
  | _ => true
  end.

(** A call the generation driver makes, at some time. *)
Definition isDriverCall (call : Call) : Prop := ∃ now, driverCall now call.

(** [through], for the states that satisfy [I]. *)
Definition throughFrom {A} (I : System → Prop) (L : list Call → Prop) (m : M System A)
  : Prop :=
  ∀ s, I s → ∃ calls, L calls ∧ world (m s).2 = performAll calls (world s).

(** The calls of one generation step on the conversation [id]: none, or one
    message to all participants, followed by a completion only when the
    goal check is due. *)
Definition stepShape (now : Z) (id : Id) (checkDue : bool) (calls : list Call) : Prop :=
  calls = [] ∨
  ∃ sender content,
    let add := AddMessage now (mkAddMessageDTO id sender content RecipientsAll) in
    calls = [add] ∨
    (checkDue = true ∧ calls = [add; CompleteConversation now id true]).

(** The words [analyzeDescriptionForTraits] looks for. *)
Definition traitWords : list string :=
  ["formal"; "casual"; "direct"; "diplomatic"; "technical"; "friendly";
   "professional"; "expert"; "help"; "learn"; "collaborate"].

(** The conversation is due in a sweep at time [now]: enough time has
    passed since the scheduler last advanced it. *)
Definition due (now : Z) (b : BackgroundService) (id : Id) : Prop :=
  processInterval b ≤ now - default 0 (lastMessageTime b !! id).

#[global] Instance due_dec now b id : Decision (due now b id).
Proof. unfold due. apply _. Defined.

(** What the loop of the sweep relies on: the rows are keyed and the listed
    conversations are stored. *)
Definition sweepable (ids : list Id) (s : System) : Prop :=
  wellKeyed (world s) ∧ ∀ id, id ∈ ids → is_Some (conversationTable (world s) !! id).

(** The body of the loop of [processConversations]. *)
Abbreviation sweepBody now :=
  (fun conversation : Conversation =>
     let! this := get in
     let lastTime := default 0 (lastMessageTime (bg this) !! conv_id conversation) in
     let timeSinceLastMessage := now - lastTime in
     if processInterval (bg this) <=? timeSinceLastMessage then
       let! messages := onWorld (getConversationMessages (conv_id conversation)) in
       match last messages with
       | None =>
           do! processActiveConversations now in
           modify (Scheduler.set_lastMessageTime (conv_id conversation) now)
       | Some lastMessage =>
           do! processMessage now lastMessage conversation in
           modify (Scheduler.set_lastMessageTime (conv_id conversation) now)
       end
     else ret tt).

Abbreviation hasEnoughInactiveAgents :=
  (ConversationQueries.hasEnoughInactiveAgents agentStore).
Abbreviation isAgentInActiveConversation :=
  (ConversationService.isAgentInActiveConversation conversationStore).

(** The call targets the conversation [id]. *)
Definition targets (id : Id) (call : Call) : Prop :=
  match call with
  | AddMessage _ data => am_conversationId data = id
  | CompleteConversation _ id' _ => id' = id
  | _ => False
  end.

(** The body of the loop of [processActiveConversations]. *)
Abbreviation openingBody now :=
  (fun conversation : Conversation =>
     let! messages := onWorld (getConversationMessages (conv_id conversation)) in
     match last messages with
     | None =>
         match head (conv_participants conversation) with
         | None => ret tt
         | Some firstAgent =>
             let! agent := onWorld (agents_findById agentStore firstAgent) in
             match agent with
             | None => ret tt
             | Some agent =>
                 do! onWorld (addMessage now
                       {| am_conversationId := conv_id conversation;
                          am_senderId := firstAgent;
                          am_content := GenerationDriver.openingMessage agent conversation;
                          am_recipients := RecipientsAll |}) in
                 ret tt
             end
         end
     | Some lastMessage => processMessage now lastMessage conversation
     end).

(** The agent table [t'] holds every agent of [t], with the same type and
    description. *)
Definition sameProfiles (t t' : gmap Id Agent) : Prop :=
  ∀ x a, t !! x = Some a →
    ∃ a', t' !! x = Some a' ∧ agent_type a' = agent_type a ∧
          agent_description a' = agent_description a.
(** * Properties *)

(** ** Running computations *)

Lemma run_bind {S A B} (m : M S A) (k : A -> M S B) s :
  bind m k s =
  match m s with
  | (Ok a, s') => k a s'
  | (Throw e, s') => (Throw e, s')
  end.
Proof. reflexivity. Qed.

Lemma run_ret {S A} (a : A) (s : S) : ret a s = (Ok a, s).
Proof. reflexivity. Qed.

Lemma run_throw {S A} (e : Error) (s : S) : @throw S A e s = (Throw e, s).
Proof. reflexivity. Qed.

Lemma run_throw_if {S} (c : bool) (e : Error) (s : S) :
  throw_if c e s = if c then (Throw e, s) else (Ok tt, s).
Proof. by destruct c. Qed.

Lemma run_get {S} (s : S) : get s = (Ok s, s).
Proof. reflexivity. Qed.

Lemma run_modify {S} (f : S -> S) (s : S) : modify f s = (Ok tt, f s).
Proof. reflexivity. Qed.

Lemma run_try_catch {S A} (body : M S A) handler (s : S) :
  try_catch body handler s =
  match body s with
  | (Ok a, s') => (Ok a, s')
  | (Throw e, s') => handler e s'
  end.
Proof. reflexivity. Qed.

Lemma run_onWorld {A} (m : M World A) (s : System) :
  onWorld m s = ((m (world s)).1, with_world (m (world s)).2 s).
Proof. unfold onWorld, zoom. by destruct (m (world s)). Qed.

Lemma run_liftResult {S A} (r : Result A) (s : S) : liftResult r s = (r, s).
Proof. reflexivity. Qed.

Lemma run_for_of_nil {S A} (body : A -> M S unit) (s : S) :
  for_of [] body s = (Ok tt, s).
Proof. reflexivity. Qed.

Lemma run_for_of_cons {S A} (x : A) xs (body : A -> M S unit) (s : S) :
  for_of (x :: xs) body s =
  match body x s with
  | (Ok _, s') => for_of xs body s'
  | (Throw e, s') => (Throw e, s')
  end.
Proof. reflexivity. Qed.

(** The store's operations, as equations. *)
Lemma run_agents_findById id w :
  agents_findById agentStore id w = (Ok (agentTable w !! id), w).
Proof. reflexivity. Qed.

Lemma run_agents_findByName name w :
  agents_findByName agentStore name w =
  (Ok (List.find (fun a => String.eqb (agent_name a) name) (allAgents w)), w).
Proof. reflexivity. Qed.

Lemma run_agents_create now d w :
  agents_create agentStore now d w =
  let id : Id := fresh (dom (agentTable w)) in
  let a := mkAgent id (ad_name d) (ad_type d) (ad_description d) (ad_status d) now in
  (Ok a, with_agents (<[id := a]> (agentTable w)) w).
Proof. reflexivity. Qed.

Lemma run_agents_update id st w :
  agents_update agentStore id (mkAgentPatch (Some st) None) w =
  (Ok (setStatus st <$> agentTable w !! id),
   with_agents (updateAt (setStatus st) (agentTable w) id) w).
Proof.
  unfold updateAt. simpl. destruct (agentTable w !! id); [done|]. by destruct w.
Qed.

Lemma run_convs_findAll w :
  convs_findAll conversationStore w = (Ok (allConversations w), w).
Proof. reflexivity. Qed.

Lemma run_convs_findById id w :
  convs_findById conversationStore id w = (Ok (conversationTable w !! id), w).
Proof. reflexivity. Qed.

Lemma run_convs_findByName name w :
  convs_findByName conversationStore name w =
  (Ok (List.find (fun c => String.eqb (conv_name c) name) (allConversations w)), w).
Proof. reflexivity. Qed.

Lemma run_convs_create d w :
  convs_create conversationStore d w =
  let id : Id := fresh (dom (conversationTable w)) in
  let c := mkConversation id (cd_name d) (cd_topic d) (cd_goal d)
             (cd_surrounding d) (cd_status d) (cd_participants d)
             (cd_messages d) (cd_startedAt d) (cd_endedAt d)
             (cd_goalAchieved d) in
  (Ok c, with_conversations (<[id := c]> (conversationTable w)) w).
Proof. reflexivity. Qed.

Lemma run_convs_update id p w :
  convs_update conversationStore id p w =
  match conversationTable w !! id with
  | None => (Ok None, w)
  | Some c =>
      (Ok (Some (patchConversation p c)),
       with_conversations (<[id := patchConversation p c]> (conversationTable w)) w)
  end.
Proof. reflexivity. Qed.

Lemma run_convs_getMessages id w :
  convs_getMessages conversationStore id w =
  (Ok (from_option conv_messages [] (conversationTable w !! id)), w).
Proof. reflexivity. Qed.

Lemma run_convs_addMessage id d w :
  convs_addMessage conversationStore id d w =
  match conversationTable w !! id with
  | None => (Throw NotFound, w)
  | Some c =>
      let m := mkMessage (fresh (messageIds w)) (md_conversationId d)
                 (md_senderId d) (md_content d) (md_recipients d)
                 (md_timestamp d) in
      (Ok m, with_conversations (<[id := appendMessage m c]> (conversationTable w)) w)
  end.
Proof. reflexivity. Qed.

(** One step of symbolic execution. *)
Ltac run_step :=
  first
    [ rewrite run_bind | rewrite run_ret | rewrite run_throw | rewrite run_throw_if
    | rewrite run_get | rewrite run_modify | rewrite run_try_catch
    | rewrite run_liftResult | rewrite run_onWorld
    | rewrite run_agents_findById | rewrite run_agents_findByName
    | rewrite run_agents_create | rewrite run_agents_update
    | rewrite run_convs_findAll | rewrite run_convs_findById
    | rewrite run_convs_findByName | rewrite run_convs_create
    | rewrite run_convs_update | rewrite run_convs_getMessages
    | rewrite run_convs_addMessage ];
  cbv beta iota zeta.

Ltac run := repeat run_step.

Lemma find_name_taken {A} (name : A -> string) (l : list A) (n : string) :
  List.find (fun x => String.eqb (name x) n) l <> None <-> Exists (fun x => name x = n) l.
Proof.
  induction l as [|x l IH]; simpl.
  - split; [congruence|]. intros H. by apply Exists_nil in H.
  - rewrite Exists_cons. destruct (String.eqb_spec (name x) n) as [Heq|Hne].
    + split; [by left|congruence].
    + rewrite IH. tauto.
Qed.

Lemma agentNameTaken_find w name :
  bool_decide (is_Some (List.find (fun a => String.eqb (agent_name a) name) (allAgents w)))
  = bool_decide (agentNameTaken w name).
Proof.
  apply bool_decide_ext. unfold agentNameTaken.
  rewrite <- (find_name_taken agent_name), <- not_eq_None_Some. tauto.
Qed.

Lemma conversationNameTaken_find w name :
  bool_decide (List.find (fun c => String.eqb (conv_name c) name) (allConversations w) <> None)
  = bool_decide (conversationNameTaken w name).
Proof.
  apply bool_decide_ext. unfold conversationNameTaken.
  by rewrite <- (find_name_taken conv_name).
Qed.


(** ** The model on small inputs *)

Example parseResponse_speaker :
  GenerationDriver.parseResponse "Alice :  fine: let us agree  "
    [mkParticipant "7" "alice" Learning None]
  = Ok ("7", "fine: let us agree").
Proof. reflexivity. Qed.

Example parseResponse_no_colon :
  GenerationDriver.parseResponse "no colon here" [mkParticipant "7" "alice" Learning None]
  = Throw MalformedResponse.
Proof. reflexivity. Qed.

Example parseResponse_unknown_speaker :
  GenerationDriver.parseResponse "bob: hello"
    [mkParticipant "7" "alice" Learning None; mkParticipant "8" "carol" Assistant None]
  = Throw (UnknownSpeaker "bob" ["alice"; "carol"]).
Proof. reflexivity. Qed.

(** The scenario of the specification: two agents are created and reserved
    by a conversation, a message to "all" is stored with both as recipients,
    and a generation step whose goal check is answered with "Yes" completes
    the conversation and releases both agents. *)
Example scenario_goal_reached :
  let w0 := mkWorld ∅ ∅ in
  let w1 := (createAgent 1 (mkCreateAgentDTO "alice" Learning None None) w0).2 in
  let w2 := (createAgent 2 (mkCreateAgentDTO "bob" Assistant None None) w1).2 in
  let w3 := (createConversation 3
               (mkCreateConversationDTO "T" "X" "agree on X" "room" ["0"; "1"]) w2).2 in
  let sent := addMessage 4 (mkAddMessageDTO "0" "0" "hello" RecipientsAll) w3 in
  let driver := GenerationDriver.create 1 (Some "key")
                  (Some (mkOpenAI (fun k => match k with
                                            | O => Resolves (Some "bob: agreed")
                                            | _ => Resolves (Some "Yes.")
                                            end) 0)) in
  let s := mkSystem sent.2 driver (Scheduler.create 1000) in
  let s' := (processMessage 5 (mkMessage "0" "0" "0" "hello" (RecipientsOf ["0"; "1"]) 4)
               (newConversation 3 (mkCreateConversationDTO "T" "X" "agree on X" "room"
                                     ["0"; "1"]) "0") s).2 in
  agent_status <$> agentTable w3 !! "0" = Some AgentActive ∧
  agent_status <$> agentTable w3 !! "1" = Some AgentActive ∧
  match sent.1 with
  | Ok m => msg_recipients m = RecipientsOf ["0"; "1"]
  | Throw _ => False
  end ∧
  conv_status <$> conversationTable (world s') !! "0" = Some ConvCompleted ∧
  conv_goalAchieved <$> conversationTable (world s') !! "0" = Some (Some true) ∧
  (length ∘ conv_messages) <$> conversationTable (world s') !! "0" = Some 2%nat ∧
  agent_status <$> agentTable (world s') !! "0" = Some AgentInactive ∧
  agent_status <$> agentTable (world s') !! "1" = Some AgentInactive.
Proof. vm_compute. auto 10. Qed.
(** ** AgentService.createAgent *)

Lemma createAgent_eq now data w :
  createAgent now data w =
  if (String.length (ca_name data) <? 3)%nat then (Throw InvalidInput, w)
  else if bool_decide (agentNameTaken w (ca_name data)) then (Throw DuplicateName, w)
  else
    let id : Id := fresh (dom (agentTable w)) in
    let a := mkAgent id (ca_name data) (ca_type data) (ca_description data)
               (default AgentInactive (ca_status data)) now in
    (Ok a, with_agents (<[id := a]> (agentTable w)) w).
Proof.
  unfold AgentService.createAgent, AgentService.isNameTaken. run.
  assert ((ca_name data =? "")%string || (String.length (ca_name data) <? 3)%nat
          = (String.length (ca_name data) <? 3)%nat) as ->.
  { destruct (String.eqb_spec (ca_name data) "") as [->|]; done. }
  destruct (String.length (ca_name data) <? 3)%nat; [done|]. run.
  rewrite agentNameTaken_find.
  destruct (bool_decide (agentNameTaken w (ca_name data))); [done|]. by run.
Qed.

(** C8 (as stated, fails): a call that asks for the status 'active' creates
    an agent that is active, not inactive. *)
Lemma createAgent_requested_status_active :
  createAgent 7 (mkCreateAgentDTO "alice" Learning (Some AgentActive) None)
    (mkWorld ∅ ∅)
  = (Ok (mkAgent "0" "alice" Learning None AgentActive 7),
     mkWorld {[ "0" := mkAgent "0" "alice" Learning None AgentActive 7 ]} ∅).
Proof. vm_compute. reflexivity. Qed.

(** C8 (amended): [createAgent] throws InvalidInput when the name has fewer
    than 3 characters, throws DuplicateName when a name of at least 3
    characters is already stored (exact match), changes nothing in both
    cases, and an agent it creates is stored with the status the call asks
    for, 'inactive' when it asks for none. *)
Theorem createAgent_contract now data w :
  ((String.length (ca_name data) < 3)%nat →
     createAgent now data w = (Throw InvalidInput, w)) ∧
  ((3 ≤ String.length (ca_name data))%nat → agentNameTaken w (ca_name data) →
     createAgent now data w = (Throw DuplicateName, w)) ∧
  (∀ agent w', createAgent now data w = (Ok agent, w') →
     agent_status agent = default AgentInactive (ca_status data) ∧
     (ca_status data = None → agent_status agent = AgentInactive) ∧
     agent_name agent = ca_name data ∧
     agentTable w !! agent_id agent = None ∧
     agentTable w' = <[agent_id agent := agent]> (agentTable w) ∧
     conversationTable w' = conversationTable w).
Proof.
  rewrite createAgent_eq. split; [|split].
  - intros Hlen. apply Nat.ltb_lt in Hlen. by rewrite Hlen.
  - intros Hlen Htaken. apply Nat.ltb_ge in Hlen. rewrite Hlen.
    by rewrite bool_decide_eq_true_2.
  - intros agent w' Hcall.
    destruct (String.length (ca_name data) <? 3)%nat; [congruence|].
    destruct (bool_decide (agentNameTaken w (ca_name data))); [congruence|].
    injection Hcall as <- <-. simpl. repeat split.
    + by intros ->.
    + apply not_elem_of_dom, is_fresh.
Qed.

(** An instance: the name "alice" is stored, and a second agent of that name
    is refused with DuplicateName. *)
Lemma createAgent_contract_witness :
  createAgent 7 (mkCreateAgentDTO "alice" Learning None None)
    (mkWorld {[ "0" := mkAgent "0" "alice" Learning None AgentActive 7 ]} ∅)
  = (Throw DuplicateName,
     mkWorld {[ "0" := mkAgent "0" "alice" Learning None AgentActive 7 ]} ∅).
Proof.
  apply (proj1 (proj2 (createAgent_contract 7 _ _))).
  - simpl. lia.
  - vm_compute. by left.
Defined.

(** ** ConversationService: what each call computes over the store *)

Lemma updateAt_lookup {V} (f : V → V) t id x :
  updateAt f t id !! x = if decide (x = id) then f <$> t !! x else t !! x.
Proof.
  unfold updateAt. destruct (decide (x = id)) as [->|Hne].
  - destruct (t !! id) eqn:E; [by rewrite lookup_insert_eq|by rewrite E].
  - destruct (t !! id); [by rewrite lookup_insert_ne|done].
Qed.

Lemma updateAll_lookup {V} (f : V → V) ids t x :
  (∀ v, f (f v) = f v) →
  updateAll f ids t !! x = if decide (x ∈ ids) then f <$> t !! x else t !! x.
Proof.
  intros Hidem. unfold updateAll. revert t.
  induction ids as [|id ids IH]; intros t.
  - destruct (decide (x ∈ [])) as [H|]; [by apply elem_of_nil in H|done].
  - change (foldl (updateAt f) t (id :: ids))
      with (foldl (updateAt f) (updateAt f t id) ids).
    rewrite IH, updateAt_lookup.
    destruct (decide (x = id)) as [->|Hne].
    + destruct (decide (id ∈ id :: ids)) as [_|Hn]; [|by destruct Hn; left].
      destruct (decide (id ∈ ids)); [|done].
      destruct (t !! id); [|done]. simpl. by rewrite Hidem.
    + destruct (decide (x ∈ ids)) as [Hin|Hnin];
        destruct (decide (x ∈ id :: ids)) as [Hin'|Hnin']; try done.
      * destruct Hnin'. by right.
      * by apply elem_of_cons in Hin' as [?|?].
Qed.

Lemma run_reserve_check ids w :
  for_of ids (fun participantId =>
    let! agent := agents_findById agentStore participantId in
    match agent with
    | None => throw (AgentNotFound participantId)
    | Some agent =>
        throw_if (negb (bool_decide (agent_status agent = AgentInactive)))
          (AgentNotAvailable (agent_name agent))
    end) w =
  match firstUnavailable (agentTable w) ids with
  | None => (Ok tt, w)
  | Some e => (Throw e, w)
  end.
Proof.
  induction ids as [|id ids IH]; [done|].
  rewrite run_for_of_cons. run. simpl.
  destruct (agentTable w !! id) as [a|]; run; [|done].
  destruct (bool_decide (agent_status a = AgentInactive)); simpl; [|done].
  apply IH.
Qed.

Lemma run_status_loop st ids w :
  for_of ids (fun participantId =>
    do! agents_update agentStore participantId (mkAgentPatch (Some st) None) in
    ret tt) w =
  (Ok tt, with_agents (updateAll (setStatus st) ids (agentTable w)) w).
Proof.
  revert w. induction ids as [|id ids IH]; intros w.
  - by destruct w.
  - rewrite run_for_of_cons. run. rewrite IH. by destruct w.
Qed.

Lemma createConversation_eq now data w :
  createConversation now data w =
  if bool_decide (conversationNameTaken w (cc_name data))
  then (Throw DuplicateName, w)
  else if (length (cc_participantIds data) <? 2)%nat ||
          (10 <? length (cc_participantIds data))%nat
  then (Throw InvalidParticipantCount, w)
  else
    match firstUnavailable (agentTable w) (cc_participantIds data) with
    | Some e => (Throw e, w)
    | None =>
        let c := newConversation now data (fresh (dom (conversationTable w))) in
        (Ok c,
         mkWorld (updateAll (setStatus AgentActive) (cc_participantIds data) (agentTable w))
           (<[conv_id c := c]> (conversationTable w)))
    end.
Proof.
  unfold ConversationService.createConversation, ConversationService.isNameTaken.
  run. rewrite conversationNameTaken_find.
  destruct (bool_decide (conversationNameTaken w (cc_name data))); [done|]. run.
  destruct ((length (cc_participantIds data) <? 2)%nat ||
            (10 <? length (cc_participantIds data))%nat); [done|]. run.
  rewrite run_reserve_check.
  destruct (firstUnavailable (agentTable w) (cc_participantIds data)); [done|].
  run. rewrite run_status_loop. by run.
Qed.

Lemma addMessage_eq now data w :
  addMessage now data w =
  match conversationTable w !! am_conversationId data with
  | None => (Throw NotFound, w)
  | Some c =>
      if negb (statusIs ConvActive c) then (Throw InvalidState, w)
      else if negb (includes (conv_participants c) (am_senderId data))
      then (Throw NotParticipant, w)
      else if (0 <? length (invalidRecipients data c))%nat
      then (Throw (InvalidRecipients (invalidRecipients data c)), w)
      else
        let m := storedMessage now data c (fresh (messageIds w)) in
        (Ok m, with_conversations
                 (<[am_conversationId data := appendMessage m c]> (conversationTable w)) w)
  end.
Proof.
  unfold ConversationService.addMessage. run.
  destruct (conversationTable w !! am_conversationId data) as [c|] eqn:Hc; [|done].
  run. destruct (negb (statusIs ConvActive c)); [done|]. run.
  destruct (negb (includes (conv_participants c) (am_senderId data))); [done|]. run.
  unfold invalidRecipients.
  destruct (am_recipients data) as [|recipients] eqn:Hr.
  - run. rewrite Hc. unfold storedMessage. rewrite Hr. by run.
  - run. destruct (0 <? _)%nat; [done|]. run. rewrite Hc.
    unfold storedMessage. rewrite Hr. by run.
Qed.

Lemma completeConversation_eq now id g w :
  completeConversation now id g w =
  match conversationTable w !! id with
  | None => (Throw NotFound, w)
  | Some c =>
      if negb (statusIs ConvActive c) then (Throw InvalidState, w)
      else
        let c' := patchConversation
                    (mkConversationPatch (Some ConvCompleted) (Some now) (Some g)) c in
        (Ok c', releasedWorld w id c c')
  end.
Proof.
  unfold ConversationService.completeConversation. run.
  destruct (conversationTable w !! id) as [c|] eqn:Hc; [|done].
  run. destruct (negb (statusIs ConvActive c)); [done|]. run.
  rewrite run_status_loop. run. simpl. rewrite Hc. by run.
Qed.

Lemma terminateConversation_eq now id w :
  terminateConversation now id w =
  match conversationTable w !! id with
  | None => (Throw NotFound, w)
  | Some c =>
      if negb (statusIs ConvActive c) && negb (statusIs ConvPaused c)
      then (Throw InvalidState, w)
      else
        let c' := patchConversation
                    (mkConversationPatch (Some ConvTerminated) (Some now) (Some false)) c in
        (Ok c', releasedWorld w id c c')
  end.
Proof.
  unfold ConversationService.terminateConversation. run.
  destruct (conversationTable w !! id) as [c|] eqn:Hc; [|done].
  run. destruct (negb (statusIs ConvActive c) && negb (statusIs ConvPaused c)); [done|].
  run. rewrite run_status_loop. run. simpl. rewrite Hc. by run.
Qed.

Lemma pauseConversation_eq id w :
  pauseConversation id w =
  match conversationTable w !! id with
  | None => (Throw NotFound, w)
  | Some c =>
      if negb (statusIs ConvActive c) then (Throw InvalidState, w)
      else (Ok (setConvStatus ConvPaused c),
            with_conversations (<[id := setConvStatus ConvPaused c]> (conversationTable w)) w)
  end.
Proof.
  unfold ConversationService.pauseConversation. run.
  destruct (conversationTable w !! id) as [c|] eqn:Hc; [|done].
  run. destruct (negb (statusIs ConvActive c)); [done|]. run.
  rewrite Hc. by run.
Qed.

Lemma unpauseConversation_eq id w :
  unpauseConversation id w =
  match conversationTable w !! id with
  | None => (Throw NotFound, w)
  | Some c =>
      if negb (statusIs ConvPaused c) then (Throw InvalidState, w)
      else (Ok (setConvStatus ConvActive c),
            with_conversations (<[id := setConvStatus ConvActive c]> (conversationTable w)) w)
  end.
Proof.
  unfold ConversationService.unpauseConversation. run.
  destruct (conversationTable w !! id) as [c|] eqn:Hc; [|done].
  run. destruct (negb (statusIs ConvPaused c)); [done|]. run.
  rewrite Hc. by run.
Qed.

(** ** createConversation: all or nothing (C2) *)

Lemma firstUnavailable_None t ids :
  firstUnavailable t ids = None ↔
  ∀ id, id ∈ ids → ∃ a, t !! id = Some a ∧ agent_status a = AgentInactive.
Proof.
  induction ids as [|id ids IH]; simpl.
  - split; [|done]. intros _ id Hin. by apply elem_of_nil in Hin.
  - destruct (t !! id) as [a|] eqn:Ha.
    + destruct (decide (agent_status a = AgentInactive)) as [Hin|Hact].
      * rewrite bool_decide_eq_true_2 by done. rewrite IH. split.
        -- intros H x [->|Hx]%elem_of_cons; eauto.
        -- intros H x Hx. apply H. by right.
      * rewrite bool_decide_eq_false_2 by done. split; [done|].
        intros H. destruct (H id) as (a' & Ha' & Hs); [left|]. congruence.
    + split; [done|]. intros H. destruct (H id) as (a' & Ha' & _); [left|]. congruence.
Qed.

Lemma firstUnavailable_busy t ids :
  (∀ id, id ∈ ids → is_Some (t !! id)) →
  (∃ id a, id ∈ ids ∧ t !! id = Some a ∧ agent_status a ≠ AgentInactive) →
  ∃ name, firstUnavailable t ids = Some (AgentNotAvailable name).
Proof.
  induction ids as [|id ids IH]; intros Hall (x & a & Hx & Ha & Hs).
  - by apply elem_of_nil in Hx.
  - simpl. destruct (Hall id) as [b Hb]; [left|]. rewrite Hb.
    destruct (decide (agent_status b = AgentInactive)) as [Hin|Hact].
    + rewrite bool_decide_eq_true_2 by done. apply IH.
      * intros y Hy. apply Hall. by right.
      * apply elem_of_cons in Hx as [->|Hx]; [congruence|eauto].
    + rewrite bool_decide_eq_false_2 by done. eauto.
Qed.


(** A failing reservation check stops at the first listed participant that
    is missing or not inactive; the participants listed before it are stored
    and inactive. *)
Lemma firstUnavailable_Some t ids e :
  firstUnavailable t ids = Some e →
  ∃ before id rest,
    ids = (before ++ id :: rest)%list ∧
    (∀ x, x ∈ before → ∃ a, t !! x = Some a ∧ agent_status a = AgentInactive) ∧
    match t !! id with
    | None => e = AgentNotFound id
    | Some a => agent_status a ≠ AgentInactive ∧ e = AgentNotAvailable (agent_name a)
    end.
Proof.
  induction ids as [|id ids IH]; simpl; [done|].
  destruct (t !! id) as [a|] eqn:Ha.
  - destruct (decide (agent_status a = AgentInactive)) as [Hin|Hact].
    + rewrite bool_decide_eq_true_2 by done. intros He.
      destruct (IH He) as (before & x & rest & -> & Hbefore & Hx).
      exists (id :: before), x, rest. split; [done|]. split; [|done].
      intros y [->|Hy]%elem_of_cons; eauto.
    + rewrite bool_decide_eq_false_2 by done. intros [= <-].
      exists [], id, ids. split; [done|]. split.
      * intros y Hy. by apply elem_of_nil in Hy.
      * by rewrite Ha.
  - intros [= <-]. exists [], id, ids. split; [done|]. split.
    + intros y Hy. by apply elem_of_nil in Hy.
    + by rewrite Ha.
Qed.

(** The order of the reservation check: alice is active and is listed before
    an id that is not stored, so the call fails with AgentNotAvailable for
    alice; listed the other way round, it fails with AgentNotFound. *)
Lemma createConversation_first_listed_decides :
  let alice := mkAgent "0" "alice" Learning None AgentActive 1 in
  let bob := mkAgent "1" "bob" Assistant None AgentInactive 2 in
  let w := mkWorld {[ "0" := alice; "1" := bob ]} ∅ in
  createConversation 9 (mkCreateConversationDTO "T" "topic" "goal" "room" ["0"; "7"]) w
  = (Throw (AgentNotAvailable "alice"), w) ∧
  createConversation 9 (mkCreateConversationDTO "T" "topic" "goal" "room" ["7"; "0"]) w
  = (Throw (AgentNotFound "7"), w).
Proof. split; vm_compute; reflexivity. Qed.



(** ** addMessage (C3) *)

Lemma invalidRecipients_nonempty data c recipients r :
  am_recipients data = RecipientsOf recipients →
  r ∈ recipients → r ∉ conv_participants c →
  (0 <? length (invalidRecipients data c))%nat = true.
Proof.
  intros Hr Hin Hnot. unfold invalidRecipients. rewrite Hr.
  apply Nat.ltb_lt.
  assert (r ∈ List.filter (fun id => negb (includes (conv_participants c) id)) recipients)
    as Hmem.
  { apply list_elem_of_In, filter_In. split; [by apply list_elem_of_In|].
    unfold includes. by rewrite bool_decide_eq_false_2. }
  destruct (List.filter _ recipients); [by apply elem_of_nil in Hmem|simpl; lia].
Qed.

(** C3 (as stated, fails): on a paused conversation a sender that is no
    participant gets the error of the status check, not NotParticipant. *)
Lemma addMessage_status_checked_first :
  let t := mkConversation "0" "T" "topic" "goal" "room" ConvPaused ["0"; "1"] [] 4
             None (Some false) in
  let w := mkWorld ∅ {[ "0" := t ]} in
  ("7" ∉ conv_participants t) ∧
  addMessage 9 (mkAddMessageDTO "0" "7" "hello" RecipientsAll) w
  = (Throw InvalidState, w).
Proof.
  split; [|vm_compute; reflexivity].
  intros [H|[H|H]%elem_of_cons]%elem_of_cons; try discriminate.
  by apply elem_of_nil in H.
Qed.

(** C3 (amended): on a stored conversation, [addMessage] throws (InvalidState)
    whenever the status is not 'active'; on an active conversation it throws
    NotParticipant when the sender is no participant; on an active conversation
    with a participant as sender it throws InvalidRecipients when an explicit
    recipient is no participant; a throw changes nothing.  When it returns, the
    conversation has exactly one more message, the returned one, at the end of
    its history, nothing else changed, and that message's recipients are the
    full participant list when the input was "all". *)
Theorem addMessage_contract now data w c :
  conversationTable w !! am_conversationId data = Some c →
  (conv_status c ≠ ConvActive → addMessage now data w = (Throw InvalidState, w)) ∧
  (conv_status c = ConvActive → am_senderId data ∉ conv_participants c →
     addMessage now data w = (Throw NotParticipant, w)) ∧
  (conv_status c = ConvActive → am_senderId data ∈ conv_participants c →
     ∀ recipients r, am_recipients data = RecipientsOf recipients →
       r ∈ recipients → r ∉ conv_participants c →
       addMessage now data w = (Throw (InvalidRecipients (invalidRecipients data c)), w)) ∧
  (∀ m w', addMessage now data w = (Ok m, w') →
     conv_status c = ConvActive ∧
     agentTable w' = agentTable w ∧
     conversationTable w' =
       <[am_conversationId data := appendMessage m c]> (conversationTable w) ∧
     conv_messages (appendMessage m c) = (conv_messages c ++ [m])%list ∧
     msg_senderId m = am_senderId data ∧ msg_content m = am_content data ∧
     (am_recipients data = RecipientsAll →
        msg_recipients m = RecipientsOf (conv_participants c)) ∧
     (∀ recipients, am_recipients data = RecipientsOf recipients →
        msg_recipients m = RecipientsOf recipients)).
Proof.
  intros Hc. rewrite addMessage_eq, Hc. unfold statusIs, includes.
  split; [|split; [|split]].
  - intros Hs. by rewrite bool_decide_eq_false_2.
  - intros Hs Hsender. rewrite bool_decide_eq_true_2 by done.
    by rewrite bool_decide_eq_false_2.
  - intros Hs Hsender recipients r Hr Hin Hnot.
    rewrite !bool_decide_eq_true_2 by done. simpl.
    by rewrite (invalidRecipients_nonempty _ _ _ _ Hr Hin Hnot).
  - intros m w' Hcall.
    destruct (bool_decide_reflect (conv_status c = ConvActive)); [|done].
    destruct (bool_decide (am_senderId data ∈ conv_participants c)); [|done].
    simpl in Hcall. destruct (0 <? _)%nat; [done|].
    injection Hcall as <- <-. unfold storedMessage. simpl.
    repeat split; try done.
    + by intros ->.
    + by intros recipients ->.
Qed.

(** An instance: on an active conversation a foreign sender is refused with
    NotParticipant. *)
Lemma addMessage_contract_witness :
  let t := mkConversation "0" "T" "topic" "goal" "room" ConvActive ["0"; "1"] [] 4
             None (Some false) in
  let w := mkWorld ∅ {[ "0" := t ]} in
  addMessage 9 (mkAddMessageDTO "0" "7" "hello" RecipientsAll) w
  = (Throw NotParticipant, w).
Proof.
  intros t w.
  apply (proj1 (proj2 (addMessage_contract 9
           (mkAddMessageDTO "0" "7" "hello" RecipientsAll) w t eq_refl))).
  - reflexivity.
  - intros [H|[H|H]%elem_of_cons]%elem_of_cons; try discriminate.
    by apply elem_of_nil in H.
Defined.

(** ** pause and unpause (C5) *)

Lemma setConvStatus_round_trip c :
  conv_status c = ConvActive →
  setConvStatus ConvActive (setConvStatus ConvPaused c) = c.
Proof. destruct c; simpl. by intros ->. Qed.

(** C5: pausing an active conversation succeeds and stores it as 'paused'
    with the same participants and messages while no agent changes (so every
    participant that was active still is); unpausing it then succeeds and
    gives back the conversation, and the whole state, as it was. *)
Theorem pause_unpause_round_trip id w c :
  conversationTable w !! id = Some c →
  conv_status c = ConvActive →
  ∃ paused w1,
    pauseConversation id w = (Ok paused, w1) ∧
    conversationTable w1 !! id = Some paused ∧
    conv_status paused = ConvPaused ∧
    conv_participants paused = conv_participants c ∧
    conv_messages paused = conv_messages c ∧
    agentTable w1 = agentTable w ∧
    (∀ p a, p ∈ conv_participants c → agentTable w !! p = Some a →
       agent_status a = AgentActive →
       ∃ a1, agentTable w1 !! p = Some a1 ∧ agent_status a1 = AgentActive) ∧
    unpauseConversation id w1 = (Ok c, w).
Proof.
  intros Hc Hs. rewrite pauseConversation_eq, Hc. unfold statusIs.
  rewrite bool_decide_eq_true_2 by done. simpl.
  eexists _, _. split; [reflexivity|]. simpl. rewrite lookup_insert_eq.
  repeat split; [eauto|].
  rewrite unpauseConversation_eq. simpl. rewrite lookup_insert_eq. simpl.
  rewrite setConvStatus_round_trip by done.
  unfold with_conversations. simpl.
  rewrite insert_insert_eq, insert_id by done. by destruct w.
Qed.

(** An instance: a conversation of two reserved agents, paused and resumed. *)
Lemma pause_unpause_round_trip_witness :
  let alice := mkAgent "0" "alice" Learning None AgentActive 1 in
  let bob := mkAgent "1" "bob" Assistant None AgentActive 2 in
  let t := mkConversation "0" "T" "topic" "goal" "room" ConvActive ["0"; "1"] [] 4
             None (Some false) in
  let w := mkWorld {[ "0" := alice; "1" := bob ]} {[ "0" := t ]} in
  ∃ paused w1,
    pauseConversation "0" w = (Ok paused, w1) ∧ conv_status paused = ConvPaused ∧
    unpauseConversation "0" w1 = (Ok t, w).
Proof.
  intros alice bob t w.
  destruct (pause_unpause_round_trip "0" w t eq_refl eq_refl)
    as (paused & w1 & Hp & _ & Hs & _ & _ & _ & _ & Hu).
  exists paused, w1. auto.
Defined.

(** ** pauseAllConversations over the store *)

Lemma run_pause_loop cs w :
  for_of cs (fun conversation =>
    do! convs_update conversationStore (conv_id conversation)
          (mkConversationPatch (Some ConvPaused) None None) in
    ret tt) w =
  (Ok tt, with_conversations
            (updateAll (setConvStatus ConvPaused) (conv_id <$> cs) (conversationTable w)) w).
Proof.
  revert w. induction cs as [|c cs IH]; intros w.
  - by destruct w.
  - rewrite run_for_of_cons. run.
    assert (∀ w1, w1 = with_conversations
                (updateAt (setConvStatus ConvPaused) (conversationTable w) (conv_id c)) w →
            for_of cs (fun conversation =>
              do! convs_update conversationStore (conv_id conversation)
                    (mkConversationPatch (Some ConvPaused) None None) in
              ret tt) w1 =
            (Ok tt, with_conversations
               (updateAll (setConvStatus ConvPaused) (conv_id <$> c :: cs)
                  (conversationTable w)) w)) as Hrest.
    { intros w1 ->. rewrite IH. by destruct w. }
    unfold updateAt in Hrest.
    destruct (conversationTable w !! conv_id c); run; apply Hrest; [done|by destruct w].
Qed.

Lemma pauseAllConversations_eq w :
  pauseAllConversations w =
  (Ok tt, with_conversations
            (updateAll (setConvStatus ConvPaused)
               (conv_id <$> List.filter (statusIs ConvActive) (allConversations w))
               (conversationTable w)) w).
Proof.
  unfold ConversationService.pauseAllConversations. run. apply run_pause_loop.
Qed.

Lemma elem_of_allConversations w c :
  c ∈ allConversations w ↔ ∃ k, conversationTable w !! k = Some c.
Proof.
  unfold allConversations. rewrite list_elem_of_fmap. split.
  - intros ([k c'] & -> & Hin). exists k. by apply elem_of_map_to_list.
  - intros [k Hk]. exists (k, c). split; [done|]. by apply elem_of_map_to_list.
Qed.

Lemma elem_of_allAgents w a :
  a ∈ allAgents w ↔ ∃ k, agentTable w !! k = Some a.
Proof.
  unfold allAgents. rewrite list_elem_of_fmap. split.
  - intros ([k a'] & -> & Hin). exists k. by apply elem_of_map_to_list.
  - intros [k Hk]. exists (k, a). split; [done|]. by apply elem_of_map_to_list.
Qed.

Lemma active_ids w k :
  wellKeyed w →
  k ∈ conv_id <$> List.filter (statusIs ConvActive) (allConversations w) ↔
  ∃ c, conversationTable w !! k = Some c ∧ conv_status c = ConvActive.
Proof.
  intros Hkeys. rewrite list_elem_of_fmap. split.
  - intros (c & -> & Hin). apply list_elem_of_In, filter_In in Hin as [Hin Hact].
    apply list_elem_of_In, elem_of_allConversations in Hin as [k Hk].
    exists c. rewrite (Hkeys _ _ Hk). split; [done|].
    by apply bool_decide_eq_true in Hact.
  - intros (c & Hk & Hact). exists c. split; [by rewrite (Hkeys _ _ Hk)|].
    apply list_elem_of_In, filter_In. split.
    + apply list_elem_of_In, elem_of_allConversations. eauto.
    + by apply bool_decide_eq_true.
Qed.

(** The conversation table after [pauseAllConversations]. *)
Lemma pausedAll_lookup w k :
  wellKeyed w →
  updateAll (setConvStatus ConvPaused)
    (conv_id <$> List.filter (statusIs ConvActive) (allConversations w))
    (conversationTable w) !! k =
  (fun c => if statusIs ConvActive c then setConvStatus ConvPaused c else c)
    <$> conversationTable w !! k.
Proof.
  intros Hkeys. rewrite updateAll_lookup by done.
  destruct (decide (k ∈ _)) as [Hin|Hnin].
  - apply active_ids in Hin as (c & Hk & Hact); [|done]. rewrite Hk. simpl.
    unfold statusIs. by rewrite bool_decide_eq_true_2.
  - destruct (conversationTable w !! k) as [c|] eqn:Hk; [|done]. simpl.
    unfold statusIs. rewrite bool_decide_eq_false_2; [done|].
    intros Hact. apply Hnin, active_ids; eauto.
Qed.

(** ** The reservation invariant (C1) *)

Lemma live_not_terminal c : live c → terminal c → False.
Proof. intros [H|H] [H'|H']; congruence. Qed.

Lemma sameRoster_insert t id c c' :
  t !! id = Some c →
  conv_id c' = conv_id c → conv_participants c' = conv_participants c →
  (live c' ↔ live c) →
  sameRoster t (<[id := c']> t).
Proof.
  intros Hc Hid Hp Hl k. destruct (decide (k = id)) as [->|Hne].
  - by rewrite lookup_insert_eq, Hc.
  - rewrite lookup_insert_ne by done. by destruct (t !! k).
Qed.

Lemma participates_sameRoster w w' x :
  sameRoster (conversationTable w) (conversationTable w') →
  participates w x ↔ participates w' x.
Proof.
  intros Hsame. split; intros (k & c & Hk & Hl & Hx); specialize (Hsame k);
    rewrite Hk in Hsame.
  - destruct (conversationTable w' !! k) as [c'|] eqn:Hk'; [|done].
    destruct Hsame as (_ & Hp & Hlive). exists k, c'. rewrite Hp. tauto.
  - destruct (conversationTable w !! k) as [c'|] eqn:Hk'; [|done].
    destruct Hsame as (_ & Hp & Hlive). exists k, c'. rewrite <- Hp. tauto.
Qed.

Lemma consistent_sameRoster w w' :
  agentTable w' = agentTable w →
  sameRoster (conversationTable w) (conversationTable w') →
  consistent w → consistent w'.
Proof.
  intros Hagents Hsame (Hkeys & Hres & Hdis). split; [|split].
  - intros k c' Hk'. specialize (Hsame k). rewrite Hk' in Hsame.
    destruct (conversationTable w !! k) as [c|] eqn:Hk; [|done].
    destruct Hsame as (-> & _). eauto.
  - intros id a Ha. rewrite Hagents in Ha.
    rewrite <- (participates_sameRoster w w') by done. eauto.
  - intros k1 k2 c1 c2 x H1 H2 Hl1 Hl2 Hx1 Hx2.
    pose proof (Hsame k1) as S1. pose proof (Hsame k2) as S2.
    rewrite H1 in S1. rewrite H2 in S2.
    destruct (conversationTable w !! k1) as [d1|] eqn:E1; [|done].
    destruct (conversationTable w !! k2) as [d2|] eqn:E2; [|done].
    destruct S1 as (_ & P1 & L1), S2 as (_ & P2 & L2).
    apply (Hdis k1 k2 d1 d2 x); try done; try tauto; congruence.
Qed.

Lemma initial_consistent w : initial w → consistent w.
Proof.
  intros [Hempty Hinactive]. split; [|split].
  - intros k c. by rewrite Hempty, lookup_empty.
  - intros id a Ha. split.
    + intros Hactive. exfalso.
      unfold allInactive in Hinactive. rewrite forallb_forall in Hinactive.
      assert (bool_decide (agent_status a = AgentInactive) = true) as Hi.
      { apply Hinactive, list_elem_of_In, elem_of_allAgents. eauto. }
      apply bool_decide_eq_true in Hi. congruence.
    + intros (k & c & Hk & _). by rewrite Hempty, lookup_empty in Hk.
  - intros k1 k2 c1 c2 x H1. by rewrite Hempty, lookup_empty in H1.
Qed.

Lemma consistent_create now data w :
  firstUnavailable (agentTable w) (cc_participantIds data) = None →
  consistent w →
  consistent
    (mkWorld (updateAll (setStatus AgentActive) (cc_participantIds data) (agentTable w))
       (<[fresh (dom (conversationTable w)) :=
            newConversation now data (fresh (dom (conversationTable w)))]>
          (conversationTable w))).
Proof.
  intros Hfree (Hkeys & Hres & Hdis).
  pose proof (proj1 (firstUnavailable_None _ _) Hfree) as Hall.
  set (fid := fresh (dom (conversationTable w))).
  assert (conversationTable w !! fid = None) as Hfid
    by apply not_elem_of_dom, is_fresh.
  assert (∀ x k c, conversationTable w !! k = Some c → live c →
            x ∈ conv_participants c → x ∈ cc_participantIds data → False) as Hclash.
  { intros x k c Hk Hl Hx Hin. destruct (Hall x Hin) as (a & Ha & Hs).
    assert (agent_status a = AgentActive) as Hact
      by (apply (Hres x a Ha); by exists k, c).
    congruence. }
  split; [|split];
    unfold wellKeyed, reservedIffParticipating, participates, liveDisjoint; simpl.
  - intros k c. destruct (decide (k = fid)) as [->|Hne].
    + rewrite lookup_insert_eq. by intros [= <-].
    + rewrite lookup_insert_ne by done. apply Hkeys.
  - intros x a'. rewrite updateAll_lookup by done.
    destruct (decide (x ∈ cc_participantIds data)) as [Hin|Hnin].
    + destruct (Hall x Hin) as (a & Ha & Hs). rewrite Ha. intros [= <-].
      split; [|done]. intros _. exists fid, (newConversation now data fid).
      simpl. rewrite lookup_insert_eq. split; [done|]. split; [by left|done].
    + intros Ha. rewrite (Hres x a' Ha). split.
      * intros (k & c & Hk & Hl & Hx). exists k, c. simpl.
        rewrite lookup_insert_ne by congruence. done.
      * intros (k & c & Hk & Hl & Hx). simpl in Hk.
        destruct (decide (k = fid)) as [->|Hne].
        -- rewrite lookup_insert_eq in Hk. injection Hk as <-. done.
        -- rewrite lookup_insert_ne in Hk by done. by exists k, c.
  - intros k1 k2 c1 c2 x H1 H2 Hl1 Hl2 Hx1 Hx2.
    destruct (decide (k1 = fid)) as [->|Hne1]; destruct (decide (k2 = fid)) as [->|Hne2];
      try done.
    + rewrite lookup_insert_eq in H1. injection H1 as <-.
      rewrite lookup_insert_ne in H2 by done.
      destruct (Hclash x k2 c2); done.
    + rewrite lookup_insert_eq in H2. injection H2 as <-.
      rewrite lookup_insert_ne in H1 by done.
      destruct (Hclash x k1 c1); done.
    + rewrite lookup_insert_ne in H1, H2 by done. eauto.
Qed.

Lemma consistent_release w id c c' :
  conversationTable w !! id = Some c → live c → terminal c' →
  conv_id c' = conv_id c →
  consistent w → consistent (releasedWorld w id c c').
Proof.
  intros Hc Hlive Hterm Hid (Hkeys & Hres & Hdis).
  assert (∀ k d, conversationTable (releasedWorld w id c c') !! k = Some d → live d →
            k ≠ id ∧ conversationTable w !! k = Some d) as Hold.
  { intros k d Hk Hl. simpl in Hk. destruct (decide (k = id)) as [->|Hne].
    - rewrite lookup_insert_eq in Hk. injection Hk as <-.
      destruct (live_not_terminal _ Hl Hterm).
    - by rewrite lookup_insert_ne in Hk. }
  split; [|split];
    unfold wellKeyed, reservedIffParticipating, participates, liveDisjoint.
  - intros k d Hk. simpl in Hk. destruct (decide (k = id)) as [->|Hne].
    + rewrite lookup_insert_eq in Hk. injection Hk as <-. rewrite Hid. eauto.
    + rewrite lookup_insert_ne in Hk by done. eauto.
  - intros x a'. simpl. rewrite updateAll_lookup by done.
    destruct (decide (x ∈ conv_participants c)) as [Hin|Hnin].
    + destruct (agentTable w !! x) as [a|] eqn:Ha; [|done]. intros [= <-].
      split; [done|]. intros (k & d & Hk & Hl & Hx). exfalso.
      destruct (Hold k d Hk Hl) as [Hne Hk'].
      apply Hne. apply (Hdis k id d c x); done.
    + intros Ha. rewrite (Hres x a' Ha). split.
      * intros (k & d & Hk & Hl & Hx). exists k, d. simpl.
        rewrite lookup_insert_ne; [done|]. intros ->. congruence.
      * intros (k & d & Hk & Hl & Hx). destruct (Hold k d Hk Hl) as [_ Hk'].
        by exists k, d.
  - intros k1 k2 c1 c2 x H1 H2 Hl1 Hl2 Hx1 Hx2.
    destruct (Hold k1 c1 H1 Hl1) as [_ H1'].
    destruct (Hold k2 c2 H2 Hl2) as [_ H2']. eauto.
Qed.

Lemma sameRoster_pausedAll w :
  wellKeyed w →
  sameRoster (conversationTable w)
    (updateAll (setConvStatus ConvPaused)
       (conv_id <$> List.filter (statusIs ConvActive) (allConversations w))
       (conversationTable w)).
Proof.
  intros Hkeys k. rewrite pausedAll_lookup by done.
  destruct (conversationTable w !! k) as [c|]; [|done]. simpl.
  unfold statusIs. destruct (bool_decide_reflect (conv_status c = ConvActive)) as [Ha|Ha];
    [|done].
  repeat split; try done; intros _; [by left | by right].
Qed.

(** Every call of the lifecycle manager keeps the state consistent. *)
Lemma perform_consistent call w : consistent w → consistent (perform call w).
Proof.
  intros Hw. destruct call as [now data|now data|now id g|id| |id|now id]; simpl.
  - rewrite createConversation_eq.
    destruct (bool_decide _); [done|]. destruct (_ || _); [done|].
    destruct (firstUnavailable _ _) eqn:Hfree; [done|]. simpl.
    by apply consistent_create.
  - rewrite addMessage_eq.
    destruct (conversationTable w !! am_conversationId data) as [c|] eqn:Hc; [|done].
    destruct (negb _); [done|]. destruct (negb _); [done|].
    destruct (0 <? _)%nat; [done|]. simpl.
    apply (consistent_sameRoster w); [done| |done]. simpl.
    by apply (sameRoster_insert _ _ c).
  - rewrite completeConversation_eq.
    destruct (conversationTable w !! id) as [c|] eqn:Hc; [|done].
    unfold statusIs. destruct (bool_decide_reflect (conv_status c = ConvActive)); [|done].
    simpl. apply consistent_release; try done; [by left|by left].
  - rewrite pauseConversation_eq.
    destruct (conversationTable w !! id) as [c|] eqn:Hc; [|done].
    unfold statusIs. destruct (bool_decide_reflect (conv_status c = ConvActive)); [|done].
    simpl. apply (consistent_sameRoster w); [done| |done]. simpl.
    apply (sameRoster_insert _ _ c); try done. split; intros _; [by left|by right].
  - rewrite pauseAllConversations_eq. simpl.
    apply (consistent_sameRoster w); [done| |done]. simpl.
    apply sameRoster_pausedAll, Hw.
  - rewrite unpauseConversation_eq.
    destruct (conversationTable w !! id) as [c|] eqn:Hc; [|done].
    unfold statusIs. destruct (bool_decide_reflect (conv_status c = ConvPaused)); [|done].
    simpl. apply (consistent_sameRoster w); [done| |done]. simpl.
    apply (sameRoster_insert _ _ c); try done. split; intros _; [by right|by left].
  - rewrite terminateConversation_eq.
    destruct (conversationTable w !! id) as [c|] eqn:Hc; [|done].
    unfold statusIs.
    destruct (bool_decide_reflect (conv_status c = ConvActive)) as [Ha|Ha];
      destruct (bool_decide_reflect (conv_status c = ConvPaused)) as [Hp|Hp]; simpl;
      try done; apply consistent_release; try done;
      solve [by left | by right].
Qed.

Lemma performAll_consistent calls w : consistent w → consistent (performAll calls w).
Proof.
  unfold performAll. revert w. induction calls as [|call calls IH]; intros w Hw; [done|].
  simpl. by apply IH, perform_consistent.
Qed.

(** C1: in every state reached from a fresh system (no conversation, every
    agent inactive) by any sequence of calls of the lifecycle manager, among
    them createConversation, completeConversation and terminateConversation,
    whether they return or throw, a stored agent is 'active' if and only if
    it is a participant of a stored conversation that is 'active' or
    'paused'. *)
Theorem active_iff_participating calls w :
  initial w →
  ∀ id a, agentTable (performAll calls w) !! id = Some a →
    (agent_status a = AgentActive ↔
     ∃ cid c, conversationTable (performAll calls w) !! cid = Some c ∧
              (conv_status c = ConvActive ∨ conv_status c = ConvPaused) ∧
              id ∈ conv_participants c).
Proof.
  intros Hinit. apply (performAll_consistent calls w (initial_consistent w Hinit)).
Qed.

(** An instance: a conversation of alice and bob is created and completed,
    a second one is created, and a terminate call on the completed one
    throws; alice is active and takes part in the second conversation. *)
Lemma active_iff_participating_witness :
  let alice := mkAgent "0" "alice" Learning None AgentInactive 1 in
  let bob := mkAgent "1" "bob" Assistant None AgentInactive 2 in
  let w := mkWorld {[ "0" := alice; "1" := bob ]} ∅ in
  let calls :=
    [CreateConversation 5 (mkCreateConversationDTO "T" "topic" "goal" "room" ["0"; "1"]);
     CompleteConversation 6 "0" true;
     CreateConversation 7 (mkCreateConversationDTO "U" "topic" "goal" "room" ["0"; "1"]);
     TerminateConversation 8 "0"] in
  agent_status (setStatus AgentActive alice) = AgentActive ↔
  ∃ cid c, conversationTable (performAll calls w) !! cid = Some c ∧
           (conv_status c = ConvActive ∨ conv_status c = ConvPaused) ∧
           "0" ∈ conv_participants c.
Proof.
  intros alice bob w calls.
  apply (active_iff_participating calls w).
  - split; reflexivity.
  - vm_compute. reflexivity.
Defined.

(** ** Terminal states are final (C4) *)

Lemma wellKeyed_insert w k c t :
  wellKeyed w → conv_id c = k →
  wellKeyed (mkWorld t (<[k := c]> (conversationTable w))).
Proof.
  intros Hkeys Hid k' c'. simpl. destruct (decide (k' = k)) as [->|Hne].
  - rewrite lookup_insert_eq. by intros [= <-].
  - rewrite lookup_insert_ne by done. apply Hkeys.
Qed.

Lemma perform_wellKeyed call w : wellKeyed w → wellKeyed (perform call w).
Proof.
  intros Hw. destruct call as [now data|now data|now id g|id| |id|now id]; simpl.
  - rewrite createConversation_eq.
    destruct (bool_decide _); [done|]. destruct (_ || _); [done|].
    destruct (firstUnavailable _ _); [done|]. simpl. by apply wellKeyed_insert.
  - rewrite addMessage_eq.
    destruct (conversationTable w !! am_conversationId data) as [c|] eqn:Hc; [|done].
    destruct (negb _); [done|]. destruct (negb _); [done|].
    destruct (0 <? _)%nat; [done|]. simpl. apply wellKeyed_insert; [done|].
    simpl. eauto.
  - rewrite completeConversation_eq.
    destruct (conversationTable w !! id) as [c|] eqn:Hc; [|done].
    destruct (negb _); [done|]. simpl. apply wellKeyed_insert; [done|]. simpl. eauto.
  - rewrite pauseConversation_eq.
    destruct (conversationTable w !! id) as [c|] eqn:Hc; [|done].
    destruct (negb _); [done|]. simpl. apply wellKeyed_insert; [done|]. simpl. eauto.
  - rewrite pauseAllConversations_eq. simpl. intros k c'. simpl.
    rewrite pausedAll_lookup by done.
    destruct (conversationTable w !! k) as [c|] eqn:Hc; [|done]. simpl.
    intros [= <-]. destruct (statusIs _ _); simpl; eauto.
  - rewrite unpauseConversation_eq.
    destruct (conversationTable w !! id) as [c|] eqn:Hc; [|done].
    destruct (negb _); [done|]. simpl. apply wellKeyed_insert; [done|]. simpl. eauto.
  - rewrite terminateConversation_eq.
    destruct (conversationTable w !! id) as [c|] eqn:Hc; [|done].
    destruct (_ && _); [done|]. simpl. apply wellKeyed_insert; [done|]. simpl. eauto.
Qed.

Lemma terminal_status c :
  terminal c → statusIs ConvActive c = false ∧ statusIs ConvPaused c = false.
Proof.
  unfold statusIs. intros [H|H]; rewrite !bool_decide_eq_false_2 by congruence; done.
Qed.

(** No call changes a conversation that is completed or terminated. *)
Lemma perform_terminal call w id c :
  wellKeyed w → conversationTable w !! id = Some c → terminal c →
  conversationTable (perform call w) !! id = Some c.
Proof.
  intros Hkeys Hc Hterm. destruct (terminal_status c Hterm) as [Hna Hnp].
  destruct call as [now data|now data|now id' g|id'| |id'|now id']; simpl.
  - rewrite createConversation_eq.
    destruct (bool_decide _); [done|]. destruct (_ || _); [done|].
    destruct (firstUnavailable _ _); [done|]. simpl.
    rewrite lookup_insert_ne; [done|]. intros Heq.
    assert (conversationTable w !! fresh (dom (conversationTable w)) = None) as Hf
      by apply not_elem_of_dom, is_fresh.
    congruence.
  - rewrite addMessage_eq.
    destruct (conversationTable w !! am_conversationId data) as [c'|] eqn:Hc'; [|done].
    destruct (decide (am_conversationId data = id)) as [Heq|Hne].
    + rewrite Heq, Hc in Hc'. injection Hc' as <-. by rewrite Hna.
    + destruct (negb _); [done|]. destruct (negb _); [done|].
      destruct (0 <? _)%nat; [done|]. simpl. by rewrite lookup_insert_ne.
  - rewrite completeConversation_eq.
    destruct (conversationTable w !! id') as [c'|] eqn:Hc'; [|done].
    destruct (decide (id' = id)) as [->|Hne].
    + rewrite Hc in Hc'. injection Hc' as <-. by rewrite Hna.
    + destruct (negb _); [done|]. simpl. by rewrite lookup_insert_ne.
  - rewrite pauseConversation_eq.
    destruct (conversationTable w !! id') as [c'|] eqn:Hc'; [|done].
    destruct (decide (id' = id)) as [->|Hne].
    + rewrite Hc in Hc'. injection Hc' as <-. by rewrite Hna.
    + destruct (negb _); [done|]. simpl. by rewrite lookup_insert_ne.
  - rewrite pauseAllConversations_eq. simpl.
    rewrite pausedAll_lookup by done. rewrite Hc. simpl. by rewrite Hna.
  - rewrite unpauseConversation_eq.
    destruct (conversationTable w !! id') as [c'|] eqn:Hc'; [|done].
    destruct (decide (id' = id)) as [->|Hne].
    + rewrite Hc in Hc'. injection Hc' as <-. by rewrite Hnp.
    + destruct (negb _); [done|]. simpl. by rewrite lookup_insert_ne.
  - rewrite terminateConversation_eq.
    destruct (conversationTable w !! id') as [c'|] eqn:Hc'; [|done].
    destruct (decide (id' = id)) as [->|Hne].
    + rewrite Hc in Hc'. injection Hc' as <-. by rewrite Hna, Hnp.
    + destruct (_ && _); [done|]. simpl. by rewrite lookup_insert_ne.
Qed.

Lemma performAll_terminal calls w id c :
  wellKeyed w → conversationTable w !! id = Some c → terminal c →
  conversationTable (performAll calls w) !! id = Some c.
Proof.
  unfold performAll. revert w.
  induction calls as [|call calls IH]; intros w Hkeys Hc Hterm; [done|].
  simpl. apply IH; [by apply perform_wellKeyed|by apply perform_terminal|done].
Qed.

(** C4: on a conversation that is 'completed' or 'terminated', a further
    completeConversation or terminateConversation throws InvalidState and
    leaves the whole state, hence the conversation and every agent's status,
    as it was (the participants were released once, by the call that ended
    the conversation, and are not touched again); and no sequence of calls of
    the lifecycle manager changes that conversation again, in a table whose
    rows are stored under their id. *)
Theorem terminal_is_final w id c :
  conversationTable w !! id = Some c →
  conv_status c = ConvCompleted ∨ conv_status c = ConvTerminated →
  (∀ now goalAchieved,
     completeConversation now id goalAchieved w = (Throw InvalidState, w)) ∧
  (∀ now, terminateConversation now id w = (Throw InvalidState, w)) ∧
  (wellKeyed w →
   ∀ calls, conversationTable (performAll calls w) !! id = Some c).
Proof.
  intros Hc Hterm. destruct (terminal_status c Hterm) as [Hna Hnp].
  split; [|split].
  - intros now g. by rewrite completeConversation_eq, Hc, Hna.
  - intros now. by rewrite terminateConversation_eq, Hc, Hna, Hnp.
  - intros Hkeys calls. by apply performAll_terminal.
Qed.

(** An instance: a completed conversation rejects both calls and survives a
    sequence of further calls. *)
Lemma terminal_is_final_witness :
  let alice := mkAgent "0" "alice" Learning None AgentInactive 1 in
  let bob := mkAgent "1" "bob" Assistant None AgentInactive 2 in
  let t := mkConversation "0" "T" "topic" "goal" "room" ConvCompleted ["0"; "1"] [] 4
             (Some 8) (Some true) in
  let w := mkWorld {[ "0" := alice; "1" := bob ]} {[ "0" := t ]} in
  completeConversation 9 "0" true w = (Throw InvalidState, w) ∧
  terminateConversation 9 "0" w = (Throw InvalidState, w) ∧
  conversationTable
    (performAll [TerminateConversation 9 "0"; UnpauseConversation "0";
                 PauseAllConversations] w) !! "0" = Some t.
Proof.
  intros alice bob t w.
  destruct (terminal_is_final w "0" t eq_refl (or_introl eq_refl))
    as (Hcomplete & Hterminate & Hcalls).
  split; [apply Hcomplete|]. split; [apply Hterminate|]. apply Hcalls.
  intros k c Hk. subst w. simpl in Hk.
  apply lookup_singleton_Some in Hk as [<- <-]. reflexivity.
Defined.

(** ** pauseAllConversations: what a failure does (C9) *)

(** C9 (as stated, fails): two active conversations are listed, "1" before
    "0"; the update of "1" is rejected, the sweep ends with that error, and
    "0" is left active: it was not attempted, although its own update would
    have succeeded. *)
Lemma pauseAll_stops_at_first_failure :
  let a := mkConversation "0" "A" "topic" "goal" "room" ConvActive ["0"; "1"] [] 5
             None (Some false) in
  let b := mkConversation "1" "B" "topic" "goal" "room" ConvActive ["2"; "3"] [] 5
             None (Some false) in
  let w := mkWorld ∅ {[ "0" := a; "1" := b ]} in
  conv_id <$> allConversations w = ["1"; "0"] ∧
  ConversationService.pauseAllConversations (failingUpdateStore "1") w
  = (Throw StoreFailure, w) ∧
  (convs_update (failingUpdateStore "1") "0"
     (mkConversationPatch (Some ConvPaused) None None) w).1
  = Ok (Some (setConvStatus ConvPaused a)).
Proof. vm_compute. auto. Qed.

(** C9 (amended): [pauseAllConversations] lists the conversations, keeps
    the active ones and updates them to 'paused' one after the other, in
    listing order.  It ignores what an update returns (also [null]) and goes
    on with the next conversation; an update that throws ends the sweep with
    that error, and the conversations listed after it are not attempted.
    Over the store, whose updates never throw, the call returns, every
    conversation that was active is paused, and nothing else changes. *)
Theorem pauseAllConversations_contract w :
  (∀ (r : IConversationRepository) cs c rest,
     convs_findAll r w = (Ok cs, w) →
     List.filter (statusIs ConvActive) cs = c :: rest →
     (∀ e w1,
        convs_update r (conv_id c) (mkConversationPatch (Some ConvPaused) None None) w
        = (Throw e, w1) →
        ConversationService.pauseAllConversations r w = (Throw e, w1)) ∧
     (∀ updated w1,
        convs_update r (conv_id c) (mkConversationPatch (Some ConvPaused) None None) w
        = (Ok updated, w1) →
        ConversationService.pauseAllConversations r w =
        for_of rest (fun conversation =>
          do! convs_update r (conv_id conversation)
                (mkConversationPatch (Some ConvPaused) None None) in
          ret tt) w1)) ∧
  (wellKeyed w →
   ∃ w', pauseAllConversations w = (Ok tt, w') ∧
         agentTable w' = agentTable w ∧
         ∀ k, conversationTable w' !! k =
              (fun c => if statusIs ConvActive c then setConvStatus ConvPaused c else c)
                <$> conversationTable w !! k).
Proof.
  split.
  - intros r cs c rest Hlist Hactive. split.
    + intros e w1 Hupdate. unfold ConversationService.pauseAllConversations.
      rewrite run_bind, Hlist. cbv beta iota zeta. rewrite Hactive.
      rewrite run_for_of_cons, run_bind, Hupdate. reflexivity.
    + intros updated w1 Hupdate. unfold ConversationService.pauseAllConversations.
      rewrite run_bind, Hlist. cbv beta iota zeta. rewrite Hactive.
      rewrite run_for_of_cons, run_bind, Hupdate. reflexivity.
  - intros Hkeys. rewrite pauseAllConversations_eq. eexists. split; [reflexivity|].
    split; [done|]. intros k. simpl. by apply pausedAll_lookup.
Qed.

(** An instance: the active conversation is paused, the terminated one is
    left alone. *)
Lemma pauseAllConversations_contract_witness :
  let a := mkConversation "0" "A" "topic" "goal" "room" ConvActive ["0"; "1"] [] 5
             None (Some false) in
  let b := mkConversation "1" "B" "topic" "goal" "room" ConvTerminated ["2"; "3"] [] 5
             (Some 7) (Some false) in
  let w := mkWorld ∅ {[ "0" := a; "1" := b ]} in
  ∃ w', pauseAllConversations w = (Ok tt, w') ∧
        conversationTable w' !! "0" = Some (setConvStatus ConvPaused a) ∧
        conversationTable w' !! "1" = Some b.
Proof.
  intros a b w.
  assert (wellKeyed w) as Hkeys.
  { intros k c Hk. subst w. simpl in Hk.
    apply lookup_insert_Some in Hk as [[<- <-]|[_ Hk]]; [reflexivity|].
    apply lookup_singleton_Some in Hk as [<- <-]. reflexivity. }
  destruct (proj2 (pauseAllConversations_contract w) Hkeys) as (w' & Hcall & _ & Htable).
  exists w'. split; [exact Hcall|]. split; rewrite Htable; reflexivity.
Defined.

(** ** The scheduler (C6) *)

(** A tick that fires while a sweep is running does nothing. *)
Lemma tick_skips_running_sweep now s :
  isProcessing (bg s) = true → tick now s = (Ok tt, s).
Proof. intros H. unfold Scheduler.tick. run. rewrite H. by run. Qed.

(** Stopping a running scheduler clears the timer and the last-advance map. *)
Lemma stop_clears s :
  is_Some (intervalId (bg s)) →
  intervalId (bg (Scheduler.stop s)) = None ∧
  lastMessageTime (bg (Scheduler.stop s)) = ∅.
Proof. intros [h H]. unfold Scheduler.stop. by rewrite H. Qed.

(** C6 (the code at the failing input): conversation "0" has no message yet
    and conversation "1" has one.  First sweep: "1" was advanced 10 ms ago,
    less than the interval of 1000 ms, and still receives a new message,
    because the sweep answers the empty conversation "0" with
    [processActiveConversations], which steps every active conversation; its
    last-advance time is not even updated.  Second sweep: with no advance
    recorded, "1" receives two messages in one sweep. *)
Theorem sweep_steps_every_active_conversation :
  let alice := mkAgent "0" "alice" Learning None AgentActive 1 in
  let bob := mkAgent "1" "bob" Assistant None AgentActive 2 in
  let carol := mkAgent "2" "carol" Specialist None AgentActive 3 in
  let dave := mkAgent "3" "dave" Learning None AgentActive 4 in
  let hello := mkMessage "0" "1" "2" "hello" (RecipientsOf ["2"; "3"]) 6 in
  let a := mkConversation "0" "A" "topic" "goal" "room" ConvActive ["0"; "1"] [] 5
             None (Some false) in
  let b := mkConversation "1" "B" "topic" "goal" "room" ConvActive ["2"; "3"] [hello] 5
             None (Some false) in
  let w := mkWorld {[ "0" := alice; "1" := bob; "2" := carol; "3" := dave ]}
             {[ "0" := a; "1" := b ]} in
  let driver := GenerationDriver.create 50 (Some "key")
                  (Some (mkOpenAI (fun _ => Resolves (Some "dave: I agree")) 0)) in
  let waited := mkSystem w driver (mkBackgroundService (Some 1000) false 1000 {[ "1" := 9990 ]}) in
  let unseen := mkSystem w driver (mkBackgroundService (Some 1000) false 1000 ∅) in
  let messagesOf (s : System) (id : Id) :=
    from_option conv_messages [] (conversationTable (world s) !! id) in
  (10000 - 9990 < processInterval (bg waited)) ∧
  messagesOf (tick 10000 waited).2 "1" =
    [hello; mkMessage "1" "1" "3" "I agree" (RecipientsOf ["2"; "3"]) 10000] ∧
  lastMessageTime (bg (tick 10000 waited).2) !! "1" = Some 9990 ∧
  length (messagesOf unseen "1") = 1%nat ∧
  length (messagesOf (tick 10000 unseen).2 "1") = 3%nat.
Proof. vm_compute. auto. Qed.

(** ** Frames *)

Section Keeps.
Context {S T : Type} (f : S → T).

Lemma keeps_ret {A} (a : A) : keeps f (ret a).
Proof. by intros s. Qed.

Lemma keeps_throw {A} e : keeps f (@throw S A e).
Proof. by intros s. Qed.

Lemma keeps_throw_if c e : keeps f (throw_if c e).
Proof. intros s. by destruct c. Qed.

Lemma keeps_get : keeps f get.
Proof. by intros s. Qed.

Lemma keeps_liftResult {A} (r : Result A) : keeps f (liftResult r).
Proof. by intros s. Qed.

Lemma keeps_modify g : (∀ s, f (g s) = f s) → keeps f (modify g).
Proof. intros H s. apply H. Qed.

Lemma keeps_bind {A B} (m : M S A) (k : A → M S B) :
  keeps f m → (∀ a, keeps f (k a)) → keeps f (bind m k).
Proof.
  intros Hm Hk s. rewrite run_bind. specialize (Hm s).
  destruct (m s) as [[a|e] s']; simpl in *; [|done]. by rewrite Hk.
Qed.

Lemma keeps_try_catch {A} (body : M S A) handler :
  keeps f body → (∀ e, keeps f (handler e)) → keeps f (try_catch body handler).
Proof.
  intros Hm Hk s. rewrite run_try_catch. specialize (Hm s).
  destruct (body s) as [[a|e] s']; simpl in *; [done|]. by rewrite Hk.
Qed.

Lemma keeps_for_of {A} (xs : list A) body :
  (∀ x, keeps f (body x)) → keeps f (for_of xs body).
Proof.
  intros Hbody. induction xs as [|x xs IH]; [by intros s|].
  simpl. apply keeps_bind; [apply Hbody|done].
Qed.

Lemma keeps_map_async {A B} (xs : list A) (g : A → M S B) :
  (∀ x, keeps f (g x)) → keeps f (map_async xs g).
Proof.
  intros Hg. induction xs as [|x xs IH]; [by intros s|].
  simpl. apply keeps_bind; [apply Hg|]. intros y.
  apply keeps_bind; [done|]. intros ys. apply keeps_ret.
Qed.
End Keeps.

(** A call on the tables keeps what does not read them. *)
Lemma keeps_onWorld_other {T A} (f : System → T) (m : M World A) :
  (∀ w s, f (with_world w s) = f s) → keeps f (onWorld m).
Proof. intros H s. rewrite run_onWorld. apply H. Qed.

(** A call that keeps the tables keeps them when made from a service. *)
Lemma keeps_onWorld_world {A} (m : M World A) :
  keeps id m → keeps world (onWorld m).
Proof. intros H s. rewrite run_onWorld. simpl. apply H. Qed.

Lemma keeps_chat {T} (f : System → T) :
  (∀ c s, f (with_ai (set_openai c (ai s)) s) = f s) →
  keeps f GenerationDriver.chatCompletionsCreate.
Proof.
  intros H s. unfold GenerationDriver.chatCompletionsCreate.
  destruct (openai (ai s)) as [c|]; [|done].
  destruct (script c (served c)); simpl; apply H.
Qed.

Ltac keeps_step :=
  lazymatch goal with
  | |- keeps _ (bind _ _) => apply keeps_bind; [|intros ?]
  | |- keeps _ (ret _) => apply keeps_ret
  | |- keeps _ (throw _) => apply keeps_throw
  | |- keeps _ (throw_if _ _) => apply keeps_throw_if
  | |- keeps _ get => apply keeps_get
  | |- keeps _ (liftResult _) => apply keeps_liftResult
  | |- keeps _ (try_catch _ _) => apply keeps_try_catch; [|intros ?]
  | |- keeps _ (for_of _ _) => apply keeps_for_of; intros ?
  | |- keeps _ (map_async _ _) => apply keeps_map_async; intros ?
  | |- keeps _ (modify _) => apply keeps_modify; intros ?; reflexivity
  | |- keeps _ GenerationDriver.chatCompletionsCreate =>
      apply keeps_chat; intros ? ?; reflexivity
  | |- keeps world (onWorld _) => apply keeps_onWorld_world
  | |- keeps _ (onWorld _) => apply keeps_onWorld_other; intros ? ?; reflexivity
  | |- keeps _ (match ?x with _ => _ end) => destruct x
  end.

Ltac keeps_auto := repeat keeps_step.

(** *** The reads of the store keep the tables *)

Lemma keeps_getConversationMessages cid : keeps id (getConversationMessages cid).
Proof.
  intros w. unfold ConversationService.getConversationMessages. run.
  destruct (conversationTable w !! cid); by run.
Qed.

Lemma keeps_convs_findById cid :
  keeps id (ConversationService.findById conversationStore cid).
Proof. by intros w. Qed.

Lemma keeps_agents_findById aid : keeps id (agents_findById agentStore aid).
Proof. by intros w. Qed.

(** *** The parts of the driver *)

Lemma keeps_formatTurn {T} (f : System → T) context m :
  keeps f (GenerationDriver.formatTurn context m).
Proof. unfold GenerationDriver.formatTurn. keeps_auto. Qed.

Lemma keeps_formatLine {T} (f : System → T) context m :
  keeps f (GenerationDriver.formatLine context m).
Proof. unfold GenerationDriver.formatLine. keeps_auto. Qed.

Lemma keeps_generateSystemPrompt {T} (f : System → T) cid :
  keeps f (GenerationDriver.generateSystemPrompt cid).
Proof. unfold GenerationDriver.generateSystemPrompt. keeps_auto. Qed.

Lemma initializeConversation_world conversation :
  keeps world (initializeConversation conversation).
Proof.
  unfold GenerationDriver.initializeConversation. keeps_auto.
  apply keeps_agents_findById.
Qed.

Lemma initializeConversation_client conversation :
  keeps clientOf (initializeConversation conversation).
Proof. unfold GenerationDriver.initializeConversation. keeps_auto. Qed.

Lemma initializeConversation_settings conversation :
  keeps driverSettings (initializeConversation conversation).
Proof. unfold GenerationDriver.initializeConversation. keeps_auto. Qed.

Lemma initializeConversation_errors conversation :
  keeps errorsOf (initializeConversation conversation).
Proof. unfold GenerationDriver.initializeConversation. keeps_auto. Qed.

Lemma checkGoalAchievement_world cid : keeps world (checkGoalAchievement cid).
Proof.
  unfold GenerationDriver.checkGoalAchievement. keeps_auto;
    first [apply keeps_convs_findById | apply keeps_getConversationMessages
          | apply keeps_formatLine].
Qed.

Lemma checkGoalAchievement_contexts cid : keeps contextsOf (checkGoalAchievement cid).
Proof.
  unfold GenerationDriver.checkGoalAchievement. keeps_auto; apply keeps_formatLine.
Qed.

Lemma checkGoalAchievement_settings cid : keeps driverSettings (checkGoalAchievement cid).
Proof.
  unfold GenerationDriver.checkGoalAchievement. keeps_auto; apply keeps_formatLine.
Qed.

Lemma checkGoalAchievement_errors cid : keeps errorsOf (checkGoalAchievement cid).
Proof.
  unfold GenerationDriver.checkGoalAchievement. keeps_auto; apply keeps_formatLine.
Qed.

Lemma resetErrorCount_contexts : keeps contextsOf GenerationDriver.resetErrorCount.
Proof. unfold GenerationDriver.resetErrorCount. keeps_auto. Qed.

Lemma resetErrorCount_settings : keeps driverSettings GenerationDriver.resetErrorCount.
Proof. unfold GenerationDriver.resetErrorCount. keeps_auto. Qed.

Lemma processMessage_generate_contexts now conversation context :
  keeps contextsOf (processMessage_generate now conversation context).
Proof.
  unfold GenerationDriver.processMessage_generate. keeps_auto;
    first [ apply keeps_formatTurn | apply keeps_generateSystemPrompt
          | apply checkGoalAchievement_contexts | apply resetErrorCount_contexts ].
Qed.

Lemma processMessage_generate_settings now conversation context :
  keeps driverSettings (processMessage_generate now conversation context).
Proof.
  unfold GenerationDriver.processMessage_generate. keeps_auto;
    first [ apply keeps_formatTurn | apply keeps_generateSystemPrompt
          | apply checkGoalAchievement_settings | apply resetErrorCount_settings ].
Qed.

Lemma processMessage_try_settings now message conversation :
  keeps driverSettings (processMessage_try now message conversation).
Proof.
  unfold GenerationDriver.processMessage_try. keeps_auto;
    first [ apply initializeConversation_settings
          | apply processMessage_generate_settings ].
Qed.

(** *** The error counter *)

Lemma resets_throw {A} e : resets (@throw System A e).
Proof. by intros s. Qed.

Lemma resets_bind {A B} (m : M System A) (k : A → M System B) :
  keeps errorsOf m → (∀ a, resets (k a)) → resets (bind m k).
Proof.
  intros Hm Hk s. rewrite run_bind. specialize (Hm s). unfold errorsOf in Hm.
  destruct (m s) as [[a|e] s'] eqn:E; simpl in *; [|done].
  specialize (Hk a s'). destruct (k a s') as [[b|e] s'']; simpl in *; congruence.
Qed.

Lemma resets_resetErrorCount : resets GenerationDriver.resetErrorCount.
Proof. by intros s. Qed.

Lemma processMessage_generate_resets now conversation context :
  resets (processMessage_generate now conversation context).
Proof.
  unfold GenerationDriver.processMessage_generate.
  apply resets_bind; [keeps_auto; apply keeps_getConversationMessages|intros messages].
  apply resets_bind; [keeps_auto; apply keeps_formatTurn|intros formatted].
  apply resets_bind; [apply keeps_generateSystemPrompt|intros _].
  apply resets_bind; [keeps_auto|intros content].
  destruct content as [[|a text]|]; try apply resets_throw.
  apply resets_bind; [keeps_auto|intros parsed].
  apply resets_bind; [keeps_auto|intros _].
  apply resets_bind; [keeps_auto|intros this].
  apply resets_bind; [|intros _; apply resets_resetErrorCount].
  keeps_auto. apply checkGoalAchievement_errors.
Qed.

Lemma processMessage_try_resets now message conversation :
  resets (processMessage_try now message conversation).
Proof.
  unfold GenerationDriver.processMessage_try.
  apply resets_bind; [keeps_auto|intros this].
  apply resets_bind; [keeps_auto; apply initializeConversation_errors|intros context].
  apply resets_bind; [keeps_auto|intros _].
  apply processMessage_generate_resets.
Qed.

(** *** The error handler *)

Lemma handleApiError_eq e s :
  GenerationDriver.handleApiError e s =
  (Ok tt,
   let counted := with_ai (set_consecutiveErrors (errorsOf s + 1) (ai s)) s in
   if maxConsecutiveErrors (ai s) <=? errorsOf s + 1
   then with_ai (set_disabled tooManyErrors (ai counted)) counted
   else counted).
Proof.
  unfold GenerationDriver.handleApiError, GenerationDriver.disableService. run.
  simpl. unfold errorsOf. by destruct (_ <=? _); run.
Qed.

Lemma handleApiError_world e : keeps world (GenerationDriver.handleApiError e).
Proof. intros s. rewrite handleApiError_eq. simpl. by destruct (_ <=? _). Qed.

Lemma handleApiError_contexts e : keeps contextsOf (GenerationDriver.handleApiError e).
Proof. intros s. rewrite handleApiError_eq. simpl. by destruct (_ <=? _). Qed.

(** *** processMessage, by the outcome of its [try] block *)

Lemma ready_guard s :
  ready s →
  negb (isEnabled (ai s)) || negb (bool_decide (is_Some (openai (ai s)))) = false.
Proof. intros [-> Hc]. by rewrite bool_decide_eq_true_2. Qed.

Lemma not_ready_guard s :
  ¬ ready s →
  negb (isEnabled (ai s)) || negb (bool_decide (is_Some (openai (ai s)))) = true.
Proof.
  intros Hn. destruct (isEnabled (ai s)) eqn:He; [|done]. simpl.
  rewrite bool_decide_eq_false_2; [done|]. intros Hc. by apply Hn.
Qed.

Lemma processMessage_not_ready now message conversation s :
  ¬ ready s → processMessage now message conversation s = (Ok tt, s).
Proof.
  intros Hn. unfold GenerationDriver.processMessage. run.
  by rewrite not_ready_guard.
Qed.

Lemma processMessage_ready now message conversation s :
  ready s →
  processMessage now message conversation s =
  match processMessage_try now message conversation s with
  | (Ok a, s1) => (Ok a, s1)
  | (Throw e, s1) => GenerationDriver.handleApiError e s1
  end.
Proof.
  intros Hr. unfold GenerationDriver.processMessage. run.
  rewrite ready_guard by done. by run.
Qed.

(** *** What a step writes *)

Lemma run_chat s c :
  clientOf s = Some c →
  GenerationDriver.chatCompletionsCreate s =
  (match script c (served c) with
   | Rejects => Throw ProviderError
   | Resolves content => Ok content
   end,
   with_ai (set_openai (Some (mkOpenAI (script c) (S (served c)))) (ai s)) s).
Proof.
  unfold clientOf, GenerationDriver.chatCompletionsCreate. intros ->.
  by destruct (script c (served c)).
Qed.

(** Either the generation throws with the tables as they were, or the
    provider answered with a text that parses against the roster. *)
Lemma processMessage_generate_world now conversation context s c :
  clientOf s = Some c →
  (world (processMessage_generate now conversation context s).2 = world s ∧
   ∃ e, (processMessage_generate now conversation context s).1 = Throw e) ∨
  (∃ text p, script c (served c) = Resolves (Some text) ∧ text ≠ "" ∧
             GenerationDriver.parseResponse text (ctx_participants context) = Ok p).
Proof.
  intros Hc. unfold GenerationDriver.processMessage_generate.
  rewrite run_bind.
  pose proof (keeps_onWorld_world _
    (keeps_getConversationMessages (conv_id conversation)) s) as Hw1.
  assert (keeps clientOf (onWorld (getConversationMessages (conv_id conversation))))
    as Hc1 by keeps_auto.
  specialize (Hc1 s).
  destruct (onWorld (getConversationMessages (conv_id conversation)) s)
    as [[messages|e] s1]; simpl in Hw1, Hc1; [|left; simpl; eauto].
  rewrite run_bind.
  pose proof (keeps_map_async world (lastN 5 messages) _
    (keeps_formatTurn world context) s1) as Hw2.
  pose proof (keeps_map_async clientOf (lastN 5 messages) _
    (keeps_formatTurn clientOf context) s1) as Hc2.
  destruct (map_async (lastN 5 messages) (GenerationDriver.formatTurn context) s1)
    as [[formatted|e] s2]; simpl in Hw2, Hc2; [|left; split; [simpl; congruence|simpl; eauto]].
  rewrite run_bind.
  pose proof (keeps_generateSystemPrompt world (conv_id conversation) s2) as Hw3.
  pose proof (keeps_generateSystemPrompt clientOf (conv_id conversation) s2) as Hc3.
  destruct (GenerationDriver.generateSystemPrompt (conv_id conversation) s2)
    as [[[]|e] s3]; simpl in Hw3, Hc3; [|left; split; [simpl; congruence|simpl; eauto]].
  rewrite run_bind, (run_chat s3 c) by congruence.
  destruct (script c (served c)) as [|[[|a text]|]] eqn:Hs; cbv beta iota zeta;
    try (left; rewrite ?run_throw; split; [simpl; congruence|simpl; eauto]).
  destruct (GenerationDriver.parseResponse (String a text) (ctx_participants context))
    as [p|e] eqn:Hp.
  - right. by exists (String a text), p.
  - left. rewrite run_bind, run_liftResult. simpl. split; [congruence|eauto].
Qed.

(** The same for the whole [try] block, with the roster of the context the
    step leaves behind. *)
Lemma processMessage_try_world now message conversation s c :
  clientOf s = Some c →
  (world (processMessage_try now message conversation s).2 = world s ∧
   ∃ e, (processMessage_try now message conversation s).1 = Throw e) ∨
  (∃ text context p,
     script c (served c) = Resolves (Some text) ∧ text ≠ "" ∧
     contextsOf (processMessage_try now message conversation s).2
       !! conv_id conversation = Some context ∧
     GenerationDriver.parseResponse text (ctx_participants context) = Ok p).
Proof.
  intros Hc.
  assert (∀ s1 context1,
    clientOf s1 = Some c → world s1 = world s →
    let context := set_messageCount (ctx_messageCount context1 + 1) context1 in
    let r := bind (modify (fun s =>
                     with_ai (set_contexts
                                (<[conv_id conversation := context]>
                                   (conversationContexts (ai s))) (ai s)) s))
                  (fun _ => processMessage_generate now conversation context) s1 in
    (world r.2 = world s ∧ ∃ e, r.1 = Throw e) ∨
    (∃ text context p,
       script c (served c) = Resolves (Some text) ∧ text ≠ "" ∧
       contextsOf r.2 !! conv_id conversation = Some context ∧
       GenerationDriver.parseResponse text (ctx_participants context) = Ok p)) as Hrest.
  { intros s1 context1 Hc1 Hw1 context r. subst r. rewrite run_bind, run_modify.
    cbv beta iota zeta.
    set (s2 := with_ai _ s1).
    destruct (processMessage_generate_world now conversation context s2 c Hc1)
      as [[Hw He]|(text & p & Hs & Ht & Hp)].
    - left. split; [by rewrite Hw|done].
    - right. exists text, context, p. repeat split; try done.
      rewrite (processMessage_generate_contexts now conversation context s2).
      unfold contextsOf, s2. simpl. apply lookup_insert_eq. }
  unfold GenerationDriver.processMessage_try. rewrite run_bind, run_get.
  cbv beta iota zeta. rewrite run_bind.
  destruct (conversationContexts (ai s) !! conv_id conversation) as [context0|].
  - rewrite run_ret. cbv beta iota zeta. by apply Hrest.
  - rewrite run_bind.
    pose proof (initializeConversation_world conversation s) as Hw1.
    pose proof (initializeConversation_client conversation s) as Hc1.
    destruct (initializeConversation conversation s) as [[[]|e] s1];
      simpl in Hw1, Hc1; [|left; eauto].
    rewrite run_bind, run_get. cbv beta iota zeta.
    destruct (conversationContexts (ai s1) !! conv_id conversation) as [context0|].
    + rewrite run_ret. cbv beta iota zeta. apply Hrest; congruence.
    + rewrite run_throw. left. eauto.
Qed.

(** With a context at hand, the step leaves it with the counter one higher. *)
Lemma processMessage_try_count now message conversation s context :
  contextsOf s !! conv_id conversation = Some context →
  contextsOf (processMessage_try now message conversation s).2 !! conv_id conversation
  = Some (set_messageCount (ctx_messageCount context + 1) context).
Proof.
  unfold contextsOf at 1. intros Hctx.
  unfold GenerationDriver.processMessage_try. rewrite run_bind, run_get.
  cbv beta iota zeta. rewrite run_bind, Hctx, run_ret. cbv beta iota zeta.
  rewrite run_bind, run_modify. cbv beta iota zeta.
  rewrite (processMessage_generate_contexts now conversation _ _).
  unfold contextsOf. simpl. apply lookup_insert_eq.
Qed.

(** ** Consecutive errors *)

Lemma failed_step now message conversation s e s1 :
  ready s →
  processMessage_try now message conversation s = (Throw e, s1) →
  let s' := (processMessage now message conversation s).2 in
  errorsOf s' = errorsOf s + 1 ∧
  (isEnabled (ai s') = false ↔ maxConsecutiveErrors (ai s) ≤ errorsOf s + 1) ∧
  (isEnabled (ai s') = false → disabledReason (ai s') = Some tooManyErrors) ∧
  maxConsecutiveErrors (ai s') = maxConsecutiveErrors (ai s) ∧
  world s' = world s1 ∧ contextsOf s' = contextsOf s1.
Proof.
  intros Hr Htry s'. subst s'. rewrite processMessage_ready, Htry by done.
  pose proof (processMessage_try_resets now message conversation s) as Hreset.
  pose proof (processMessage_try_settings now message conversation s) as Hset.
  rewrite Htry in Hreset, Hset. simpl in Hreset. unfold driverSettings in Hset.
  simpl in Hset. injection Hset as He Hmax _ _. destruct Hr as [Hen _].
  rewrite handleApiError_eq. unfold errorsOf. simpl. rewrite Hreset, Hmax.
  destruct (Z.leb_spec (maxConsecutiveErrors (ai s)) (consecutiveErrors (ai s) + 1));
    simpl; repeat split; try done; try lia; congruence.
Qed.

Lemma successful_step now message conversation s s1 :
  ready s →
  processMessage_try now message conversation s = (Ok tt, s1) →
  processMessage now message conversation s = (Ok tt, s1) ∧
  errorsOf s1 = 0 ∧ isEnabled (ai s1) = true ∧
  maxConsecutiveErrors (ai s1) = maxConsecutiveErrors (ai s).
Proof.
  intros Hr Htry. rewrite processMessage_ready, Htry by done.
  pose proof (processMessage_try_resets now message conversation s) as Hreset.
  pose proof (processMessage_try_settings now message conversation s) as Hset.
  rewrite Htry in Hreset, Hset. simpl in Hreset. unfold driverSettings in Hset.
  simpl in Hset. injection Hset as He Hmax _ _. destruct Hr as [Hen _].
  repeat split; try done. congruence.
Qed.

(** The state of the error counter between steps: enabled below the
    threshold, or disabled at the threshold with the reason set. *)
Lemma runStep_counter s st limit :
  maxConsecutiveErrors (ai s) = limit →
  (isEnabled (ai s) = true ∧ 0 ≤ errorsOf s < limit) ∨
  (isEnabled (ai s) = false ∧ errorsOf s = limit ∧
   disabledReason (ai s) = Some tooManyErrors) →
  maxConsecutiveErrors (ai (runStep s st)) = limit ∧
  ((isEnabled (ai (runStep s st)) = true ∧ 0 ≤ errorsOf (runStep s st) < limit) ∨
   (isEnabled (ai (runStep s st)) = false ∧ errorsOf (runStep s st) = limit ∧
    disabledReason (ai (runStep s st)) = Some tooManyErrors)).
Proof.
  intros Hlimit Hstate. unfold runStep.
  destruct (decide (ready s)) as [Hr|Hn].
  - destruct Hstate as [[Hen Herr]|[Hdis _]]; [|destruct Hr; congruence].
    destruct (processMessage_try (step_now st) (step_message st) (step_conversation st) s)
      as [[[]|e] s1] eqn:Htry.
    + destruct (successful_step _ _ _ _ _ Hr Htry) as (-> & He & Hen1 & Hmax).
      simpl. split; [congruence|]. left. split; [done|]. lia.
    + destruct (failed_step _ _ _ _ _ _ Hr Htry) as (He & Hdis & Hreason & Hmax & _).
      split; [congruence|].
      destruct (isEnabled (ai (processMessage _ _ _ s).2)) eqn:Hen'.
      * left. split; [done|].
        assert (¬ limit ≤ errorsOf s + 1) by (rewrite <- Hlimit, <- Hdis; congruence).
        lia.
      * right. split; [done|]. split; [|by apply Hreason].
        assert (limit ≤ errorsOf s + 1) by (rewrite <- Hlimit; by apply Hdis).
        lia.
  - rewrite processMessage_not_ready by done. simpl. split; [done|]. done.
Qed.

Lemma runSteps_counter steps s limit :
  maxConsecutiveErrors (ai s) = limit →
  (isEnabled (ai s) = true ∧ 0 ≤ errorsOf s < limit) ∨
  (isEnabled (ai s) = false ∧ errorsOf s = limit ∧
   disabledReason (ai s) = Some tooManyErrors) →
  (isEnabled (ai (runSteps steps s)) = true ∧ 0 ≤ errorsOf (runSteps steps s) < limit) ∨
  (isEnabled (ai (runSteps steps s)) = false ∧ errorsOf (runSteps steps s) = limit ∧
   disabledReason (ai (runSteps steps s)) = Some tooManyErrors).
Proof.
  unfold runSteps. revert s.
  induction steps as [|st steps IH]; intros s Hlimit Hstate; [done|].
  simpl. destruct (runStep_counter s st limit Hlimit Hstate) as [Hmax Hnext].
  by apply IH.
Qed.

(** ** The message counter of a context (C10) *)

(** C10 (as stated, fails): ten rejected generation calls disable the
    driver; the context of the conversation is initialized and its counter
    is 10; a further invocation of [processMessage] returns at the guard and
    leaves the counter at 10. *)
Lemma processMessage_disabled_keeps_count :
  let carol := mkAgent "2" "carol" Specialist None AgentActive 3 in
  let dave := mkAgent "3" "dave" Learning None AgentActive 4 in
  let hello := mkMessage "0" "1" "2" "hello" (RecipientsOf ["2"; "3"]) 6 in
  let b := mkConversation "1" "B" "topic" "goal" "room" ConvActive ["2"; "3"] [hello] 5
             None (Some false) in
  let w := mkWorld {[ "2" := carol; "3" := dave ]} {[ "1" := b ]} in
  let driver := GenerationDriver.create 50 (Some "key")
                  (Some (mkOpenAI (fun _ => Rejects) 0)) in
  let s := runSteps (replicate 10 (mkStep 10000 hello b))
             (mkSystem w driver (Scheduler.create 1000)) in
  isEnabled (ai s) = false ∧
  ctx_messageCount <$> contextsOf s !! "1" = Some 10 ∧
  processMessage 10000 hello b s = (Ok tt, s).
Proof. vm_compute. auto. Qed.

(** C10 (amended): for every invocation of [processMessage] that passes its
    guard (the driver is enabled and has a client) on a conversation with an
    initialized context, the step leaves the context with messageCount one
    higher and otherwise as it was, whatever happens afterwards; in
    particular when the generation call is rejected, returns no text, or
    returns a text that does not parse against the roster, in which case no
    table has changed (no message is appended) and the step counts as a
    failure. *)
Theorem messageCount_advances now message conversation s context :
  ready s →
  contextsOf s !! conv_id conversation = Some context →
  let s' := (processMessage now message conversation s).2 in
  contextsOf s' !! conv_id conversation =
    Some (set_messageCount (ctx_messageCount context + 1) context) ∧
  (∀ c, clientOf s = Some c → generationFails c (ctx_participants context) →
     world s' = world s ∧ errorsOf s' = errorsOf s + 1).
Proof.
  intros Hr Hctx s'.
  assert (contextsOf s' !! conv_id conversation =
          Some (set_messageCount (ctx_messageCount context + 1) context)) as Hcount.
  { subst s'. rewrite processMessage_ready by done.
    pose proof (processMessage_try_count now message conversation s context Hctx) as H.
    destruct (processMessage_try now message conversation s) as [[[]|e] s1];
      simpl in *; [done|].
    by rewrite handleApiError_contexts. }
  split; [done|]. intros c Hc Hfails.
  destruct (processMessage_try_world now message conversation s c Hc)
    as [[Hw [e He]]|(text & context' & p & Hs & Ht & Hctx' & Hp)].
  - destruct (processMessage_try now message conversation s) as [r s1] eqn:Htry.
    simpl in Hw, He. subst r.
    destruct (failed_step _ _ _ _ _ _ Hr Htry) as (Herr & _ & _ & _ & Hworld & _).
    fold s' in Herr, Hworld. split; [congruence|done].
  - exfalso.
    pose proof (processMessage_try_count now message conversation s context Hctx) as H.
    rewrite H in Hctx'. injection Hctx' as <-. simpl in Hp.
    unfold generationFails in Hfails. rewrite Hs in Hfails.
    destruct Hfails as [->|[e He]]; congruence.
Qed.

(** An instance: the reply has no colon, the step fails, and the counter of
    the context still goes from 4 to 5. *)
Lemma messageCount_advances_witness :
  let carol := mkAgent "2" "carol" Specialist None AgentActive 3 in
  let dave := mkAgent "3" "dave" Learning None AgentActive 4 in
  let hello := mkMessage "0" "1" "2" "hello" (RecipientsOf ["2"; "3"]) 6 in
  let b := mkConversation "1" "B" "topic" "goal" "room" ConvActive ["2"; "3"] [hello] 5
             None (Some false) in
  let w := mkWorld {[ "2" := carol; "3" := dave ]} {[ "1" := b ]} in
  let roster := [mkParticipant "2" "carol" Specialist None;
                 mkParticipant "3" "dave" Learning None] in
  let context := mkContext "topic" "goal" "room" roster 4 in
  let driver :=
    set_contexts {[ "1" := context ]}
      (GenerationDriver.create 50 (Some "key")
         (Some (mkOpenAI (fun _ => Resolves (Some "no colon here")) 0))) in
  let s := mkSystem w driver (Scheduler.create 1000) in
  contextsOf (processMessage 10000 hello b s).2 !! "1" =
    Some (set_messageCount 5 context) ∧
  world (processMessage 10000 hello b s).2 = w.
Proof.
  intros carol dave hello b w roster context driver s.
  assert (ready s) as Hr by (split; [reflexivity|by eexists]).
  destruct (messageCount_advances 10000 hello b s context Hr eq_refl)
    as [Hcount Hfail].
  split; [exact Hcount|].
  apply (Hfail (mkOpenAI (fun _ => Resolves (Some "no colon here")) 0) eq_refl).
  right. exists MalformedResponse. reflexivity.
Defined.

(** ** AgentService: deletion, activation, deactivation *)

Lemma run_agents_patch id p w :
  agents_update agentStore id p w =
  match agentTable w !! id with
  | None => (Ok None, w)
  | Some a => (Ok (Some (patchAgent p a)),
               with_agents (<[id := patchAgent p a]> (agentTable w)) w)
  end.
Proof. reflexivity. Qed.

Lemma deleteAgent_eq id w :
  deleteAgent id w =
  match agentTable w !! id with
  | None => (Throw NotFound, w)
  | Some a =>
      if bool_decide (agent_status a = AgentActive) then (Throw InvalidState, w)
      else (Ok true, with_agents (delete id (agentTable w)) w)
  end.
Proof.
  unfold AgentService.deleteAgent. run.
  destruct (agentTable w !! id) as [a|] eqn:Ha; [|by run]. run.
  destruct (bool_decide (agent_status a = AgentActive)); [done|].
  simpl. by rewrite Ha.
Qed.

Lemma activateAgent_eq id w :
  activateAgent id w =
  match agentTable w !! id with
  | None => (Throw NotFound, w)
  | Some a => (Ok (setStatus AgentActive a),
               with_agents (<[id := setStatus AgentActive a]> (agentTable w)) w)
  end.
Proof.
  unfold AgentService.activateAgent. run.
  destruct (agentTable w !! id) as [a|] eqn:Ha; [|by run].
  rewrite run_bind, run_agents_patch, Ha. by run.
Qed.

Lemma deactivateAgent_eq id w :
  deactivateAgent id w =
  match agentTable w !! id with
  | None => (Throw NotFound, w)
  | Some a => (Ok (setStatus AgentInactive a),
               with_agents (<[id := setStatus AgentInactive a]> (agentTable w)) w)
  end.
Proof.
  unfold AgentService.deactivateAgent. run.
  destruct (agentTable w !! id) as [a|] eqn:Ha; [|by run].
  rewrite run_bind, run_agents_patch, Ha. by run.
Qed.

Lemma updateAgentDescription_eq id d w :
  updateAgentDescription id d w =
  match agentTable w !! id with
  | None => (Throw NotFound, w)
  | Some a =>
      let a' := patchAgent (mkAgentPatch None (Some d)) a in
      (Ok a', with_agents (<[id := a']> (agentTable w)) w)
  end.
Proof.
  unfold AgentService.updateAgentDescription. run.
  destruct (agentTable w !! id) as [a|] eqn:Ha; [|by run].
  rewrite run_bind, run_agents_patch, Ha. by run.
Qed.

(** X1. [deleteAgent] throws NotFound for an id that is not stored and
    InvalidState for an agent whose status is 'active', changing nothing in
    both cases; for a stored agent whose status is 'inactive' it returns
    true and leaves the state with exactly that agent removed.  Conversely,
    whenever it returns, it returns true, the agent was stored and inactive,
    the agent table is the old one without that id and the conversations
    are untouched.  In a state that satisfies the reservation invariant the
    agent it removes takes part in no active or paused conversation. *)
Theorem deleteAgent_contract id w :
  (agentTable w !! id = None → deleteAgent id w = (Throw NotFound, w)) ∧
  (∀ a, agentTable w !! id = Some a → agent_status a = AgentActive →
     deleteAgent id w = (Throw InvalidState, w)) ∧
  (∀ a, agentTable w !! id = Some a → agent_status a = AgentInactive →
     deleteAgent id w =
       (Ok true, mkWorld (delete id (agentTable w)) (conversationTable w))) ∧
  (∀ r w', deleteAgent id w = (Ok r, w') →
     r = true ∧
     (∃ a, agentTable w !! id = Some a ∧ agent_status a = AgentInactive) ∧
     agentTable w' = delete id (agentTable w) ∧
     conversationTable w' = conversationTable w ∧
     (reservedIffParticipating w → ¬ participates w id)).
Proof.
  rewrite deleteAgent_eq. split; [|split; [|split]].
  - by intros ->.
  - intros a -> Hs. by rewrite bool_decide_eq_true_2.
  - intros a -> Hs. rewrite bool_decide_eq_false_2 by congruence. by destruct w.
  - intros r w'. destruct (agentTable w !! id) as [a|] eqn:Ha; [|done].
    destruct (bool_decide_reflect (agent_status a = AgentActive)) as [|Hs]; [done|].
    intros [= <- <-]. repeat split.
    + exists a. split; [done|]. by destruct (agent_status a).
    + intros Hres Hp. by apply Hs, (Hres id a Ha).
Qed.

(** X2. Activation and deactivation change the status of one agent and
    nothing else: the other fields of the agent, the other agents and the
    conversations stay as they are.  Either call is idempotent, and
    activating an inactive agent and deactivating it again restores the
    state. *)
Theorem activate_deactivate_round_trip id w a :
  agentTable w !! id = Some a →
  ∃ a1 w1,
    activateAgent id w = (Ok a1, w1) ∧
    a1 = mkAgent (agent_id a) (agent_name a) (agent_type a) (agent_description a)
           AgentActive (agent_createdAt a) ∧
    agentTable w1 = <[id := a1]> (agentTable w) ∧
    conversationTable w1 = conversationTable w ∧
    activateAgent id w1 = (Ok a1, w1) ∧
    (∃ a2 w2, deactivateAgent id w1 = (Ok a2, w2) ∧
              agent_status a2 = AgentInactive ∧
              deactivateAgent id w2 = (Ok a2, w2) ∧
              (agent_status a = AgentInactive → a2 = a ∧ w2 = w)).
Proof.
  intros Ha. rewrite activateAgent_eq, Ha. eexists _, _. split; [done|].
  split; [done|]. split; [done|]. split; [done|]. split.
  - rewrite activateAgent_eq. simpl. rewrite lookup_insert_eq.
    by rewrite insert_insert_eq.
  - rewrite deactivateAgent_eq. simpl. rewrite lookup_insert_eq.
    eexists _, _. split; [done|]. split; [done|]. split.
    + rewrite deactivateAgent_eq. simpl. rewrite lookup_insert_eq.
      by rewrite !insert_insert_eq.
    + intros Hs. unfold setStatus, patchAgent, with_agents. simpl.
      rewrite insert_insert_eq. destruct a, w. simpl in *. subst.
      split; [done|]. by rewrite insert_id.
Qed.

Lemma activate_deactivate_round_trip_witness :
  let alice := mkAgent "0" "alice" Learning None AgentInactive 1 in
  let w := mkWorld {[ "0" := alice ]} ∅ in
  ∃ a1 w1, activateAgent "0" w = (Ok a1, w1) ∧
           agent_status a1 = AgentActive ∧
           deactivateAgent "0" w1 = (Ok alice, w).
Proof.
  intros alice w.
  destruct (activate_deactivate_round_trip "0" w alice eq_refl)
    as (a1 & w1 & H1 & Ha1 & _ & _ & _ & a2 & w2 & H2 & _ & _ & Hback).
  destruct (Hback eq_refl) as [E1 E2]. exists a1, w1.
  split; [exact H1|]. split; [by rewrite Ha1|]. by rewrite H2, E1, E2.
Defined.

(** X3. The status calls of the registry override the lifecycle manager.
    [deactivateAgent] on a participant of an active or paused conversation
    succeeds and leaves it inactive while it still takes part, so that
    [createConversation] accepts it as a participant once more;
    [activateAgent] on an agent that takes part in nothing leaves it active,
    and [createConversation] refuses it as not available. *)
Theorem status_calls_override_reservation id w a :
  agentTable w !! id = Some a →
  (participates w id →
   ∃ a' w', deactivateAgent id w = (Ok a', w') ∧
            agentTable w' !! id = Some a' ∧ agent_status a' = AgentInactive ∧
            participates w' id ∧ ¬ reservedIffParticipating w' ∧
            ∀ now data, cc_participantIds data = [id; id] →
              ¬ conversationNameTaken w' (cc_name data) →
              ∃ c w'', createConversation now data w' = (Ok c, w'')) ∧
  (¬ participates w id →
   ∃ a' w', activateAgent id w = (Ok a', w') ∧
            agentTable w' !! id = Some a' ∧ agent_status a' = AgentActive ∧
            ¬ participates w' id ∧ ¬ reservedIffParticipating w' ∧
            ∀ now data, id ∈ cc_participantIds data →
              ∃ e, createConversation now data w' = (Throw e, w')).
Proof.
  intros Ha. split; intros Hp.
  - rewrite deactivateAgent_eq, Ha. eexists _, _. split; [done|]. simpl.
    rewrite lookup_insert_eq. split; [done|]. split; [done|].
    assert (participates
              (with_agents (<[id:=setStatus AgentInactive a]> (agentTable w)) w) id)
      as Hp' by done.
    split; [done|]. split.
    + intros Hres.
      specialize (Hres id (setStatus AgentInactive a)). simpl in Hres.
      rewrite lookup_insert_eq in Hres.
      destruct (Hres eq_refl) as [_ Hback]. by specialize (Hback Hp').
    + intros now data Hids Hfree. rewrite createConversation_eq.
      rewrite bool_decide_eq_false_2 by done. rewrite Hids.
      cbn [length Nat.ltb Nat.leb orb firstUnavailable agentTable with_agents].
      rewrite lookup_insert_eq. cbn [setStatus patchAgent agent_status ap_status default
        from_option bool_decide decide_rel]. by eexists _, _.
  - rewrite activateAgent_eq, Ha. eexists _, _. split; [done|]. simpl.
    rewrite lookup_insert_eq. split; [done|]. split; [done|].
    assert (¬ participates
              (with_agents (<[id:=setStatus AgentActive a]> (agentTable w)) w) id)
      as Hp' by done.
    split; [done|]. split.
    + intros Hres.
      specialize (Hres id (setStatus AgentActive a)). simpl in Hres.
      rewrite lookup_insert_eq in Hres.
      destruct (Hres eq_refl) as [Hto _]. by specialize (Hto eq_refl).
    + intros now data Hin. rewrite createConversation_eq.
      destruct (bool_decide _); [by eexists|].
      destruct (_ || _); [by eexists|].
      destruct (firstUnavailable _ _) as [e|] eqn:Hf; [by eexists|].
      exfalso. destruct (proj1 (firstUnavailable_None _ _) Hf id Hin)
        as (a' & Ha' & Hs').
      simpl in Ha'. rewrite lookup_insert_eq in Ha'. by injection Ha' as <-.
Qed.

Lemma status_calls_override_reservation_witness :
  let alice := mkAgent "0" "alice" Learning None AgentActive 1 in
  let bob := mkAgent "1" "bob" Assistant None AgentActive 2 in
  let t := mkConversation "0" "T" "topic" "goal" "room" ConvActive ["0"; "1"] [] 4
             None (Some false) in
  let w := mkWorld {[ "0" := alice; "1" := bob ]} {[ "0" := t ]} in
  ∃ a' w', deactivateAgent "0" w = (Ok a', w') ∧
           agent_status a' = AgentInactive ∧ participates w' "0".
Proof.
  intros alice bob t w.
  destruct (proj1 (status_calls_override_reservation "0" w alice eq_refl))
    as (a' & w' & H1 & _ & H2 & H3 & _).
  - exists "0", t. split; [done|]. split; [by left|]. set_solver.
  - by exists a', w'.
Defined.

(** ** What a call of the lifecycle manager does to a row and to an agent *)

Lemma sameIdentity_refl c : sameIdentity c c.
Proof. by repeat split. Qed.

Lemma sameIdentity_trans c1 c2 c3 :
  sameIdentity c1 c2 → sameIdentity c2 c3 → sameIdentity c1 c3.
Proof. unfold sameIdentity. intros ? ?. intuition congruence. Qed.

Lemma rowStep_refl k c : rowStep k c c.
Proof. split; [apply sameIdentity_refl|]. split; [done|by left]. Qed.

Lemma rowStep_patch k c p :
  (live (patchConversation p c) → live c) → rowStep k c (patchConversation p c).
Proof. intros Hl. split; [by repeat split|]. split; [done|by left]. Qed.

Lemma fresh_row w :
  conversationTable w !! fresh (dom (conversationTable w)) = None.
Proof. apply not_elem_of_dom, is_fresh. Qed.

Lemma invalidRecipients_empty data c recipients :
  am_recipients data = RecipientsOf recipients →
  (0 <? length (invalidRecipients data c))%nat = false →
  recipients ⊆ conv_participants c.
Proof.
  unfold invalidRecipients. intros -> Hlen r Hr.
  apply Nat.ltb_ge in Hlen.
  destruct (decide (r ∈ conv_participants c)) as [|Hn]; [done|]. exfalso.
  assert (r ∈ List.filter (λ id, negb (includes (conv_participants c) id)) recipients)
    as Hin.
  { apply list_elem_of_In, filter_In. split; [by apply list_elem_of_In|].
    unfold includes. by rewrite bool_decide_eq_false_2. }
  destruct (List.filter _ recipients); [by apply elem_of_nil in Hin|simpl in Hlen; lia].
Qed.

(** Every stored row is still stored after a call, changed by one step. *)
Lemma perform_row call w k c :
  wellKeyed w →
  conversationTable w !! k = Some c →
  ∃ c', conversationTable (perform call w) !! k = Some c' ∧ rowStep k c c'.
Proof.
  intros Hkeys Hc.
  assert (∀ id c0 c1 (t : gmap Id Agent),
            conversationTable w !! id = Some c0 → rowStep id c0 c1 →
            ∃ c', <[id := c1]> (conversationTable w) !! k = Some c' ∧ rowStep k c c')
    as Hins.
  { intros id c0 c1 _ H0 Hstep. destruct (decide (k = id)) as [->|Hne].
    - rewrite lookup_insert_eq. exists c1. split; [done|]. congruence.
    - rewrite lookup_insert_ne by done. exists c. split; [done|apply rowStep_refl]. }
  destruct call as [now data|now data|now id g|id| |id|now id]; simpl.
  - rewrite createConversation_eq.
    destruct (bool_decide _); [by eauto using rowStep_refl|].
    destruct (_ || _); [by eauto using rowStep_refl|].
    destruct (firstUnavailable _ _); [by eauto using rowStep_refl|]. simpl.
    rewrite lookup_insert_ne; [by eauto using rowStep_refl|].
    intros Heq. pose proof (fresh_row w). congruence.
  - rewrite addMessage_eq.
    destruct (conversationTable w !! am_conversationId data) as [c0|] eqn:H0;
      [|by eauto using rowStep_refl].
    unfold statusIs, includes.
    destruct (bool_decide_reflect (conv_status c0 = ConvActive)) as [Hact|];
      [|by eauto using rowStep_refl].
    destruct (bool_decide_reflect (am_senderId data ∈ conv_participants c0)) as [Hs|];
      [|by eauto using rowStep_refl].
    destruct (0 <? _)%nat eqn:Hinv; [by eauto using rowStep_refl|]. simpl.
    apply (Hins _ c0 _ (agentTable w) H0).
    split; [by repeat split|]. split; [by intros; left|]. right.
    eexists. split; [done|]. split; [|done]. split; [done|]. split; [done|].
    simpl. destruct (am_recipients data) as [|recipients] eqn:Hr.
    + by eexists.
    + exists recipients. split; [done|]. by eapply invalidRecipients_empty.
  - rewrite completeConversation_eq.
    destruct (conversationTable w !! id) as [c0|] eqn:H0; [|by eauto using rowStep_refl].
    unfold statusIs.
    destruct (bool_decide_reflect (conv_status c0 = ConvActive)) as [Hact|];
      [|by eauto using rowStep_refl]. simpl.
    apply (Hins _ c0 _ (agentTable w) H0), rowStep_patch. by left.
  - rewrite pauseConversation_eq.
    destruct (conversationTable w !! id) as [c0|] eqn:H0; [|by eauto using rowStep_refl].
    unfold statusIs.
    destruct (bool_decide_reflect (conv_status c0 = ConvActive)) as [Hact|];
      [|by eauto using rowStep_refl]. simpl.
    apply (Hins _ c0 _ (agentTable w) H0), rowStep_patch. by left.
  - rewrite pauseAllConversations_eq. simpl.
    rewrite pausedAll_lookup by done. rewrite Hc. simpl. unfold statusIs.
    destruct (bool_decide_reflect (conv_status c = ConvActive)) as [Hact|];
      [|by eauto using rowStep_refl].
    eexists. split; [done|]. apply rowStep_patch. by left.
  - rewrite unpauseConversation_eq.
    destruct (conversationTable w !! id) as [c0|] eqn:H0; [|by eauto using rowStep_refl].
    unfold statusIs.
    destruct (bool_decide_reflect (conv_status c0 = ConvPaused)) as [Hact|];
      [|by eauto using rowStep_refl]. simpl.
    apply (Hins _ c0 _ (agentTable w) H0), rowStep_patch. by right.
  - rewrite terminateConversation_eq.
    destruct (conversationTable w !! id) as [c0|] eqn:H0; [|by eauto using rowStep_refl].
    unfold statusIs.
    destruct (bool_decide_reflect (conv_status c0 = ConvActive)) as [Hact|];
      destruct (bool_decide_reflect (conv_status c0 = ConvPaused)) as [Hp|]; simpl;
      try (by eauto using rowStep_refl);
      apply (Hins _ c0 _ (agentTable w) H0), rowStep_patch; intros _;
      solve [by left|by right].
Qed.

(** A row that appears was created by [createConversation], under a free
    name and with available participants. *)
Lemma perform_new call w k c' :
  conversationTable w !! k = None →
  conversationTable (perform call w) !! k = Some c' →
  ∃ now data,
    call = CreateConversation now data ∧ k = fresh (dom (conversationTable w)) ∧
    c' = newConversation now data k ∧
    ¬ conversationNameTaken w (cc_name data) ∧
    firstUnavailable (agentTable w) (cc_participantIds data) = None.
Proof.
  intros Hk.
  assert (∀ id c0 c1, conversationTable w !! id = Some c0 →
            <[id := c1]> (conversationTable w) !! k = Some c' → False) as Hins.
  { intros id c0 c1 H0. destruct (decide (k = id)) as [->|Hne]; [congruence|].
    rewrite lookup_insert_ne by done. congruence. }
  destruct call as [now data|now data|now id g|id| |id|now id]; simpl.
  - rewrite createConversation_eq.
    destruct (bool_decide_reflect (conversationNameTaken w (cc_name data)));
      [simpl; congruence|].
    destruct (_ || _); [simpl; congruence|].
    destruct (firstUnavailable _ _) eqn:Hf; [simpl; congruence|]. simpl.
    destruct (decide (k = fresh (dom (conversationTable w)))) as [->|Hne].
    + rewrite lookup_insert_eq. intros [= <-]. by exists now, data.
    + rewrite lookup_insert_ne by done. congruence.
  - rewrite addMessage_eq.
    destruct (conversationTable w !! am_conversationId data) as [c0|] eqn:H0;
      [|simpl; congruence].
    destruct (negb _); [simpl; congruence|]. destruct (negb _); [simpl; congruence|].
    destruct (0 <? _)%nat; [simpl; congruence|]. simpl. intros H.
    destruct (Hins _ _ _ H0 H).
  - rewrite completeConversation_eq.
    destruct (conversationTable w !! id) as [c0|] eqn:H0; [|simpl; congruence].
    destruct (negb _); [simpl; congruence|]. simpl. intros H.
    destruct (Hins _ _ _ H0 H).
  - rewrite pauseConversation_eq.
    destruct (conversationTable w !! id) as [c0|] eqn:H0; [|simpl; congruence].
    destruct (negb _); [simpl; congruence|]. simpl. intros H.
    destruct (Hins _ _ _ H0 H).
  - rewrite pauseAllConversations_eq. simpl.
    rewrite updateAll_lookup by done. rewrite Hk. by destruct (decide _).
  - rewrite unpauseConversation_eq.
    destruct (conversationTable w !! id) as [c0|] eqn:H0; [|simpl; congruence].
    destruct (negb _); [simpl; congruence|]. simpl. intros H.
    destruct (Hins _ _ _ H0 H).
  - rewrite terminateConversation_eq.
    destruct (conversationTable w !! id) as [c0|] eqn:H0; [|simpl; congruence].
    destruct (_ && _); [simpl; congruence|]. simpl. intros H.
    destruct (Hins _ _ _ H0 H).
Qed.

(** The agent table after a call: the same ids, and each agent as it was or
    with a new status. *)
Lemma perform_agent call w id :
  ∃ f, (∀ a, agentStep a (f a)) ∧
       agentTable (perform call w) !! id = f <$> agentTable w !! id.
Proof.
  assert (∃ f : Agent → Agent, (∀ a, agentStep a (f a)) ∧
            agentTable w !! id = f <$> agentTable w !! id) as Hsame.
  { exists (fun a => a). split; [by left|]. by destruct (agentTable w !! id). }
  assert (∀ st ids, ∃ f : Agent → Agent, (∀ a, agentStep a (f a)) ∧
            updateAll (setStatus st) ids (agentTable w) !! id = f <$> agentTable w !! id)
    as Hupd.
  { intros st ids. rewrite updateAll_lookup by done.
    destruct (decide (id ∈ ids)); [|done].
    exists (setStatus st). split; [|done]. intros a. right. by exists st. }
  destruct call as [now data|now data|now id' g|id'| |id'|now id']; simpl.
  - rewrite createConversation_eq.
    destruct (bool_decide _); [done|]. destruct (_ || _); [done|].
    destruct (firstUnavailable _ _); [done|]. simpl. apply Hupd.
  - rewrite addMessage_eq.
    destruct (conversationTable w !! am_conversationId data) as [c0|]; [|done].
    destruct (negb _); [done|]. destruct (negb _); [done|].
    by destruct (0 <? _)%nat.
  - rewrite completeConversation_eq.
    destruct (conversationTable w !! id') as [c0|]; [|done].
    destruct (negb _); [done|]. simpl. apply Hupd.
  - rewrite pauseConversation_eq.
    destruct (conversationTable w !! id') as [c0|]; [|done].
    by destruct (negb _).
  - by rewrite pauseAllConversations_eq.
  - rewrite unpauseConversation_eq.
    destruct (conversationTable w !! id') as [c0|]; [|done].
    by destruct (negb _).
  - rewrite terminateConversation_eq.
    destruct (conversationTable w !! id') as [c0|]; [|done].
    destruct (_ && _); [done|]. simpl. apply Hupd.
Qed.

Lemma perform_agent_stored call w id :
  is_Some (agentTable (perform call w) !! id) ↔ is_Some (agentTable w !! id).
Proof.
  destruct (perform_agent call w id) as (f & _ & ->). apply fmap_is_Some.
Qed.

Lemma perform_participantsStored call w :
  wellKeyed w → participantsStored w → participantsStored (perform call w).
Proof.
  intros Hkeys Hw k c' x Hk' Hlive Hx. apply perform_agent_stored.
  destruct (conversationTable w !! k) as [c|] eqn:Hk.
  - destruct (perform_row call w k c Hkeys Hk) as (c'' & Hk'' & Hid & Hl & _).
    assert (c'' = c') as -> by congruence.
    apply (Hw k c x Hk (Hl Hlive)).
    destruct Hid as (_ & _ & _ & _ & _ & <- & _). done.
  - destruct (perform_new call w k c' Hk Hk') as (now & data & _ & _ & -> & _ & Hf).
    destruct (proj1 (firstUnavailable_None _ _) Hf x Hx) as (a & -> & _). done.
Qed.

(** ** The registry and the reservation invariant *)

Lemma createAgent_world now data w :
  (createAgent now data w).2 = w ∨
  (createAgent now data w).2 =
    with_agents
      (<[fresh (dom (agentTable w)) :=
           mkAgent (fresh (dom (agentTable w))) (ca_name data) (ca_type data)
             (ca_description data) (default AgentInactive (ca_status data)) now]>
         (agentTable w)) w ∧
  ¬ agentNameTaken w (ca_name data).
Proof.
  rewrite createAgent_eq. destruct (_ <? _)%nat; [by left|].
  destruct (bool_decide_reflect (agentNameTaken w (ca_name data))); [by left|].
  by right.
Qed.

Lemma fresh_agent w : agentTable w !! fresh (dom (agentTable w)) = None.
Proof. apply not_elem_of_dom, is_fresh. Qed.

Lemma participates_agents w t x :
  participates (with_agents t w) x ↔ participates w x.
Proof. done. Qed.

Lemma execute_reservation command w :
  leavesStatus command = true →
  consistent w ∧ participantsStored w →
  consistent (execute command w) ∧ participantsStored (execute command w).
Proof.
  intros Hok [Hw Hst].
  destruct command as [call|now data|id|id|id|id d]; simpl in *; try done.
  - split; [by apply perform_consistent|]. apply perform_participantsStored; [apply Hw|done].
  - destruct (createAgent_world now data w) as [->|[-> _]]; [done|].
    set (fid := fresh (dom (agentTable w))).
    destruct Hw as (Hkeys & Hres & Hdis). split; [split; [done|split; [|done]]|].
    + intros x a. simpl. destruct (decide (x = fid)) as [->|Hne].
      * rewrite lookup_insert_eq. intros [= <-]. simpl. split.
        -- intros Hact. destruct (ca_status data) as [[]|]; done.
        -- intros (k & c & Hk & Hl & Hx). exfalso.
           destruct (Hst k c fid Hk Hl Hx) as [a Ha].
           pose proof (fresh_agent w). unfold fid in Ha. congruence.
      * rewrite lookup_insert_ne by done. apply Hres.
    + intros k c x Hk Hl Hx. simpl.
      destruct (decide (x = fid)) as [->|Hne]; [by rewrite lookup_insert_eq|].
      rewrite lookup_insert_ne by done. by apply (Hst k c).
  - rewrite deleteAgent_eq.
    destruct (agentTable w !! id) as [a|] eqn:Ha; [|done].
    destruct (bool_decide_reflect (agent_status a = AgentActive)) as [|Hs]; [done|].
    simpl. destruct Hw as (Hkeys & Hres & Hdis).
    assert (¬ participates w id) as Hidle by (by intros Hp; apply Hs, (Hres id a Ha)).
    split; [split; [done|split; [|done]]|].
    + intros x a'. simpl. destruct (decide (x = id)) as [->|Hne].
      * by rewrite lookup_delete_eq.
      * rewrite lookup_delete_ne by done. apply Hres.
    + intros k c x Hk Hl Hx. simpl.
      destruct (decide (x = id)) as [->|Hne].
      * destruct Hidle. by exists k, c.
      * rewrite lookup_delete_ne by done. by apply (Hst k c).
  - rewrite updateAgentDescription_eq.
    destruct (agentTable w !! id) as [a|] eqn:Ha; [|done].
    simpl. destruct Hw as (Hkeys & Hres & Hdis).
    split; [split; [done|split; [|done]]|].
    + intros x a'. simpl. destruct (decide (x = id)) as [->|Hne].
      * rewrite lookup_insert_eq. intros [= <-]. simpl. apply (Hres id a Ha).
      * rewrite lookup_insert_ne by done. apply Hres.
    + intros k c x Hk Hl Hx. simpl.
      destruct (decide (x = id)) as [->|Hne]; [by rewrite lookup_insert_eq|].
      rewrite lookup_insert_ne by done. by apply (Hst k c).
Qed.

Lemma executeAll_reservation commands w :
  forallb leavesStatus commands = true →
  consistent w ∧ participantsStored w →
  consistent (executeAll commands w) ∧ participantsStored (executeAll commands w).
Proof.
  unfold executeAll. revert w.
  induction commands as [|command commands IH]; intros w Hok Hw; [done|].
  simpl in Hok. apply andb_true_iff in Hok as [Hc Hrest].
  simpl. by apply IH, execute_reservation.
Qed.

(** X4. The agent registry respects the reservation invariant as long as it
    leaves the status of agents alone.  In every state reached from a fresh
    system by calls of the lifecycle manager, [createAgent] without the
    status 'active', [deleteAgent] and [updateAgentDescription], in any
    order and whether they return or throw, an agent is active exactly when
    it takes part in an active or paused conversation, two such
    conversations share no participant, and each of their participants is
    still stored: [deleteAgent] never removes a reserved agent. *)
Theorem registry_keeps_reservation commands w :
  initial w →
  forallb leavesStatus commands = true →
  reservedIffParticipating (executeAll commands w) ∧
  liveDisjoint (executeAll commands w) ∧
  participantsStored (executeAll commands w).
Proof.
  intros Hinit Hok.
  destruct (executeAll_reservation commands w Hok) as [(_ & Hres & Hdis) Hst];
    [|done].
  split; [by apply initial_consistent|].
  intros k c x Hk. destruct Hinit as [Hempty _]. by rewrite Hempty in Hk.
Qed.

(** An instance: alice is reserved by a conversation, so that the call that
    deletes her is refused and she is still stored at the end. *)
Lemma registry_keeps_reservation_witness :
  let alice := mkAgent "0" "alice" Learning None AgentInactive 1 in
  let bob := mkAgent "1" "bob" Assistant None AgentInactive 2 in
  let w := mkWorld {[ "0" := alice; "1" := bob ]} ∅ in
  let commands :=
    [Lifecycle (CreateConversation 5
                  (mkCreateConversationDTO "T" "topic" "goal" "room" ["0"; "1"]));
     DeleteAgent "0";
     CreateAgent 6 (mkCreateAgentDTO "carol" Specialist None None);
     UpdateAgentDescription "1" "a careful reviewer"] in
  is_Some (agentTable (executeAll commands w) !! "0").
Proof.
  intros alice bob w commands.
  apply (proj2 (proj2 (registry_keeps_reservation commands w
                         (conj eq_refl eq_refl) eq_refl))
           "0" (newConversation 5
                  (mkCreateConversationDTO "T" "topic" "goal" "room" ["0"; "1"]) "0")).
  - vm_compute. reflexivity.
  - by left.
  - set_solver.
Defined.

(** ** Commands of the whole service layer *)

Lemma execute_conversations command w :
  (∀ call, command ≠ Lifecycle call) →
  conversationTable (execute command w) = conversationTable w.
Proof.
  intros Hne. destruct command as [call|now data|id|id|id|id d]; simpl.
  - by destruct (Hne call).
  - by destruct (createAgent_world now data w) as [->|[-> _]].
  - rewrite deleteAgent_eq. destruct (agentTable w !! id); [|done].
    by destruct (bool_decide _).
  - rewrite activateAgent_eq. by destruct (agentTable w !! id).
  - rewrite deactivateAgent_eq. by destruct (agentTable w !! id).
  - rewrite updateAgentDescription_eq. by destruct (agentTable w !! id).
Qed.

Lemma command_cases command :
  (∃ call, command = Lifecycle call) ∨ (∀ call, command ≠ Lifecycle call).
Proof. destruct command; [left; eauto|right..]; done. Qed.

Lemma execute_row command w k c :
  wellKeyed w →
  conversationTable w !! k = Some c →
  ∃ c', conversationTable (execute command w) !! k = Some c' ∧ rowStep k c c'.
Proof.
  intros Hkeys Hc. destruct (command_cases command) as [[call ->]|Hn].
  - by apply perform_row.
  - rewrite execute_conversations by done.
    exists c. split; [done|apply rowStep_refl].
Qed.

Lemma execute_new command w k c' :
  conversationTable w !! k = None →
  conversationTable (execute command w) !! k = Some c' →
  ∃ now data,
    k = fresh (dom (conversationTable w)) ∧
    c' = newConversation now data k ∧
    ¬ conversationNameTaken w (cc_name data).
Proof.
  intros Hk Hk'. destruct (command_cases command) as [[call ->]|Hn].
  - destruct (perform_new call w k c' Hk Hk') as (now & data & _ & ? & ? & ? & _).
    by exists now, data.
  - rewrite execute_conversations in Hk' by done.
    congruence.
Qed.

Lemma execute_wellKeyed command w : wellKeyed w → wellKeyed (execute command w).
Proof.
  intros Hkeys. destruct (command_cases command) as [[call ->]|Hn].
  - by apply perform_wellKeyed.
  - intros k c. rewrite execute_conversations by done.
    apply Hkeys.
Qed.

Lemma executeAll_wellKeyed commands w : wellKeyed w → wellKeyed (executeAll commands w).
Proof.
  unfold executeAll. revert w.
  induction commands as [|command commands IH]; intros w Hw; [done|].
  simpl. by apply IH, execute_wellKeyed.
Qed.

Lemma executeAll_cons command commands w :
  executeAll (command :: commands) w = executeAll commands (execute command w).
Proof. done. Qed.

(** An invariant of single commands is an invariant of sequences. *)
Lemma executeAll_invariant (P : World → Prop) :
  (∀ command w, wellKeyed w → P w → P (execute command w)) →
  ∀ commands w, wellKeyed w → P w → P (executeAll commands w).
Proof.
  intros Hstep commands. induction commands as [|command commands IH]; intros w Hk Hw;
    [done|].
  rewrite executeAll_cons. apply IH; [by apply execute_wellKeyed|by apply Hstep].
Qed.

Lemma conversationNameTaken_lookup w name :
  conversationNameTaken w name ↔
  ∃ k c, conversationTable w !! k = Some c ∧ conv_name c = name.
Proof.
  unfold conversationNameTaken. rewrite Exists_exists. split.
  - intros (c & Hin & Hn). apply elem_of_allConversations in Hin as [k Hk]. eauto.
  - intros (k & c & Hk & Hn). exists c. split; [|done].
    apply elem_of_allConversations. eauto.
Qed.

Lemma agentNameTaken_lookup w name :
  agentNameTaken w name ↔ ∃ k a, agentTable w !! k = Some a ∧ agent_name a = name.
Proof.
  unfold agentNameTaken. rewrite Exists_exists. split.
  - intros (a & Hin & Hn). apply elem_of_allAgents in Hin as [k Hk]. eauto.
  - intros (k & a & Hk & Hn). exists a. split; [|done].
    apply elem_of_allAgents. eauto.
Qed.

(** Where a row of the table after a command comes from. *)
Lemma execute_row_origin command w k c' :
  wellKeyed w →
  conversationTable (execute command w) !! k = Some c' →
  (∃ c, conversationTable w !! k = Some c ∧ rowStep k c c') ∨
  (conversationTable w !! k = None ∧ k = fresh (dom (conversationTable w)) ∧
   conv_messages c' = [] ∧ conv_id c' = k ∧
   ¬ conversationNameTaken w (conv_name c')).
Proof.
  intros Hkeys Hk'. destruct (conversationTable w !! k) as [c|] eqn:Hk.
  - left. destruct (execute_row command w k c Hkeys Hk) as (c'' & Hk'' & Hstep).
    exists c. split; [done|]. congruence.
  - right. destruct (execute_new command w k c' Hk Hk') as (now & data & ? & -> & ?).
    done.
Qed.

Lemma execute_names command w :
  wellKeyed w → conversationNamesUnique w →
  conversationNamesUnique (execute command w).
Proof.
  intros Hkeys Hw k1 k2 c1 c2 H1 H2 Hn.
  destruct (execute_row_origin command w k1 c1 Hkeys H1)
    as [(d1 & Hd1 & (Hi1 & _))|(_ & -> & _ & _ & Hfree1)];
  destruct (execute_row_origin command w k2 c2 Hkeys H2)
    as [(d2 & Hd2 & (Hi2 & _))|(_ & -> & _ & _ & Hfree2)]; [| | |done].
  - apply (Hw k1 k2 d1 d2 Hd1 Hd2).
    destruct Hi1 as (_ & <- & _), Hi2 as (_ & <- & _). done.
  - destruct Hfree2. apply conversationNameTaken_lookup. exists k1, d1.
    split; [done|]. destruct Hi1 as (_ & <- & _). done.
  - destruct Hfree1. apply conversationNameTaken_lookup. exists k2, d2.
    split; [done|]. destruct Hi2 as (_ & <- & _). done.
Qed.

Lemma NoDup_fmap_inj_on {A B} (f : A → B) (l : list A) x y :
  NoDup (f <$> l) → x ∈ l → y ∈ l → f x = f y → x = y.
Proof.
  induction l as [|z l IH]; [by intros _ ?%elem_of_nil|].
  rewrite fmap_cons, NoDup_cons. intros [Hz Hl] Hx Hy Hf.
  apply elem_of_cons in Hx as [->|Hx]; apply elem_of_cons in Hy as [->|Hy];
    [done| | |by apply IH].
  - destruct Hz. rewrite Hf. by apply list_elem_of_fmap_2.
  - destruct Hz. rewrite <- Hf. by apply list_elem_of_fmap_2.
Qed.

(** The values of a table have distinct names exactly when the list of
    their names has no duplicate. *)
Lemma NoDup_names {V} (f : V → string) (t : gmap Id V) :
  NoDup (f <$> (map_to_list t).*2) ↔
  ∀ k1 k2 v1 v2, t !! k1 = Some v1 → t !! k2 = Some v2 → f v1 = f v2 → k1 = k2.
Proof.
  rewrite <- list_fmap_compose. split.
  - intros Hnd k1 k2 v1 v2 H1 H2 Hf.
    apply elem_of_map_to_list in H1, H2.
    by pose proof (NoDup_fmap_inj_on _ _ (k1, v1) (k2, v2) Hnd H1 H2 Hf) as [= -> _].
  - intros Hu. apply NoDup_fmap_2_strong; [|apply NoDup_map_to_list].
    intros [k1 v1] [k2 v2] H1 H2 Hf. apply elem_of_map_to_list in H1, H2.
    simpl in Hf. pose proof (Hu k1 k2 v1 v2 H1 H2 Hf) as ->.
    by rewrite H1 in H2; injection H2 as ->.
Qed.

Lemma executeAll_names commands w :
  wellKeyed w → conversationNamesUnique w →
  conversationNamesUnique (executeAll commands w).
Proof. apply (executeAll_invariant conversationNamesUnique), execute_names. Qed.

(** X9. Conversation names stay unique.  If the names of the stored
    conversations are pairwise distinct, they are still pairwise distinct
    (compared byte for byte) after any sequence of calls of the lifecycle
    manager and of the agent registry, whether the calls return or throw. *)
Theorem conversation_names_stay_unique commands w :
  wellKeyed w →
  NoDup (conv_name <$> allConversations w) →
  NoDup (conv_name <$> allConversations (executeAll commands w)).
Proof.
  intros Hkeys Hw.
  pose proof (executeAll_names commands w Hkeys (proj1 (NoDup_names conv_name _) Hw))
    as Hu.
  exact (proj2 (NoDup_names conv_name _) Hu).
Qed.

(** An instance: the second conversation named "T" is refused. *)
Lemma conversation_names_stay_unique_witness :
  let alice := mkAgent "0" "alice" Learning None AgentInactive 1 in
  let bob := mkAgent "1" "bob" Assistant None AgentInactive 2 in
  let carol := mkAgent "2" "carol" Specialist None AgentInactive 3 in
  let dave := mkAgent "3" "dave" Learning None AgentInactive 4 in
  let w := mkWorld {[ "0" := alice; "1" := bob; "2" := carol; "3" := dave ]} ∅ in
  let commands :=
    [Lifecycle (CreateConversation 5
                  (mkCreateConversationDTO "T" "topic" "goal" "room" ["0"; "1"]));
     Lifecycle (CreateConversation 6
                  (mkCreateConversationDTO "T" "other" "goal" "room" ["2"; "3"]));
     Lifecycle (CreateConversation 7
                  (mkCreateConversationDTO "U" "other" "goal" "room" ["2"; "3"]))] in
  NoDup (conv_name <$> allConversations (executeAll commands w)).
Proof.
  intros alice bob carol dave w commands.
  apply (conversation_names_stay_unique commands w).
  - intros k c Hk. by vm_compute in Hk.
  - vm_compute. constructor.
Defined.

(** ** Agent names *)

Lemma execute_agent_origin command w k a' :
  agentTable (execute command w) !! k = Some a' →
  (∃ a, agentTable w !! k = Some a ∧ agent_name a' = agent_name a) ∨
  (agentTable w !! k = None ∧ k = fresh (dom (agentTable w)) ∧
   ¬ agentNameTaken w (agent_name a')).
Proof.
  assert (∀ id a0 a1, agentTable w !! id = Some a0 → agent_name a1 = agent_name a0 →
            <[id := a1]> (agentTable w) !! k = Some a' →
            ∃ a, agentTable w !! k = Some a ∧ agent_name a' = agent_name a) as Hins.
  { intros id a0 a1 H0 Hn. destruct (decide (k = id)) as [->|Hne].
    - rewrite lookup_insert_eq. intros [= <-]. eauto.
    - rewrite lookup_insert_ne by done. eauto. }
  destruct command as [call|now data|id|id|id|id d]; simpl.
  - destruct (perform_agent call w k) as (f & Hf & ->).
    destruct (agentTable w !! k) as [a|]; [|done]. simpl. intros [= <-]. left.
    exists a. split; [done|]. by destruct (Hf a) as [->|[st ->]].
  - destruct (createAgent_world now data w) as [->|[-> Hfree]]; [by eauto|]. simpl.
    destruct (decide (k = fresh (dom (agentTable w)))) as [->|Hne].
    + rewrite lookup_insert_eq. intros [= <-]. right. split; [apply fresh_agent|done].
    + rewrite lookup_insert_ne by done. eauto.
  - rewrite deleteAgent_eq. destruct (agentTable w !! id) as [a|] eqn:Ha; [|by eauto].
    destruct (bool_decide _); [by eauto|]. simpl.
    intros [_ Hk]%lookup_delete_Some. eauto.
  - rewrite activateAgent_eq. destruct (agentTable w !! id) as [a|] eqn:Ha; [|by eauto].
    simpl. intros Hk. left. by apply (Hins id a _ Ha) in Hk.
  - rewrite deactivateAgent_eq. destruct (agentTable w !! id) as [a|] eqn:Ha; [|by eauto].
    simpl. intros Hk. left. by apply (Hins id a _ Ha) in Hk.
  - rewrite updateAgentDescription_eq.
    destruct (agentTable w !! id) as [a|] eqn:Ha; [|by eauto].
    simpl. intros Hk. left. by apply (Hins id a _ Ha) in Hk.
Qed.

Lemma execute_agent_names command w :
  agentNamesUnique w → agentNamesUnique (execute command w).
Proof.
  intros Hw k1 k2 a1 a2 H1 H2 Hn.
  destruct (execute_agent_origin command w k1 a1 H1)
    as [(b1 & Hb1 & Hn1)|(_ & -> & Hfree1)];
  destruct (execute_agent_origin command w k2 a2 H2)
    as [(b2 & Hb2 & Hn2)|(_ & -> & Hfree2)]; [| | |done].
  - apply (Hw k1 k2 b1 b2 Hb1 Hb2). congruence.
  - destruct Hfree2. apply agentNameTaken_lookup. exists k1, b1. split; congruence.
  - destruct Hfree1. apply agentNameTaken_lookup. exists k2, b2. split; congruence.
Qed.

Lemma executeAll_agent_names commands w :
  agentNamesUnique w → agentNamesUnique (executeAll commands w).
Proof.
  revert w. induction commands as [|command commands IH]; intros w Hw; [done|].
  rewrite executeAll_cons. by apply IH, execute_agent_names.
Qed.

(** X10. Agent names stay unique.  If the names of the stored agents are
    pairwise distinct, they are still pairwise distinct (compared byte for
    byte) after any sequence of calls of the agent registry (create,
    delete, activate, deactivate, update description) and of the lifecycle
    manager, whether the calls return or throw. *)
Theorem agent_names_stay_unique commands w :
  NoDup (agent_name <$> allAgents w) →
  NoDup (agent_name <$> allAgents (executeAll commands w)).
Proof.
  intros Hw.
  pose proof (executeAll_agent_names commands w (proj1 (NoDup_names agent_name _) Hw))
    as Hu.
  exact (proj2 (NoDup_names agent_name _) Hu).
Qed.

(** An instance: a second agent named "alice" is refused, also after the
    first one was activated. *)
Lemma agent_names_stay_unique_witness :
  let commands :=
    [CreateAgent 1 (mkCreateAgentDTO "alice" Learning None None);
     ActivateAgent "0";
     CreateAgent 2 (mkCreateAgentDTO "alice" Assistant None None);
     CreateAgent 3 (mkCreateAgentDTO "Alice" Assistant None None)] in
  NoDup (agent_name <$> allAgents (executeAll commands (mkWorld ∅ ∅))).
Proof.
  intros commands.
  apply (agent_names_stay_unique commands (mkWorld ∅ ∅)).
  vm_compute. constructor.
Defined.

(** ** The history of a conversation *)

Lemma executeAll_row commands w k c :
  wellKeyed w →
  conversationTable w !! k = Some c →
  ∃ c', conversationTable (executeAll commands w) !! k = Some c' ∧
        sameIdentity c c' ∧ conv_messages c `prefix_of` conv_messages c' ∧
        (live c' → live c).
Proof.
  revert w c. induction commands as [|command commands IH]; intros w c Hkeys Hc.
  - exists c. split; [done|]. split; [apply sameIdentity_refl|]. done.
  - rewrite executeAll_cons.
    destruct (execute_row command w k c Hkeys Hc) as (c1 & H1 & Hid1 & Hl1 & Hm1).
    destruct (IH _ c1 (execute_wellKeyed command w Hkeys) H1)
      as (c' & Hc' & Hid & Hpre & Hl).
    exists c'. split; [done|]. split; [by eapply sameIdentity_trans|].
    split; [|by auto].
    etrans; [|exact Hpre].
    destruct Hm1 as [->|(m & -> & _)]; [done|]. by apply prefix_app_r.
Qed.

(** X7. Stored conversations are never removed and their history only
    grows.  After any sequence of calls of the lifecycle manager and of the
    agent registry, returning or throwing, a conversation that was stored is
    still stored under the same id with the same name, topic, goal,
    surrounding, participants and start date; the messages it had are a
    prefix of the messages it has; and if it is active or paused afterwards,
    it was so before. *)
Theorem history_is_append_only commands w k c :
  wellKeyed w →
  conversationTable w !! k = Some c →
  ∃ c', conversationTable (executeAll commands w) !! k = Some c' ∧
        conv_id c' = conv_id c ∧ conv_name c' = conv_name c ∧
        conv_topic c' = conv_topic c ∧ conv_goal c' = conv_goal c ∧
        conv_surrounding c' = conv_surrounding c ∧
        conv_participants c' = conv_participants c ∧
        conv_startedAt c' = conv_startedAt c ∧
        conv_messages c `prefix_of` conv_messages c' ∧
        (conv_status c' = ConvActive ∨ conv_status c' = ConvPaused →
         conv_status c = ConvActive ∨ conv_status c = ConvPaused).
Proof.
  intros Hkeys Hc.
  destruct (executeAll_row commands w k c Hkeys Hc) as (c' & Hc' & Hid & Hpre & Hl).
  exists c'. unfold sameIdentity in Hid. unfold live in Hl. tauto.
Qed.

(** An instance: a message is added, the conversation is terminated, and a
    second message is refused. *)
Lemma history_is_append_only_witness :
  let alice := mkAgent "0" "alice" Learning None AgentActive 1 in
  let bob := mkAgent "1" "bob" Assistant None AgentActive 2 in
  let t := mkConversation "0" "T" "topic" "goal" "room" ConvActive ["0"; "1"] [] 4
             None (Some false) in
  let w := mkWorld {[ "0" := alice; "1" := bob ]} {[ "0" := t ]} in
  let commands :=
    [Lifecycle (AddMessage 5 (mkAddMessageDTO "0" "0" "hello" RecipientsAll));
     Lifecycle (TerminateConversation 6 "0");
     Lifecycle (AddMessage 7 (mkAddMessageDTO "0" "1" "too late" RecipientsAll));
     DeleteAgent "0"] in
  ∃ c', conversationTable (executeAll commands w) !! "0" = Some c' ∧
        conv_participants c' = ["0"; "1"] ∧
        msg_content <$> conv_messages c' = ["hello"].
Proof.
  intros alice bob t w commands.
  destruct (history_is_append_only commands w "0" t) as (c' & Hc' & H).
  - intros k c Hk. subst w. simpl in Hk.
    apply lookup_singleton_Some in Hk as [<- <-]. reflexivity.
  - reflexivity.
  - exists c'. split; [done|]. vm_compute in Hc'. by injection Hc' as <-.
Defined.

(** ** Well addressed messages *)

Lemma wellAddressed_roster k c c' m :
  conv_participants c' = conv_participants c →
  wellAddressed k c m → wellAddressed k c' m.
Proof. unfold wellAddressed. by intros ->. Qed.

Lemma execute_addressed command w :
  wellKeyed w → messagesAddressed w → messagesAddressed (execute command w).
Proof.
  intros Hkeys Hw k c' m Hk' Hm.
  destruct (execute_row_origin command w k c' Hkeys Hk')
    as [(c & Hc & Hid & _ & Hmsgs)|(_ & _ & Hnil & _)].
  - assert (conv_participants c' = conv_participants c) as Hp
      by (by destruct Hid as (_ & _ & _ & _ & _ & ? & _)).
    apply (wellAddressed_roster k c c' m Hp).
    destruct Hmsgs as [Heq|(m0 & Heq & Hm0 & _)]; rewrite Heq in Hm.
    + by apply (Hw k c m).
    + apply elem_of_app in Hm as [Hm|Hm]; [by apply (Hw k c m)|].
      by apply list_elem_of_singleton in Hm as ->.
  - rewrite Hnil in Hm. by apply elem_of_nil in Hm.
Qed.

(** X8. Every stored message is well addressed.  If each stored message
    carries the id of its conversation, a participant of that conversation
    as sender and participants as recipients, this still holds after any
    sequence of calls of the lifecycle manager and of the agent registry:
    [addMessage] stores only messages of a participant to participants, with
    'all' expanded to the list of participants. *)
Theorem messages_stay_addressed commands w :
  wellKeyed w → messagesAddressed w →
  ∀ k c m, conversationTable (executeAll commands w) !! k = Some c →
    m ∈ conv_messages c →
    msg_conversationId m = k ∧ msg_senderId m ∈ conv_participants c ∧
    ∃ recipients, msg_recipients m = RecipientsOf recipients ∧
                  recipients ⊆ conv_participants c.
Proof. apply (executeAll_invariant messagesAddressed), execute_addressed. Qed.

(** An instance: of three messages the one of an outsider and the one to an
    outsider are refused; the stored one is sent by a participant. *)
Lemma messages_stay_addressed_witness :
  let t := mkConversation "0" "T" "topic" "goal" "room" ConvActive ["0"; "1"] [] 4
             None (Some false) in
  let w := mkWorld ∅ {[ "0" := t ]} in
  let commands :=
    [Lifecycle (AddMessage 5 (mkAddMessageDTO "0" "7" "hello" RecipientsAll));
     Lifecycle (AddMessage 6 (mkAddMessageDTO "0" "1" "hi" (RecipientsOf ["7"])));
     Lifecycle (AddMessage 7 (mkAddMessageDTO "0" "1" "hi" RecipientsAll))] in
  let m := mkMessage "0" "0" "1" "hi" (RecipientsOf ["0"; "1"]) 7 in
  msg_conversationId m = "0" ∧ msg_senderId m ∈ ["0"; "1"] ∧
  ∃ recipients, msg_recipients m = RecipientsOf recipients ∧ recipients ⊆ ["0"; "1"].
Proof.
  intros t w commands m.
  apply (messages_stay_addressed commands w) with
    (c := mkConversation "0" "T" "topic" "goal" "room" ConvActive ["0"; "1"] [m] 4
            None (Some false)).
  - intros k c Hk. subst w. simpl in Hk.
    apply lookup_singleton_Some in Hk as [<- <-]. reflexivity.
  - intros k c m' Hk. subst w. simpl in Hk.
    apply lookup_singleton_Some in Hk as [<- <-]. by intros ?%elem_of_nil.
  - vm_compute. reflexivity.
  - set_solver.
Defined.

(** ** createConversation: when it succeeds *)

(** X5. [createConversation] returns a conversation exactly when the name
    is not stored yet, the list of participants has between 2 and 10
    entries, and every listed id is a stored agent whose status is
    'inactive'. *)
Theorem createConversation_succeeds_iff now data w :
  (∃ c w', createConversation now data w = (Ok c, w')) ↔
  ¬ conversationNameTaken w (cc_name data) ∧
  (2 ≤ length (cc_participantIds data) ≤ 10)%nat ∧
  ∀ id, id ∈ cc_participantIds data →
    ∃ a, agentTable w !! id = Some a ∧ agent_status a = AgentInactive.
Proof.
  rewrite createConversation_eq, <- firstUnavailable_None.
  destruct (bool_decide_reflect (conversationNameTaken w (cc_name data))) as [Ht|Ht].
  { split; [by intros (c & w' & ?)|tauto]. }
  destruct (Nat.ltb_spec (length (cc_participantIds data)) 2) as [Hlo|Hlo]; simpl.
  { split; [by intros (c & w' & ?)|lia]. }
  destruct (Nat.ltb_spec 10 (length (cc_participantIds data))) as [Hhi|Hhi]; simpl.
  { split; [by intros (c & w' & ?)|lia]. }
  destruct (firstUnavailable _ _) as [e|].
  - split; [by intros (c & w' & ?)|]. by intros (_ & _ & ?).
  - split; [|by eauto]. intros _. split; [done|]. split; [lia|done].
Qed.

(** X6. The participant count is the length of the list, not the number of
    distinct agents: a list that names one inactive agent twice is accepted,
    and the conversation it creates has that agent as its two participants. *)
Theorem createConversation_accepts_repeated_participant now data w id a :
  cc_participantIds data = [id; id] →
  agentTable w !! id = Some a → agent_status a = AgentInactive →
  ¬ conversationNameTaken w (cc_name data) →
  ∃ c w', createConversation now data w = (Ok c, w') ∧
          conv_participants c = [id; id] ∧ conv_status c = ConvActive ∧
          conversationTable w' !! conv_id c = Some c ∧
          agentTable w' !! id = Some (setStatus AgentActive a).
Proof.
  intros Hids Ha Hs Hfree. rewrite createConversation_eq.
  rewrite bool_decide_eq_false_2 by done. rewrite Hids. simpl.
  rewrite Ha, Hs. simpl. eexists _, _. split; [done|]. simpl.
  split; [done|]. split; [done|]. rewrite lookup_insert_eq. split; [done|].
  change (updateAll (setStatus AgentActive) [id; id] (agentTable w) !! id
          = Some (setStatus AgentActive a)).
  rewrite updateAll_lookup by done.
  destruct (decide (id ∈ [id; id])) as [_|Hn]; [by rewrite Ha|].
  destruct Hn. by left.
Qed.

Lemma createConversation_accepts_repeated_participant_witness :
  let alice := mkAgent "0" "alice" Learning None AgentInactive 1 in
  let w := mkWorld {[ "0" := alice ]} ∅ in
  ∃ c w', createConversation 5
            (mkCreateConversationDTO "T" "topic" "goal" "room" ["0"; "0"]) w
          = (Ok c, w') ∧ conv_participants c = ["0"; "0"].
Proof.
  intros alice w.
  destruct (createConversation_accepts_repeated_participant 5
              (mkCreateConversationDTO "T" "topic" "goal" "room" ["0"; "0"])
              w "0" alice eq_refl eq_refl eq_refl)
    as (c & w' & Hcall & Hp & _).
  - vm_compute. by intros ?%Exists_nil.
  - by exists c, w'.
Defined.

(** ** ConversationService: the queries *)

Lemma run_agents_findAll w : agents_findAll agentStore w = (Ok (allAgents w), w).
Proof. reflexivity. Qed.

Lemma busy_set w id :
  id ∈ (list_to_set
          (flat_map conv_participants
             (List.filter (statusIs ConvActive) (allConversations w))) : gset Id)
  ↔ busyIn w id.
Proof.
  rewrite elem_of_list_to_set, list_elem_of_In, in_flat_map. unfold busyIn. split.
  - intros (c & Hc & Hid). apply filter_In in Hc as [Hc Hs].
    exists c. rewrite list_elem_of_In. split; [done|].
    split; [by apply bool_decide_eq_true in Hs|by apply list_elem_of_In].
  - intros (c & Hc & Hs & Hid). exists c. split; [|by apply list_elem_of_In].
    apply filter_In. split; [by apply list_elem_of_In|].
    by apply bool_decide_eq_true.
Qed.

Lemma getAvailableAgents_eq w :
  getAvailableAgents w =
  (Ok (List.filter
         (fun agent =>
            negb (bool_decide (agent_id agent ∈
                    (list_to_set
                       (flat_map conv_participants
                          (List.filter (statusIs ConvActive) (allConversations w)))
                     : gset Id))) &&
            bool_decide (agent_status agent = AgentInactive))
         (allAgents w)), w).
Proof.
  unfold ConversationQueries.getAvailableAgents.
  rewrite run_bind, run_agents_findAll. cbv beta iota zeta. by run.
Qed.

(** X11. [getAvailableAgents] reads without writing and returns the stored
    agents that are inactive and are no participant of an active
    conversation.  When every agent is stored under its id and the
    reservation invariant holds, that is the list of the inactive agents, in
    the order of [getAllAgents]; and when every agent is stored under its
    id, any list of 2 to 10 ids of returned agents is accepted by
    [createConversation] under a free name. *)
Theorem getAvailableAgents_contract w :
  ∃ agents,
    getAvailableAgents w = (Ok agents, w) ∧
    (∀ a, a ∈ agents ↔
          a ∈ allAgents w ∧ agent_status a = AgentInactive ∧ ¬ busyIn w (agent_id a)) ∧
    (agentsKeyed w → reservedIffParticipating w →
     agents = List.filter (fun a => bool_decide (agent_status a = AgentInactive))
                (allAgents w)) ∧
    (agentsKeyed w →
     ∀ now data,
       ¬ conversationNameTaken w (cc_name data) →
       (2 ≤ length (cc_participantIds data) ≤ 10)%nat →
       (∀ id, id ∈ cc_participantIds data → ∃ a, a ∈ agents ∧ agent_id a = id) →
       ∃ c w', createConversation now data w = (Ok c, w')).
Proof.
  rewrite getAvailableAgents_eq. eexists. split; [done|].
  assert (∀ a, a ∈ List.filter
                 (fun agent =>
                    negb (bool_decide (agent_id agent ∈
                            (list_to_set
                               (flat_map conv_participants
                                  (List.filter (statusIs ConvActive)
                                     (allConversations w))) : gset Id))) &&
                    bool_decide (agent_status agent = AgentInactive))
                 (allAgents w) ↔
               a ∈ allAgents w ∧ agent_status a = AgentInactive ∧
               ¬ busyIn w (agent_id a)) as Hin.
  { intros a. rewrite list_elem_of_In, filter_In, <- list_elem_of_In.
    rewrite andb_true_iff, negb_true_iff, bool_decide_eq_false, bool_decide_eq_true.
    rewrite busy_set. tauto. }
  split; [done|]. split.
  - intros Hkeys Hres. apply filter_ext_in. intros a Ha.
    apply list_elem_of_In, elem_of_allAgents in Ha as [k Hk].
    destruct (bool_decide_reflect (agent_status a = AgentInactive)) as [Hs|Hs];
      [|apply andb_false_r].
    rewrite andb_true_r, negb_true_iff, bool_decide_eq_false, busy_set.
    intros (c & Hc & Hact & Hid). apply elem_of_allConversations in Hc as [cid Hc].
    rewrite (Hkeys k a Hk) in Hid.
    assert (agent_status a = AgentActive) as Hbusy.
    { apply (Hres k a Hk). exists cid, c. split; [done|]. split; [by left|done]. }
    congruence.
  - intros Hkeys now data Hfree Hlen Hids.
    rewrite createConversation_eq, bool_decide_eq_false_2 by done.
    destruct (Nat.ltb_spec (length (cc_participantIds data)) 2); [lia|].
    destruct (Nat.ltb_spec 10 (length (cc_participantIds data))); [lia|]. simpl.
    destruct (firstUnavailable _ _) as [e|] eqn:Hf; [|by eauto].
    exfalso. assert (firstUnavailable (agentTable w) (cc_participantIds data) = None)
      as Hn; [|congruence].
    apply firstUnavailable_None. intros id Hid.
    destruct (Hids id Hid) as (a & Ha & <-). apply Hin in Ha as (Ha & Hs & _).
    apply elem_of_allAgents in Ha as [k Hk].
    exists a. split; [|done]. by rewrite (Hkeys k a Hk).
Qed.

(** ** getStatistics *)

Lemma run_map_async_read {S A B} (xs : list A) (f : A → M S B) (g : A → S → B) s :
  (∀ x s, f x s = (Ok (g x s), s)) →
  map_async xs f s = (Ok ((fun x => g x s) <$> xs), s).
Proof.
  intros Hf. induction xs as [|x xs IH]; [done|].
  cbn [map_async]. rewrite run_bind, Hf. cbv beta iota zeta.
  rewrite run_bind, IH. cbv beta iota zeta. by rewrite run_ret.
Qed.

Lemma bump_sum key counts : sum_list (bump key counts).*2 = S (sum_list counts.*2).
Proof.
  induction counts as [|[k n] rest IH]; [done|]. simpl.
  destruct (String.eqb k key); simpl; [lia|]. unfold fmap in IH. lia.
Qed.

Lemma bumpAll_sum keys counts :
  sum_list (bumpAll keys counts).*2 = (length keys + sum_list counts.*2)%nat.
Proof.
  unfold bumpAll. revert counts. induction keys as [|k keys IH]; intros counts; [done|].
  simpl. rewrite IH, bump_sum. lia.
Qed.

Lemma bump_keys key counts :
  (bump key counts).*1 = if bool_decide (key ∈ counts.*1) then counts.*1
                         else (counts.*1 ++ [key])%list.
Proof.
  induction counts as [|[k n] rest IH]; [done|]. cbn [bump].
  destruct (String.eqb_spec k key) as [->|Hne]; rewrite !fmap_cons; cbn [fst].
  - rewrite bool_decide_eq_true_2; [done|by left].
  - rewrite IH. destruct (bool_decide_reflect (key ∈ rest.*1)) as [Hin|Hnin].
    + rewrite bool_decide_eq_true_2; [done|by right].
    + rewrite bool_decide_eq_false_2; [done|].
      intros [?|?]%elem_of_cons; congruence.
Qed.

Lemma bump_NoDup key counts : NoDup counts.*1 → NoDup (bump key counts).*1.
Proof.
  intros Hnd. rewrite bump_keys.
  destruct (bool_decide_reflect (key ∈ counts.*1)); [done|].
  apply NoDup_app. split; [done|]. split; [|apply NoDup_singleton].
  intros x Hx ->%list_elem_of_singleton. done.
Qed.

Lemma bumpAll_NoDup keys counts : NoDup counts.*1 → NoDup (bumpAll keys counts).*1.
Proof.
  unfold bumpAll. revert counts. induction keys as [|k keys IH]; intros counts Hnd;
    [done|].
  simpl. by apply IH, bump_NoDup.
Qed.

Lemma getCount_bump key counts k :
  getCount (bump key counts) k =
  (getCount counts k + if String.eqb key k then 1 else 0)%nat.
Proof.
  unfold getCount. induction counts as [|[k0 n] rest IH]; simpl.
  - destruct (String.eqb key k); done.
  - destruct (String.eqb_spec k0 key) as [->|Hne]; simpl.
    + destruct (String.eqb key k); simpl; lia.
    + destruct (String.eqb_spec k0 k) as [->|Hne']; simpl; [|done].
      destruct (String.eqb_spec key k); [congruence|lia].
Qed.

Lemma getCount_bumpAll keys counts k :
  getCount (bumpAll keys counts) k =
  (getCount counts k + length (List.filter (fun key => String.eqb key k) keys))%nat.
Proof.
  unfold bumpAll. revert counts. induction keys as [|key keys IH]; intros counts.
  - simpl. lia.
  - simpl. rewrite IH, getCount_bump. destruct (String.eqb key k); simpl; lia.
Qed.

Lemma getCount_entry counts k n :
  NoDup counts.*1 → (k, n) ∈ counts → getCount counts k = n.
Proof.
  unfold getCount. induction counts as [|[k0 n0] rest IH]; [by intros _ ?%elem_of_nil|].
  simpl. intros [Hk0 Hnd]%NoDup_cons [[= -> ->]|Hin]%elem_of_cons.
  - by rewrite String.eqb_refl.
  - destruct (String.eqb_spec k0 k) as [->|Hne]; [|by apply IH].
    destruct Hk0. by apply (list_elem_of_fmap_2 fst) in Hin.
Qed.

Lemma bump_positive key counts :
  Forall (fun e => (0 < e.2)%nat) counts → Forall (fun e => (0 < e.2)%nat) (bump key counts).
Proof.
  induction 1 as [|[k n] rest Hn Hrest IH]; simpl.
  - repeat constructor.
  - destruct (String.eqb k key); constructor; simpl in *; try done. lia.
Qed.

Lemma bumpAll_positive keys counts :
  Forall (fun e => (0 < e.2)%nat) counts →
  Forall (fun e => (0 < e.2)%nat) (bumpAll keys counts).
Proof.
  unfold bumpAll. revert counts. induction keys as [|k keys IH]; intros counts H;
    [done|].
  simpl. by apply IH, bump_positive.
Qed.

Lemma insertByCount_perm x sorted : insertByCount x sorted ≡ₚ x :: sorted.
Proof.
  induction sorted as [|y rest IH]; [done|]. simpl.
  destruct (ac_count x <? ac_count y)%nat; [|done].
  rewrite IH. apply perm_swap.
Qed.

Lemma sortByCount_perm entries : sortByCount entries ≡ₚ entries.
Proof.
  induction entries as [|x rest IH]; [done|]. simpl.
  by rewrite insertByCount_perm, IH.
Qed.

Lemma descending_cons x l :
  descending (x :: l) ↔
  (∀ y, y ∈ l → (ac_count y ≤ ac_count x)%nat) ∧ descending l.
Proof.
  split.
  - intros Hd. split.
    + intros y [j Hj]%list_elem_of_lookup_1. apply (Hd 0%nat (S j) x y); [lia|done..].
    + intros i j a b Hij Ha Hb. apply (Hd (S i) (S j) a b); [lia|done..].
  - intros [Hx Hl] i j a b Hij Ha Hb. destruct i as [|i], j as [|j]; simpl in *.
    + injection Ha as <-. by injection Hb as <-.
    + injection Ha as <-. apply Hx. by eapply list_elem_of_lookup_2.
    + lia.
    + apply (Hl i j a b); [lia|done..].
Qed.

Lemma insertByCount_descending x sorted :
  descending sorted → descending (insertByCount x sorted).
Proof.
  induction sorted as [|y rest IH]; intros Hd; simpl.
  - apply descending_cons. split; [by intros y ?%elem_of_nil|done].
  - apply descending_cons in Hd as [Hy Hrest].
    destruct (Nat.ltb_spec (ac_count x) (ac_count y)) as [Hlt|Hge].
    + apply descending_cons. split; [|by apply IH].
      intros z Hz. rewrite insertByCount_perm in Hz.
      apply elem_of_cons in Hz as [->|Hz]; [lia|by apply Hy].
    + apply descending_cons. split.
      * intros z [->|Hz]%elem_of_cons; [done|]. specialize (Hy z Hz). lia.
      * apply descending_cons. by split.
Qed.

Lemma sortByCount_descending entries : descending (sortByCount entries).
Proof.
  induction entries as [|x rest IH]; simpl.
  - intros i j x y _ Hx. by rewrite lookup_nil in Hx.
  - by apply insertByCount_descending.
Qed.

Lemma status_partition cs :
  length cs =
  (length (List.filter (statusIs ConvActive) cs) +
   length (List.filter (statusIs ConvPaused) cs) +
   length (List.filter (statusIs ConvCompleted) cs) +
   length (List.filter (statusIs ConvTerminated) cs))%nat.
Proof.
  induction cs as [|c cs IH]; [done|]. unfold statusIs in *. simpl.
  destruct (conv_status c); simpl; lia.
Qed.

Lemma agentMapGet_stored w id :
  agentsKeyed w → agentMapGet (allAgents w) id = agentTable w !! id.
Proof.
  intros Hkeys. unfold agentMapGet.
  destruct (List.find _ _) as [a|] eqn:Hfind.
  - apply find_some in Hfind as [Hin Hid]. apply String.eqb_eq in Hid.
    rewrite <- in_rev, <- list_elem_of_In in Hin.
    apply elem_of_allAgents in Hin as [k Hk].
    rewrite <- Hid, (Hkeys k a Hk). done.
  - destruct (agentTable w !! id) as [a|] eqn:Ha; [|done]. exfalso.
    assert (In a (rev (allAgents w))) as Hin.
    { rewrite <- in_rev, <- list_elem_of_In. apply elem_of_allAgents. eauto. }
    pose proof (find_none _ _ Hfind a Hin) as Hne. simpl in Hne.
    rewrite (Hkeys id a Ha), String.eqb_refl in Hne. done.
Qed.

Lemma getStatistics_eq w :
  getStatistics w =
  (Ok (let named (entry : Id * nat) :=
         mkAgentCount entry.1 (agentNameOr (allAgents w) entry.1) entry.2 in
       {| totalMessages := length (fetchedMessages w);
          messagesByAgent :=
            sortByCount (named <$> bumpAll (msg_senderId <$> fetchedMessages w) []);
          conversationsByAgent :=
            sortByCount
              (named <$> foldl (fun counts conv => bumpAll (conv_participants conv) counts)
                           [] (allConversations w));
          conversationStats :=
            {| stats_total := length (allConversations w);
               stats_active :=
                 length (List.filter (statusIs ConvActive) (allConversations w));
               stats_paused :=
                 length (List.filter (statusIs ConvPaused) (allConversations w));
               stats_completed :=
                 length (List.filter (statusIs ConvCompleted) (allConversations w));
               stats_terminated :=
                 length (List.filter (statusIs ConvTerminated) (allConversations w))
            |} |}), w).
Proof.
  unfold ConversationQueries.getStatistics.
  rewrite run_bind, run_convs_findAll. cbv beta iota zeta.
  rewrite run_bind.
  rewrite (run_map_async_read _ _ (fun conv w => messagesOf w (conv_id conv)))
    by (intros; apply run_convs_getMessages).
  cbv beta iota zeta. rewrite run_bind, run_agents_findAll. cbv beta iota zeta.
  by rewrite run_ret.
Qed.

Lemma sum_counts_named (named : Id * nat → AgentCount) counts :
  (∀ e, ac_count (named e) = e.2) →
  sum_list (ac_count <$> sortByCount (named <$> counts)) = sum_list counts.*2.
Proof.
  intros Hn. rewrite sortByCount_perm, <- list_fmap_compose.
  f_equal. apply list_fmap_ext. intros _ e _. apply Hn.
Qed.

Lemma foldl_bumpAll_sum cs counts :
  sum_list (foldl (fun counts conv => bumpAll (conv_participants conv) counts)
              counts cs).*2 =
  (sum_list (length ∘ conv_participants <$> cs) + sum_list counts.*2)%nat.
Proof.
  revert counts. induction cs as [|c cs IH]; intros counts; [done|].
  simpl. rewrite IH, bumpAll_sum. unfold fmap. lia.
Qed.

Lemma filter_sender k ms :
  length (List.filter (fun key => String.eqb key k) (msg_senderId <$> ms)) = sentBy k ms.
Proof.
  unfold sentBy. induction ms as [|m ms IH]; [done|].
  rewrite fmap_cons. cbn [List.filter].
  destruct (String.eqb (msg_senderId m) k); cbn [length]; by rewrite IH.
Qed.


(** ** Text: colons, prefixes and substrings *)

Lemma splitAtColon_Some s a b :
  splitAtColon s = Some (a, b) ↔ s = a ++ String ":" b ∧ colonFree a.
Proof.
  revert a b. induction s as [|c s IH]; intros a b; simpl.
  - split; [done|]. intros [H _]. by destruct a.
  - destruct (Ascii.eqb_spec c ":"%char) as [->|Hc].
    + split.
      * intros [= <- <-]. split; [done|]. intros a' b' H. by destruct a'.
      * intros [H Hfree]. destruct a as [|c' a']; [by injection H as ->|].
        exfalso. injection H as <- _. apply (Hfree "" a'). done.
    + destruct (splitAtColon s) as [[name tail]|] eqn:Hs.
      * split.
        -- intros [= <- <-]. destruct (proj1 (IH name tail) eq_refl) as [-> Hfree].
           split; [done|]. intros a' b' H. destruct a' as [|c' a'].
           ++ injection H as ->. done.
           ++ injection H as _ H. by apply (Hfree a' b').
        -- intros [H Hfree]. destruct a as [|c' a'].
           ++ injection H as ->. done.
           ++ injection H as <- H.
              assert (colonFree a') as Hfree'.
              { intros x y ->. by apply (Hfree (String c x) y). }
              pose proof (proj2 (IH a' b) (conj H Hfree')) as [= -> ->]. done.
      * split; [done|]. intros [H Hfree]. destruct a as [|c' a'].
        -- injection H as ->. done.
        -- injection H as <- H.
           assert (colonFree a') as Hfree'.
           { intros x y ->. by apply (Hfree (String c x) y). }
           by pose proof (proj2 (IH a' b) (conj H Hfree')).
Qed.

Lemma colonFree_None s : splitAtColon s = None → colonFree s.
Proof.
  intros Hnone a b ->. revert Hnone. induction a as [|c a IH]; simpl; [done|].
  destruct (Ascii.eqb c ":"%char); [done|].
  by destruct (splitAtColon (a ++ String ":" b)) as [[? ?]|].
Qed.

Lemma prefix_spec needle hay :
  String.prefix needle hay = true ↔ ∃ post, hay = needle ++ post.
Proof.
  revert hay. induction needle as [|c needle IH]; intros hay.
  - split; [by exists hay|by destruct hay].
  - destruct hay as [|c' hay]; simpl; [split; [done|by intros [? ?]]|].
    destruct (Ascii.ascii_dec c c') as [->|Hne].
    + rewrite IH. split; intros [post H]; exists post.
      * simpl. by rewrite H.
      * by injection H.
    + split; [done|]. intros [post [= ? _]]. done.
Qed.

Lemma includesText_spec hay needle :
  includesText hay needle = true ↔ ∃ pre post, hay = pre ++ needle ++ post.
Proof.
  induction hay as [|c hay IH].
  - change (includesText "" needle) with (String.prefix needle "" || false).
    rewrite orb_false_r, prefix_spec. split.
    + intros [post H]. by exists "", post.
    + intros (pre & post & H). destruct pre; [by exists post|done].
  - change (includesText (String c hay) needle)
      with (String.prefix needle (String c hay) || includesText hay needle).
    rewrite orb_true_iff, prefix_spec, IH. split.
    + intros [[post H]|(pre & post & H)].
      * by exists "", post.
      * exists (String c pre), post. by rewrite H.
    + intros (pre & post & H). destruct pre as [|c' pre].
      * left. by exists post.
      * right. injection H as _ H. by exists pre, post.
Qed.

(** ** parseResponse *)

(** X13. What [parseResponse] returns.  A result names a participant of the
    roster: the reply is a non-empty text without colon, a colon and a
    non-empty rest; the participant is one whose name equals the text before
    the colon up to case and surrounding white space; and the content is the
    rest, trimmed.  A failure is MalformedResponse or UnknownSpeaker with
    the names of the roster; a reply without colon is malformed. *)
Theorem parseResponse_sound response roster :
  match GenerationDriver.parseResponse response roster with
  | Ok (id, content) =>
      ∃ label rest p,
        response = label ++ String ":" rest ∧ colonFree label ∧
        label ≠ "" ∧ rest ≠ "" ∧
        p ∈ roster ∧ part_id p = id ∧ normalName (part_name p) = normalName label ∧
        content = trim rest
  | Throw e =>
      (e = MalformedResponse ∨
       ∃ label, e = UnknownSpeaker label (part_name <$> roster)) ∧
      (colonFree response → e = MalformedResponse)
  end.
Proof.
  unfold GenerationDriver.parseResponse.
  destruct (splitAtColon response) as [[label rest]|] eqn:Hsplit.
  - apply splitAtColon_Some in Hsplit as [-> Hfree].
    destruct (String.eqb_spec label "") as [->|Hl]; simpl.
    { split; [by left|done]. }
    destruct (String.eqb_spec rest "") as [->|Hr]; simpl.
    { split; [by left|done]. }
    destruct (List.find _ roster) as [p|] eqn:Hfind.
    + apply find_some in Hfind as [Hin Hname]. apply String.eqb_eq in Hname.
      exists label, rest, p. rewrite <- list_elem_of_In in Hin. done.
    + split; [right; by eexists|]. intros Hno. by destruct (Hno label rest).
  - split; [by left|done].
Qed.

Lemma find_unique {A} (f : A → bool) (key : A → string) (l : list A) x :
  NoDup (key <$> l) → x ∈ l → f x = true →
  (∀ y, y ∈ l → f y = true → key y = key x) →
  List.find f l = Some x.
Proof.
  intros Hnd Hx Hfx Hkey. destruct (List.find f l) as [y|] eqn:Hfind.
  - apply find_some in Hfind as [Hy Hfy]. rewrite <- list_elem_of_In in Hy.
    f_equal. apply (NoDup_fmap_inj_on key l y x Hnd Hy Hx). by apply Hkey.
  - rewrite list_elem_of_In in Hx. by rewrite (find_none _ _ Hfind x Hx) in Hfx.
Qed.

(** X14. A reply in the format the prompt asks for is attributed to its
    speaker.  In a roster whose names are distinct up to case and
    surrounding white space, a reply made of a non-empty label without colon
    that equals the name of a participant up to case and surrounding white
    space, a colon and a non-empty rest parses to the id of that participant
    and the trimmed rest. *)
Theorem parseResponse_attributes p roster label rest :
  p ∈ roster →
  NoDup (normalName ∘ part_name <$> roster) →
  colonFree label → label ≠ "" → rest ≠ "" →
  normalName label = normalName (part_name p) →
  GenerationDriver.parseResponse (label ++ String ":" rest) roster
  = Ok (part_id p, trim rest).
Proof.
  intros Hp Hnd Hfree Hl Hr Hname. unfold GenerationDriver.parseResponse.
  rewrite (proj2 (splitAtColon_Some _ label rest)) by done.
  rewrite (proj2 (String.eqb_neq _ _) Hl), (proj2 (String.eqb_neq _ _) Hr). simpl.
  rewrite (find_unique _ (normalName ∘ part_name) roster p Hnd Hp); [done| |].
  - apply String.eqb_eq. symmetry. exact Hname.
  - intros y _ Hy. apply String.eqb_eq in Hy. simpl. unfold normalName in *. congruence.
Qed.

Lemma parseResponse_attributes_witness :
  let carol := mkParticipant "2" "carol" Specialist None in
  let dave := mkParticipant "3" "Dave" Learning None in
  GenerationDriver.parseResponse "  DAVE :  I agree. " [carol; dave]
  = Ok ("3", "I agree.").
Proof.
  intros carol dave.
  apply (parseResponse_attributes dave [carol; dave] "  DAVE " "  I agree. ").
  - set_solver.
  - apply (bool_decide_unpack _). vm_compute. reflexivity.
  - by apply colonFree_None.
  - done.
  - done.
  - vm_compute. reflexivity.
Defined.

(** ** The goal check and the context of a conversation *)

Lemma with_world_same s : with_world (world s) s = s.
Proof. by destruct s. Qed.

Lemma run_read_agent id s :
  onWorld (agents_findById agentStore id) s = (Ok (agentTable (world s) !! id), s).
Proof.
  rewrite run_onWorld, run_agents_findById. cbn [fst snd]. by rewrite with_world_same.
Qed.

Lemma run_read_conversation id s :
  onWorld (ConversationService.findById conversationStore id) s
  = (Ok (conversationTable (world s) !! id), s).
Proof.
  unfold ConversationService.findById.
  rewrite run_onWorld, run_convs_findById. cbn [fst snd]. by rewrite with_world_same.
Qed.

Lemma run_read_messages id s :
  onWorld (getConversationMessages id) s =
  match conversationTable (world s) !! id with
  | None => (Throw NotFound, s)
  | Some c => (Ok (conv_messages c), s)
  end.
Proof.
  rewrite run_onWorld. unfold ConversationService.getConversationMessages.
  rewrite run_bind, run_convs_findById. cbv beta iota zeta.
  destruct (conversationTable (world s) !! id) as [c|] eqn:Hc.
  - rewrite run_convs_getMessages, Hc. cbn [fst snd]. by rewrite with_world_same.
  - rewrite run_throw. cbn [fst snd]. by rewrite with_world_same.
Qed.

Lemma findParticipant_Some roster id p :
  GenerationDriver.findParticipant roster id = Some p → p ∈ roster ∧ part_id p = id.
Proof.
  unfold GenerationDriver.findParticipant. intros [Hin Hid]%find_some.
  rewrite <- list_elem_of_In in Hin. by apply String.eqb_eq in Hid.
Qed.

Lemma findParticipant_is_Some roster id :
  (∃ p, p ∈ roster ∧ part_id p = id) → is_Some (GenerationDriver.findParticipant roster id).
Proof.
  intros (p & Hin & Hid). unfold GenerationDriver.findParticipant.
  destruct (List.find _ roster) as [q|] eqn:Hfind; [done|].
  rewrite list_elem_of_In in Hin.
  pose proof (find_none _ _ Hfind p Hin) as Hne. simpl in Hne.
  by rewrite Hid, String.eqb_refl in Hne.
Qed.

Lemma run_formatLines context messages s :
  (∀ m, m ∈ messages → ∃ p, p ∈ ctx_participants context ∧ part_id p = msg_senderId m) →
  ∃ lines, map_async messages (GenerationDriver.formatLine context) s = (Ok lines, s).
Proof.
  induction messages as [|m messages IH]; intros Hall; [by eexists|].
  cbn [map_async]. rewrite run_bind. unfold GenerationDriver.formatLine at 1.
  destruct (findParticipant_is_Some (ctx_participants context) (msg_senderId m))
    as [p ->]; [apply Hall; by left|].
  rewrite run_ret. cbv beta iota zeta. rewrite run_bind.
  destruct IH as [lines ->]; [intros m' Hm'; apply Hall; by right|].
  cbv beta iota zeta. rewrite run_ret. by eexists.
Qed.

Lemma verdict_saysYes content :
  includesText
    match content with
    | None => "no"
    | Some text => if String.eqb (toLowerCase text) "" then "no" else toLowerCase text
    end "yes" = true ↔ saysYes content.
Proof.
  unfold saysYes. destruct content as [text|].
  - destruct (String.eqb_spec (toLowerCase text) "") as [Hempty|Hne].
    + split; [done|]. intros (t & pre & post & [= <-] & H). rewrite Hempty in H.
      by destruct pre.
    + rewrite includesText_spec. split.
      * intros (pre & post & H). by exists text, pre, post.
      * intros (t & pre & post & [= <-] & H). by exists pre, post.
  - split; [done|]. by intros (t & pre & post & [=] & _).
Qed.

(** X15. The goal check.  Without a client, a context or a stored
    conversation, [checkGoalAchievement] throws before the provider is
    called.  Otherwise, when every sender of the last 10 messages is in the
    roster, it calls the provider exactly once and writes nothing else; a
    rejected call throws ProviderError, and the goal counts as achieved
    exactly when the reply contains "yes" in any case, anywhere in the
    text; no reply and an empty reply count as not achieved. *)
Theorem checkGoalAchievement_verdict id s :
  (clientOf s = None → checkGoalAchievement id s = (Throw ClientMissing, s)) ∧
  (is_Some (clientOf s) → contextsOf s !! id = None →
     checkGoalAchievement id s = (Throw ContextError, s)) ∧
  (is_Some (clientOf s) → is_Some (contextsOf s !! id) →
     conversationTable (world s) !! id = None →
     checkGoalAchievement id s = (Throw NotFound, s)) ∧
  (∀ c context conversation,
     clientOf s = Some c → contextsOf s !! id = Some context →
     conversationTable (world s) !! id = Some conversation →
     (∀ m, m ∈ lastN 10 (conv_messages conversation) →
        ∃ p, p ∈ ctx_participants context ∧ part_id p = msg_senderId m) →
     let s' := with_ai (set_openai (Some (mkOpenAI (script c) (S (served c)))) (ai s)) s in
     match script c (served c) with
     | Rejects => checkGoalAchievement id s = (Throw ProviderError, s')
     | Resolves content =>
         ∃ verdict, checkGoalAchievement id s = (Ok verdict, s') ∧
                    (verdict = true ↔ saysYes content)
     end).
Proof.
  unfold clientOf, contextsOf, GenerationDriver.checkGoalAchievement.
  rewrite run_bind, run_get. cbv beta iota zeta.
  split; [by intros ->|]. split; [by intros [c ->] ->|].
  split.
  - intros [c ->] [context ->] Hnone.
    by rewrite run_bind, run_read_conversation, Hnone.
  - intros c context conversation Hcl Hctx Hc Hsenders. rewrite Hcl, Hctx.
    rewrite run_bind, run_read_conversation, Hc. cbv beta iota zeta.
    rewrite run_bind, run_read_messages, Hc. cbv beta iota zeta.
    rewrite run_bind.
    destruct (run_formatLines context (lastN 10 (conv_messages conversation)) s Hsenders)
      as [lines ->].
    cbv beta iota zeta. rewrite run_bind.
    destruct (script c (served c)) as [|content] eqn:Hs.
    + by rewrite (run_chat s c Hcl), Hs.
    + rewrite (run_chat s c Hcl), Hs. cbv beta iota zeta. rewrite run_ret.
      eexists. split; [done|]. apply verdict_saysYes.
Qed.

(** An instance: the reply "Not yet." contains "yes" across no word, but
    "Yesterday they agreed" does, and counts as an achieved goal. *)
Lemma checkGoalAchievement_verdict_witness :
  let hello := mkMessage "0" "1" "2" "hello" (RecipientsOf ["2"; "3"]) 6 in
  let b := mkConversation "1" "B" "topic" "goal" "room" ConvActive ["2"; "3"] [hello] 5
             None (Some false) in
  let roster := [mkParticipant "2" "carol" Specialist None;
                 mkParticipant "3" "dave" Learning None] in
  let client := mkOpenAI (fun _ => Resolves (Some "Yesterday they agreed.")) 0 in
  let driver :=
    set_contexts {[ "1" := mkContext "topic" "goal" "room" roster 4 ]}
      (GenerationDriver.create 50 (Some "key") (Some client)) in
  let s := mkSystem (mkWorld ∅ {[ "1" := b ]}) driver (Scheduler.create 1000) in
  (checkGoalAchievement "1" s).1 = Ok true.
Proof.
  intros hello b roster client driver s.
  pose proof (proj2 (proj2 (proj2 (checkGoalAchievement_verdict "1" s)))
                client (mkContext "topic" "goal" "room" roster 4) b
                eq_refl eq_refl eq_refl) as H.
  simpl in H. destruct H as (verdict & -> & Hv).
  - intros m Hm. apply list_elem_of_singleton in Hm as ->.
    exists (mkParticipant "2" "carol" Specialist None). split; [by left|done].
  - simpl. f_equal. apply Hv. by exists "Yesterday they agreed.", "", "terday they agreed.".
Defined.

Lemma run_roster ids s :
  map_async ids (fun id =>
    let! agent := onWorld (agents_findById agentStore id) in
    match agent with
    | None => throw (AgentNotFound id)
    | Some agent =>
        ret (mkParticipant (agent_id agent) (agent_name agent)
               (agent_type agent) (agent_description agent))
    end) s =
  match List.find (fun id => bool_decide (agentTable (world s) !! id = None)) ids with
  | Some missing => (Throw (AgentNotFound missing), s)
  | None => (Ok (omap (fun id => participantOf <$> agentTable (world s) !! id) ids), s)
  end.
Proof.
  induction ids as [|id ids IH]; [done|].
  cbn [map_async List.find omap list_omap]. rewrite run_bind, run_bind, run_read_agent.
  cbv beta iota zeta.
  destruct (agentTable (world s) !! id) as [a|] eqn:Ha.
  - rewrite bool_decide_eq_false_2 by done. rewrite run_ret. cbv beta iota zeta.
    rewrite run_bind, IH. destruct (List.find _ ids); [done|]. by rewrite run_ret.
  - rewrite bool_decide_eq_true_2 by done. by rewrite run_throw.
Qed.

(** X16. [initializeConversation] stores, under the id of the conversation,
    a context with its topic, goal and surrounding, one roster entry per
    participant in the order of the list, and the message count 0,
    replacing a context that was there; the tables stay as they are.  When a
    participant is not stored it throws AgentNotFound for the first such id
    and stores no context. *)
Theorem initializeConversation_contract conversation s :
  ((∀ id, id ∈ conv_participants conversation → is_Some (agentTable (world s) !! id)) →
   ∃ roster,
     initializeConversation conversation s =
     (Ok tt,
      with_ai (set_contexts
                 (<[conv_id conversation :=
                      mkContext (conv_topic conversation) (conv_goal conversation)
                        (conv_surrounding conversation) roster 0]> (contextsOf s))
                 (ai s)) s) ∧
     Forall2 (fun id p => ∃ a, agentTable (world s) !! id = Some a ∧ p = participantOf a)
       (conv_participants conversation) roster) ∧
  (∀ id, id ∈ conv_participants conversation → agentTable (world s) !! id = None →
   ∃ missing before rest,
     conv_participants conversation = (before ++ missing :: rest)%list ∧
     agentTable (world s) !! missing = None ∧
     (∀ x, x ∈ before → is_Some (agentTable (world s) !! x)) ∧
     initializeConversation conversation s = (Throw (AgentNotFound missing), s)).
Proof.
  unfold GenerationDriver.initializeConversation, contextsOf.
  rewrite run_bind, run_roster. split.
  - intros Hall.
    destruct (List.find _ _) as [missing|] eqn:Hfind.
    { apply find_some in Hfind as [Hin Hnone]. rewrite <- list_elem_of_In in Hin.
      apply bool_decide_eq_true in Hnone. destruct (Hall missing Hin) as [a Ha].
      congruence. }
    rewrite run_modify. eexists. split; [done|].
    clear Hfind. induction (conv_participants conversation) as [|id ids IH]; [constructor|].
    cbn [omap list_omap]. destruct (Hall id) as [a Ha]; [by left|]. rewrite Ha. simpl.
    constructor; [by exists a|]. apply IH. intros x Hx. apply Hall. by right.
  - intros id Hin Hnone.
    destruct (List.find _ _) as [missing|] eqn:Hfind.
    + clear id Hin Hnone.
      induction (conv_participants conversation) as [|x xs IH]; [done|].
      cbn [List.find] in Hfind.
      destruct (bool_decide_reflect (agentTable (world s) !! x = None)) as [Hx|Hx].
      * injection Hfind as ->. exists missing, [], xs.
        split; [done|]. split; [done|]. split; [by intros y ?%elem_of_nil|done].
      * destruct (IH Hfind) as (m & before & rest & -> & Hm & Hbefore & Hrun).
        exists m, (x :: before), rest. split; [done|]. split; [done|]. split; [|done].
        intros y [Heq|Hy]%elem_of_cons; [|by apply Hbefore]. subst y.
        by destruct (agentTable (world s) !! x).
    + exfalso. rewrite list_elem_of_In in Hin.
      pose proof (find_none _ _ Hfind id Hin) as Hne. simpl in Hne.
      by rewrite bool_decide_eq_true_2 in Hne.
Qed.

(** ** Properties kept by a computation *)

Section Preserves.
Context {S : Type} (P : S → Prop).

Lemma preserves_ret {A} (a : A) : preserves P (ret a).
Proof. by intros s. Qed.

Lemma preserves_throw {A} e : preserves P (@throw S A e).
Proof. by intros s. Qed.

Lemma preserves_throw_if c e : preserves P (throw_if c e).
Proof. intros s. by destruct c. Qed.

Lemma preserves_get : preserves P get.
Proof. by intros s. Qed.

Lemma preserves_liftResult {A} (r : Result A) : preserves P (liftResult r).
Proof. by intros s. Qed.

Lemma preserves_modify g : (∀ s, P s → P (g s)) → preserves P (modify g).
Proof. intros H s. apply H. Qed.

Lemma preserves_bind {A B} (m : M S A) (k : A → M S B) :
  preserves P m → (∀ a, preserves P (k a)) → preserves P (bind m k).
Proof.
  intros Hm Hk s Hs. rewrite run_bind. specialize (Hm s Hs).
  destruct (m s) as [[a|e] s']; simpl in *; [|done]. by apply Hk.
Qed.

Lemma preserves_try_catch {A} (body : M S A) handler :
  preserves P body → (∀ e, preserves P (handler e)) →
  preserves P (try_catch body handler).
Proof.
  intros Hm Hk s Hs. rewrite run_try_catch. specialize (Hm s Hs).
  destruct (body s) as [[a|e] s']; simpl in *; [done|]. by apply Hk.
Qed.

Lemma preserves_for_of {A} (xs : list A) body :
  (∀ x, preserves P (body x)) → preserves P (for_of xs body).
Proof.
  intros Hbody. induction xs as [|x xs IH]; [by intros s|].
  simpl. apply preserves_bind; [apply Hbody|done].
Qed.

Lemma preserves_map_async {A B} (xs : list A) (g : A → M S B) :
  (∀ x, preserves P (g x)) → preserves P (map_async xs g).
Proof.
  intros Hg. induction xs as [|x xs IH]; [by intros s|].
  simpl. apply preserves_bind; [apply Hg|]. intros y.
  apply preserves_bind; [done|]. intros ys. apply preserves_ret.
Qed.

(** A property of an observation is kept by what keeps the observation. *)
Lemma preserves_keeps {T A} (f : S → T) (m : M S A) :
  (∀ s s', f s' = f s → P s → P s') → keeps f m → preserves P m.
Proof. intros HP Hm s Hs. apply (HP s); [apply Hm|done]. Qed.
End Preserves.

(** ** No exception leaves the automated loop *)

Section AnyRepository.
Context (r : IConversationRepository) (ar : IAgentRepository).

Lemma handleApiError_returns e s : (GenerationDriver.handleApiError e s).1 = Ok tt.
Proof. by rewrite handleApiError_eq. Qed.

Lemma processMessage_returns now m c s :
  (GenerationDriver.processMessage r ar now m c s).1 = Ok tt.
Proof.
  unfold GenerationDriver.processMessage. rewrite run_bind, run_get.
  cbv beta iota zeta. destruct (_ || _); [done|]. rewrite run_try_catch.
  destruct (GenerationDriver.processMessage_try r ar now m c s) as [[[]|e] s1]; [done|].
  apply handleApiError_returns.
Qed.

Lemma processActiveConversations_returns now s :
  (GenerationDriver.processActiveConversations r ar now s).1 = Ok tt.
Proof.
  unfold GenerationDriver.processActiveConversations. rewrite run_bind, run_get.
  cbv beta iota zeta. destruct (_ || _); [done|]. rewrite run_try_catch.
  match goal with |- context [match ?m s with _ => _ end] =>
    destruct (m s) as [[[]|e] s1] end; [done|].
  apply handleApiError_returns.
Qed.

Lemma processConversations_returns now s :
  (Scheduler.processConversations r ar now s).1 = Ok tt.
Proof.
  unfold Scheduler.processConversations. rewrite run_try_catch.
  match goal with |- context [match ?m s with _ => _ end] =>
    destruct (m s) as [[[]|e] s1] end; done.
Qed.

Lemma tick_returns now s : (Scheduler.tick r ar now s).1 = Ok tt.
Proof.
  unfold Scheduler.tick. rewrite run_bind, run_get. cbv beta iota zeta.
  destruct (isProcessing (bg s)); [done|].
  rewrite run_bind, run_modify. cbv beta iota zeta.
  rewrite run_bind, run_try_catch.
  pose proof (processConversations_returns now (Scheduler.set_isProcessing true s)) as H.
  destruct (Scheduler.processConversations r ar now _) as [[[]|e] s1]; [|done].
  cbv beta iota zeta. by rewrite run_modify.
Qed.

(** X17. No exception leaves the automated loop, whatever the repositories
    do.  For any implementation of the two repository interfaces, also one
    whose calls throw, [processMessage], [processActiveConversations], the
    sweep [processConversations] and the timer callback return normally. *)
Theorem sweep_never_throws now s :
  (∀ message conversation,
     (GenerationDriver.processMessage r ar now message conversation s).1 = Ok tt) ∧
  (GenerationDriver.processActiveConversations r ar now s).1 = Ok tt ∧
  (Scheduler.processConversations r ar now s).1 = Ok tt ∧
  (Scheduler.tick r ar now s).1 = Ok tt.
Proof.
  split; [intros; apply processMessage_returns|].
  split; [apply processActiveConversations_returns|].
  split; [apply processConversations_returns|apply tick_returns].
Qed.

(** *** The fields of the scheduler *)

Lemma keeps_bg_handleApiError e : keeps bg (GenerationDriver.handleApiError e).
Proof. unfold GenerationDriver.handleApiError, GenerationDriver.disableService. keeps_auto. Qed.

Lemma keeps_bg_checkGoalAchievement cid :
  keeps bg (GenerationDriver.checkGoalAchievement r cid).
Proof.
  unfold GenerationDriver.checkGoalAchievement. keeps_auto. apply keeps_formatLine.
Qed.

Lemma keeps_bg_processMessage now m c :
  keeps bg (GenerationDriver.processMessage r ar now m c).
Proof.
  unfold GenerationDriver.processMessage. apply keeps_bind; [apply keeps_get|].
  intros this. destruct (_ || _); [apply keeps_ret|].
  apply keeps_try_catch; [|apply keeps_bg_handleApiError].
  unfold GenerationDriver.processMessage_try, GenerationDriver.initializeConversation,
    GenerationDriver.processMessage_generate, GenerationDriver.resetErrorCount.
  keeps_auto; try apply keeps_formatTurn; try apply keeps_generateSystemPrompt;
    try apply keeps_bg_checkGoalAchievement.
Qed.

Lemma keeps_bg_processActiveConversations now :
  keeps bg (GenerationDriver.processActiveConversations r ar now).
Proof.
  unfold GenerationDriver.processActiveConversations.
  apply keeps_bind; [apply keeps_get|].
  intros this. destruct (_ || _); [apply keeps_ret|].
  apply keeps_try_catch; [|apply keeps_bg_handleApiError].
  keeps_auto. apply keeps_bg_processMessage.
Qed.

(** *** The sweep and the scheduler *)

Lemma sweeping_bg now b0 s s' : bg s' = bg s → sweeping now b0 s → sweeping now b0 s'.
Proof. unfold sweeping. by intros ->. Qed.

Lemma sweeping_stamp now b0 id s :
  sweeping now b0 s → sweeping now b0 (Scheduler.set_lastMessageTime id now s).
Proof.
  intros (Hi & Hp & Hb & Ht). repeat split; try done. intros k. simpl.
  destruct (decide (k = id)) as [->|Hne].
  - right. by rewrite lookup_insert_eq.
  - rewrite lookup_insert_ne by done. apply Ht.
Qed.

Lemma processConversations_sweeping now b0 :
  preserves (sweeping now b0) (Scheduler.processConversations r ar now).
Proof.
  assert (∀ A (m : M System A), keeps bg m → preserves (sweeping now b0) m) as Hbg.
  { intros A m. apply preserves_keeps. intros s s'. apply sweeping_bg. }
  assert (∀ id, preserves (sweeping now b0)
                  (modify (Scheduler.set_lastMessageTime id now))) as Hstamp.
  { intros id. apply preserves_modify. intros s. apply sweeping_stamp. }
  unfold Scheduler.processConversations.
  apply preserves_try_catch; [|intros e; apply preserves_ret].
  apply preserves_bind; [apply Hbg; keeps_auto|]. intros conversations.
  apply preserves_for_of. intros conversation.
  apply preserves_bind; [apply preserves_get|]. intros this.
  destruct (_ <=? _); [|apply preserves_ret].
  apply preserves_bind; [apply Hbg; keeps_auto|]. intros messages.
  destruct (last messages) as [lastMessage|].
  - apply preserves_bind; [|done]. apply Hbg, keeps_bg_processMessage.
  - apply preserves_bind; [|done]. apply Hbg, keeps_bg_processActiveConversations.
Qed.

(** X18. The bookkeeping of the timer callback, whatever the repositories
    do.  A callback that finds a sweep in progress changes nothing.
    Otherwise it ends with the in-progress flag cleared, also when the sweep
    met an error; it never changes the timer or the interval; and each
    entry of the last-advance map is as before or is the time of this
    sweep. *)
Theorem tick_bookkeeping now s :
  (isProcessing (bg s) = true → Scheduler.tick r ar now s = (Ok tt, s)) ∧
  isProcessing (bg (Scheduler.tick r ar now s).2) = isProcessing (bg s) ∧
  intervalId (bg (Scheduler.tick r ar now s).2) = intervalId (bg s) ∧
  processInterval (bg (Scheduler.tick r ar now s).2) = processInterval (bg s) ∧
  ∀ id, lastMessageTime (bg (Scheduler.tick r ar now s).2) !! id
        = lastMessageTime (bg s) !! id ∨
        lastMessageTime (bg (Scheduler.tick r ar now s).2) !! id = Some now.
Proof.
  unfold Scheduler.tick. rewrite run_bind, run_get. cbv beta iota zeta.
  destruct (isProcessing (bg s)) eqn:Hflag.
  { rewrite run_ret. repeat split; auto. }
  split; [done|].
  rewrite run_bind, run_modify. cbv beta iota zeta. rewrite run_bind, run_try_catch.
  pose proof (processConversations_sweeping now (bg s)
                (Scheduler.set_isProcessing true s)) as Hsweep.
  pose proof (processConversations_returns now (Scheduler.set_isProcessing true s))
    as Hret.
  destruct (Scheduler.processConversations r ar now _) as [[[]|e] s1]; [|done].
  cbv beta iota zeta. rewrite run_modify. simpl in *.
  destruct Hsweep as (Hi & Hp & _ & Ht); [repeat split; auto|]. done.
Qed.
End AnyRepository.

(** ** A disabled driver *)

Lemma processActiveConversations_not_ready now s :
  ¬ ready s → processActiveConversations now s = (Ok tt, s).
Proof.
  intros H. unfold GenerationDriver.processActiveConversations.
  rewrite run_bind, run_get. cbv beta iota zeta. by rewrite not_ready_guard.
Qed.

Lemma runSteps_not_ready steps s : ¬ ready s → runSteps steps s = s.
Proof.
  intros H. unfold runSteps. induction steps as [|st steps IH]; [done|].
  simpl. unfold runStep at 2. by rewrite processMessage_not_ready.
Qed.

Lemma keeps_getAllConversations :
  keeps id (ConversationService.getAllConversations conversationStore).
Proof. by intros w. Qed.

Lemma tick_not_ready now w a :
  ¬ ready (mkSystem w a (Scheduler.create 0)) →
  preserves (fun s => world s = w ∧ ai s = a) (tick now).
Proof.
  intros Hoff.
  assert (∀ s, world s = w ∧ ai s = a → ¬ ready s) as Hstill.
  { intros s [Hw Ha] [He Hc]. apply Hoff. split; simpl; by rewrite <- Ha. }
  set (P := fun s : System => world s = w ∧ ai s = a).
  assert (∀ A (m : M World A), keeps id m → preserves P (onWorld m)) as Hread.
  { intros A m Hm s [Hw Ha]. rewrite run_onWorld. simpl. split; [|done].
    rewrite <- Hw. apply Hm. }
  assert (∀ g, (∀ s, world (g s) = world s ∧ ai (g s) = ai s) → preserves P (modify g))
    as Hmod.
  { intros g Hg. apply preserves_modify. intros s [Hw Ha].
    destruct (Hg s) as [Hw' Ha']. split; congruence. }
  unfold Scheduler.tick.
  apply preserves_bind; [apply preserves_get|]. intros this.
  destruct (isProcessing (bg this)); [apply preserves_ret|].
  apply preserves_bind; [by apply Hmod|]. intros _.
  apply preserves_bind; [|intros _; by apply Hmod].
  apply preserves_try_catch; [|intros e; apply preserves_ret].
  unfold Scheduler.processConversations.
  apply preserves_try_catch; [|intros e; apply preserves_ret].
  apply preserves_bind; [apply Hread, keeps_getAllConversations|]. intros conversations.
  apply preserves_for_of. intros conversation.
  apply preserves_bind; [apply preserves_get|]. intros this'.
  destruct (_ <=? _); [|apply preserves_ret].
  apply preserves_bind; [apply Hread, keeps_getConversationMessages|]. intros messages.
  destruct (last messages) as [lastMessage|].
  - apply preserves_bind; [|intros _; by apply Hmod].
    intros s Hs. by rewrite processMessage_not_ready by auto.
  - apply preserves_bind; [|intros _; by apply Hmod].
    intros s Hs. by rewrite processActiveConversations_not_ready by auto.
Qed.

(** X19. A driver that is disabled, or has no client, does nothing and is
    never enabled again.  [processMessage] and [processActiveConversations]
    return at once with the whole state unchanged, so does any sequence of
    steps, and a sweep of the scheduler leaves the tables and every field of
    the driver (flag, reason, error counter, contexts, client) as they
    were. *)
Theorem disabled_driver_is_inert s :
  ¬ ready s →
  (∀ now message conversation, processMessage now message conversation s = (Ok tt, s)) ∧
  (∀ now, processActiveConversations now s = (Ok tt, s)) ∧
  (∀ steps, runSteps steps s = s) ∧
  (∀ now, world (tick now s).2 = world s ∧ ai (tick now s).2 = ai s).
Proof.
  intros Hoff. split; [intros; by apply processMessage_not_ready|].
  split; [intros; by apply processActiveConversations_not_ready|].
  split; [intros; by apply runSteps_not_ready|].
  intros now. apply (tick_not_ready now (world s) (ai s)); [|done].
  intros [He Hc]. apply Hoff. by split.
Qed.

(** An instance: a driver built without an API key is disabled, and a sweep
    over an active conversation writes no message. *)
Lemma disabled_driver_is_inert_witness :
  let carol := mkAgent "2" "carol" Specialist None AgentActive 3 in
  let dave := mkAgent "3" "dave" Learning None AgentActive 4 in
  let b := mkConversation "1" "B" "topic" "goal" "room" ConvActive ["2"; "3"] [] 5
             None (Some false) in
  let w := mkWorld {[ "2" := carol; "3" := dave ]} {[ "1" := b ]} in
  let driver := GenerationDriver.create 50 None
                  (Some (mkOpenAI (fun _ => Resolves (Some "dave: hello")) 0)) in
  let s := mkSystem w driver (Scheduler.create 1000) in
  isEnabled driver = false ∧ world (tick 10000 s).2 = w.
Proof.
  intros carol dave b w driver s. split; [reflexivity|].
  assert (¬ ready s) as Hoff by (intros [He _]; discriminate He).
  apply (proj2 (proj2 (proj2 (disabled_driver_is_inert s Hoff))) 10000).
Defined.

(** ** The driver and the scheduler act through the lifecycle manager *)

Lemma performAll_app calls1 calls2 w :
  performAll (calls1 ++ calls2)%list w = performAll calls2 (performAll calls1 w).
Proof. apply foldl_app. Qed.

Section Through.
Context (Q : Call → Prop).

Lemma through_keeps {A} (m : M System A) : keeps world m → through (Forall Q) m.
Proof. intros Hm s. exists []. split; [constructor|apply Hm]. Qed.

Lemma through_bind {A B} (m : M System A) (k : A → M System B) :
  through (Forall Q) m → (∀ a, through (Forall Q) (k a)) →
  through (Forall Q) (bind m k).
Proof.
  intros Hm Hk s. rewrite run_bind. destruct (Hm s) as (calls1 & H1 & Hw1).
  destruct (m s) as [[a|e] s1]; simpl in Hw1; [|by exists calls1].
  destruct (Hk a s1) as (calls2 & H2 & Hw2). exists (calls1 ++ calls2)%list.
  split; [by apply Forall_app|]. by rewrite performAll_app, <- Hw1.
Qed.

Lemma through_try_catch {A} (body : M System A) handler :
  through (Forall Q) body → (∀ e, through (Forall Q) (handler e)) →
  through (Forall Q) (try_catch body handler).
Proof.
  intros Hm Hk s. rewrite run_try_catch. destruct (Hm s) as (calls1 & H1 & Hw1).
  destruct (body s) as [[a|e] s1]; simpl in Hw1; [by exists calls1|].
  destruct (Hk e s1) as (calls2 & H2 & Hw2). exists (calls1 ++ calls2)%list.
  split; [by apply Forall_app|]. by rewrite performAll_app, <- Hw1.
Qed.

Lemma through_for_of {A} (xs : list A) body :
  (∀ x, through (Forall Q) (body x)) → through (Forall Q) (for_of xs body).
Proof.
  intros Hbody. induction xs as [|x xs IH].
  - apply through_keeps. by intros s.
  - simpl. apply through_bind; [apply Hbody|done].
Qed.

(** A call of the lifecycle manager made from a service. *)
Lemma through_call {A} (m : M World A) call :
  Q call → (∀ w, (m w).2 = perform call w) → through (Forall Q) (onWorld m).
Proof.
  intros Hq Hm s. exists [call]. split; [by repeat constructor|].
  rewrite run_onWorld. simpl. apply Hm.
Qed.
End Through.

Lemma keeps_world_modify_ai g : keeps world (modify (fun s => with_ai (g s) s)).
Proof. by intros s. Qed.

Lemma processMessage_generate_through now conversation context :
  through (Forall (driverCall now)) (processMessage_generate now conversation context).
Proof.
  unfold GenerationDriver.processMessage_generate.
  apply through_bind.
  { apply through_keeps, keeps_onWorld_world, keeps_getConversationMessages. }
  intros messages. apply through_bind.
  { apply through_keeps, keeps_map_async. intros m. apply keeps_formatTurn. }
  intros formatted. apply through_bind.
  { apply through_keeps, keeps_generateSystemPrompt. }
  intros _. apply through_bind.
  { apply through_keeps. keeps_auto. }
  intros [[|a text]|]; try (apply through_keeps, keeps_throw).
  apply through_bind; [apply through_keeps, keeps_liftResult|]. intros parsed.
  apply through_bind.
  { eapply (through_call _ _ (AddMessage now _)); cycle 1; [by intros w|by split]. }
  intros _. apply through_bind; [apply through_keeps, keeps_get|]. intros this.
  apply through_bind; [|intros _; apply through_keeps; unfold
    GenerationDriver.resetErrorCount; keeps_auto].
  destruct (_ =? _); [|apply through_keeps, keeps_ret].
  apply through_bind; [apply through_keeps, checkGoalAchievement_world|].
  intros [|]; [|apply through_keeps, keeps_ret].
  apply through_bind; [|intros _; apply through_keeps, keeps_ret].
  eapply (through_call _ _ (CompleteConversation now _ true)); cycle 1;
    [by intros w|by split].
Qed.

Lemma processMessage_through now message conversation :
  through (Forall (driverCall now)) (processMessage now message conversation).
Proof.
  unfold GenerationDriver.processMessage.
  apply through_bind; [apply through_keeps, keeps_get|]. intros this.
  destruct (_ || _); [apply through_keeps, keeps_ret|].
  apply through_try_catch;
    [|intros e; apply through_keeps, handleApiError_world].
  unfold GenerationDriver.processMessage_try.
  apply through_bind; [apply through_keeps, keeps_get|]. intros this'.
  apply through_bind.
  { apply through_keeps. destruct (_ !! _).
    - apply keeps_ret.
    - apply keeps_bind; [apply initializeConversation_world|]. intros _.
      keeps_auto. }
  intros context. apply through_bind; [apply through_keeps; by intros s|].
  intros _. apply processMessage_generate_through.
Qed.

Lemma processActiveConversations_through now :
  through (Forall (driverCall now)) (processActiveConversations now).
Proof.
  unfold GenerationDriver.processActiveConversations.
  apply through_bind; [apply through_keeps, keeps_get|]. intros this.
  destruct (_ || _); [apply through_keeps, keeps_ret|].
  apply through_try_catch;
    [|intros e; apply through_keeps, handleApiError_world].
  apply through_bind.
  { apply through_keeps, keeps_onWorld_world, keeps_getAllConversations. }
  intros conversations. apply through_for_of. intros conversation.
  apply through_bind.
  { apply through_keeps, keeps_onWorld_world, keeps_getConversationMessages. }
  intros messages. destruct (last messages) as [lastMessage|];
    [apply processMessage_through|].
  destruct (head _) as [firstAgent|]; [|apply through_keeps, keeps_ret].
  apply through_bind.
  { apply through_keeps, keeps_onWorld_world, keeps_agents_findById. }
  intros [agent|]; [|apply through_keeps, keeps_ret].
  apply through_bind; [|intros _; apply through_keeps, keeps_ret].
  eapply (through_call _ _ (AddMessage now _)); cycle 1; [by intros w|by split].
Qed.

Lemma tick_through now : through (Forall (driverCall now)) (tick now).
Proof.
  unfold Scheduler.tick.
  apply through_bind; [apply through_keeps, keeps_get|]. intros this.
  destruct (isProcessing (bg this)); [apply through_keeps, keeps_ret|].
  apply through_bind; [apply through_keeps; by intros s|]. intros _.
  apply through_bind; [|intros _; apply through_keeps; by intros s].
  apply through_try_catch; [|intros e; apply through_keeps, keeps_ret].
  unfold Scheduler.processConversations.
  apply through_try_catch; [|intros e; apply through_keeps, keeps_ret].
  apply through_bind.
  { apply through_keeps, keeps_onWorld_world, keeps_getAllConversations. }
  intros conversations. apply through_for_of. intros conversation.
  apply through_bind; [apply through_keeps, keeps_get|]. intros this'.
  destruct (_ <=? _); [|apply through_keeps, keeps_ret].
  apply through_bind.
  { apply through_keeps, keeps_onWorld_world, keeps_getConversationMessages. }
  intros messages. destruct (last messages) as [lastMessage|].
  - apply through_bind; [apply processMessage_through|].
    intros _. apply through_keeps. by intros s.
  - apply through_bind; [apply processActiveConversations_through|].
    intros _. apply through_keeps. by intros s.
Qed.

(** X21. The driver and the scheduler write to the tables only through the
    lifecycle manager.  The tables after a generation step, after the
    opening pass and after a timer callback at time [now] are those after a
    sequence of calls of the lifecycle manager, each an [addMessage] to all
    participants or a [completeConversation] with the goal achieved, made at
    time [now]. *)
Theorem automation_acts_through_lifecycle now s :
  (∀ message conversation,
     ∃ calls, Forall (driverCall now) calls ∧
              world (processMessage now message conversation s).2
              = performAll calls (world s)) ∧
  (∃ calls, Forall (driverCall now) calls ∧
            world (processActiveConversations now s).2 = performAll calls (world s)) ∧
  (∃ calls, Forall (driverCall now) calls ∧
            world (tick now s).2 = performAll calls (world s)).
Proof.
  split; [intros; apply processMessage_through|].
  split; [apply processActiveConversations_through|apply tick_through].
Qed.

(** ** The running system *)

Lemma occur_calls s event :
  ∃ calls, world (occur s event) = performAll calls (world s) ∧
           (automated event = true → Forall isDriverCall calls).
Proof.
  assert (∀ now calls, Forall (driverCall now) calls → Forall isDriverCall calls) as Hany.
  { intros now calls H. eapply Forall_impl; [exact H|]. intros call Hc. by exists now. }
  destruct event as [call|now message conversation|now|now]; simpl.
  - exists [call]. done.
  - destruct (processMessage_through now message conversation s) as (calls & H & Hw).
    exists calls. eauto.
  - destruct (processActiveConversations_through now s) as (calls & H & Hw).
    exists calls. eauto.
  - destruct (tick_through now s) as (calls & H & Hw). exists calls. eauto.
Qed.

Lemma occurAll_calls events s :
  ∃ calls, world (occurAll events s) = performAll calls (world s) ∧
           (forallb automated events = true → Forall isDriverCall calls).
Proof.
  unfold occurAll. revert s. induction events as [|event events IH]; intros s.
  - exists []. split; [done|constructor].
  - simpl. destruct (occur_calls s event) as (calls1 & Hw1 & H1).
    destruct (IH (occur s event)) as (calls2 & Hw2 & H2).
    exists (calls1 ++ calls2)%list. split.
    + by rewrite performAll_app, <- Hw1.
    + intros [Ha Hrest]%andb_true_iff. apply Forall_app. auto.
Qed.

(** X22. The reservation invariant holds between events that run one at a
    time.  From a fresh system (no conversation, every agent inactive),
    after any sequence of calls of the user to the lifecycle manager,
    generation steps, opening passes and timer callbacks, each of which runs
    to completion before the next one starts, and with any replies of the
    provider, an agent is active exactly when it takes part in an active or
    paused conversation, and no two such conversations share a participant.
    The statement is about the states between such events only: it says
    nothing about the states inside an event, nor about a user call and a
    timer callback whose steps interleave at their awaits. *)
Theorem reservation_holds_between_events events s :
  initial (world s) →
  (∀ id a, agentTable (world (occurAll events s)) !! id = Some a →
     (agent_status a = AgentActive ↔
      ∃ cid c, conversationTable (world (occurAll events s)) !! cid = Some c ∧
               (conv_status c = ConvActive ∨ conv_status c = ConvPaused) ∧
               id ∈ conv_participants c)) ∧
  (∀ cid1 cid2 c1 c2 id,
     conversationTable (world (occurAll events s)) !! cid1 = Some c1 →
     conversationTable (world (occurAll events s)) !! cid2 = Some c2 →
     conv_status c1 = ConvActive ∨ conv_status c1 = ConvPaused →
     conv_status c2 = ConvActive ∨ conv_status c2 = ConvPaused →
     id ∈ conv_participants c1 → id ∈ conv_participants c2 → cid1 = cid2).
Proof.
  intros Hinit. destruct (occurAll_calls events s) as (calls & -> & _).
  destruct (performAll_consistent calls (world s) (initial_consistent _ Hinit))
    as (_ & Hres & Hdis).
  split; [exact Hres|exact Hdis].
Qed.

Lemma perform_frozen call w id c :
  isDriverCall call → conversationTable w !! id = Some c → conv_status c ≠ ConvActive →
  conversationTable (perform call w) !! id = Some c.
Proof.
  intros [now Hcall] Hc Hst.
  assert (statusIs ConvActive c = false) as Hoff by (by apply bool_decide_eq_false).
  destruct call as [?|now' data|now' id' g|?| |?|?]; simpl in Hcall; try done; simpl.
  - rewrite addMessage_eq.
    destruct (conversationTable w !! am_conversationId data) as [c'|] eqn:Hc'; [|done].
    destruct (decide (am_conversationId data = id)) as [Heq|Hne].
    + rewrite Heq, Hc in Hc'. injection Hc' as <-. by rewrite Hoff.
    + destruct (negb _); [done|]. destruct (negb _); [done|].
      destruct (0 <? _)%nat; [done|]. simpl. by rewrite lookup_insert_ne.
  - rewrite completeConversation_eq.
    destruct (conversationTable w !! id') as [c'|] eqn:Hc'; [|done].
    destruct (decide (id' = id)) as [->|Hne].
    + rewrite Hc in Hc'. injection Hc' as <-. by rewrite Hoff.
    + destruct (negb _); [done|]. simpl. by rewrite lookup_insert_ne.
Qed.

Lemma performAll_frozen calls w id c :
  Forall isDriverCall calls →
  conversationTable w !! id = Some c → conv_status c ≠ ConvActive →
  conversationTable (performAll calls w) !! id = Some c.
Proof.
  unfold performAll. intros Hcalls. revert w.
  induction Hcalls as [|call calls Hcall _ IH]; intros w Hc Hst; [done|].
  simpl. apply IH; [|done]. by apply perform_frozen.
Qed.

(** X20. The driver and the scheduler leave a conversation that is not
    active exactly as it is.  After any sequence of generation steps,
    opening passes and timer callbacks, for every reply of the provider and
    also when a step is invoked directly on that conversation, a stored
    conversation that was paused, completed or terminated is stored
    unchanged: no message is added to it and its status stays. *)
Theorem automation_leaves_inactive_conversations events s id c :
  forallb automated events = true →
  conversationTable (world s) !! id = Some c → conv_status c ≠ ConvActive →
  conversationTable (world (occurAll events s)) !! id = Some c.
Proof.
  intros Hauto Hc Hst. destruct (occurAll_calls events s) as (calls & -> & Hcalls).
  apply performAll_frozen; auto.
Qed.

(** An instance: a generation step and a timer callback on a paused
    conversation, with a provider that would answer for dave. *)
Lemma automation_leaves_inactive_conversations_witness :
  let carol := mkAgent "2" "carol" Specialist None AgentActive 3 in
  let dave := mkAgent "3" "dave" Learning None AgentActive 4 in
  let hello := mkMessage "0" "1" "2" "hello" (RecipientsOf ["2"; "3"]) 6 in
  let b := mkConversation "1" "B" "topic" "goal" "room" ConvPaused ["2"; "3"] [hello] 5
             None (Some false) in
  let w := mkWorld {[ "2" := carol; "3" := dave ]} {[ "1" := b ]} in
  let driver := GenerationDriver.create 50 (Some "key")
                  (Some (mkOpenAI (fun _ => Resolves (Some "dave: I agree")) 0)) in
  let s := mkSystem w driver (Scheduler.create 1000) in
  conversationTable (world (occurAll [Generate 10000 hello b; Tick 10001] s)) !! "1"
  = Some b.
Proof.
  intros carol dave hello b w driver s.
  by apply (automation_leaves_inactive_conversations
              [Generate 10000 hello b; Tick 10001] s "1" b).
Defined.

Lemma reservation_holds_between_events_witness :
  let alice := mkAgent "0" "alice" Learning None AgentInactive 1 in
  let bob := mkAgent "1" "bob" Assistant None AgentInactive 2 in
  let w := mkWorld {[ "0" := alice; "1" := bob ]} ∅ in
  let driver := GenerationDriver.create 1 (Some "key")
                  (Some (mkOpenAI (fun k => Resolves (Some
                     (if Nat.even k then "bob: I agree" else "Yes."))) 0)) in
  let s := mkSystem w driver (Scheduler.create 1000) in
  let events :=
    [UserCall (CreateConversation 5
                 (mkCreateConversationDTO "T" "topic" "goal" "room" ["0"; "1"]));
     Tick 2000; Tick 4000] in
  conv_status <$> conversationTable (world (occurAll events s)) !! "0" = Some ConvCompleted
  ∧ (agent_status (setStatus AgentInactive alice) = AgentActive ↔
     ∃ cid c, conversationTable (world (occurAll events s)) !! cid = Some c ∧
              (conv_status c = ConvActive ∨ conv_status c = ConvPaused) ∧
              "0" ∈ conv_participants c).
Proof.
  intros alice bob w driver s events. split; [vm_compute; reflexivity|].
  apply (proj1 (reservation_holds_between_events events s (conj eq_refl eq_refl)) "0").
  vm_compute. reflexivity.
Defined.

(** ** The calls of one generation step *)

Section ThroughFrom.
Context (I : System → Prop).

Lemma throughFrom_weaken {A} (L L' : list Call → Prop) (m : M System A) :
  (∀ calls, L calls → L' calls) → throughFrom I L m → throughFrom I L' m.
Proof. intros HL Hm s Hs. destruct (Hm s Hs) as (calls & H & Hw). eauto. Qed.

Lemma throughFrom_keeps {A} (L : list Call → Prop) (m : M System A) :
  L [] → keeps world m → throughFrom I L m.
Proof. intros HL Hm s _. exists []. split; [done|apply Hm]. Qed.

Lemma throughFrom_bind_keeps {A B} L (m : M System A) (k : A → M System B) :
  L [] → keeps world m → preserves I m → (∀ a, throughFrom I L (k a)) →
  throughFrom I L (bind m k).
Proof.
  intros HL Hm HI Hk s Hs. rewrite run_bind. specialize (Hm s). specialize (HI s Hs).
  destruct (m s) as [[a|e] s1]; simpl in *.
  - destruct (Hk a s1 HI) as (calls & H & Hw). exists calls. by rewrite <- Hm.
  - exists []. done.
Qed.

Lemma throughFrom_bind_get {B} L (k : System → M System B) :
  (∀ this, I this → throughFrom (fun s => s = this) L (k this)) →
  throughFrom I L (bind get k).
Proof. intros Hk s Hs. rewrite run_bind, run_get. by apply (Hk s Hs). Qed.

Lemma throughFrom_bind_call {A B} L (m : M World A) call (k : A → M System B) :
  L [] → (∀ w, (m w).2 = perform call w) → preserves I (onWorld m) →
  (∀ a, throughFrom I L (k a)) →
  throughFrom I (fun calls => ∃ rest, calls = call :: rest ∧ L rest)
    (bind (onWorld m) k).
Proof.
  intros HL Hm HI Hk s Hs. rewrite run_bind. specialize (HI s Hs).
  rewrite run_onWorld in *. simpl in HI.
  destruct (m (world s)) as [[a|e] w1] eqn:Hrun; simpl in *.
  - destruct (Hk a _ HI) as (calls & H & Hw). exists (call :: calls).
    split; [by eauto|]. rewrite Hw. simpl. by rewrite <- Hm, Hrun.
  - exists [call]. split; [by eauto|]. simpl. by rewrite <- Hm, Hrun.
Qed.

Lemma throughFrom_then_keeps {A B} L (m : M System A) (k : A → M System B) :
  throughFrom I L m → (∀ a, keeps world (k a)) → throughFrom I L (bind m k).
Proof.
  intros Hm Hk s Hs. rewrite run_bind. destruct (Hm s Hs) as (calls & H & Hw).
  destruct (m s) as [[a|e] s1]; simpl in *; [|by exists calls].
  exists calls. by rewrite Hk.
Qed.
End ThroughFrom.

Lemma throughFrom_any {A} (I I' : System → Prop) L (m : M System A) :
  (∀ s, I' s → I s) → throughFrom I L m → throughFrom I' L m.
Proof. intros HI Hm s Hs. apply Hm, HI, Hs. Qed.

Lemma keeps_threshold {A} (m : M System A) t :
  keeps driverSettings m →
  preserves (fun s => messageCheckThreshold (ai s) = t) m.
Proof.
  apply preserves_keeps. intros s s' Hs <-. unfold driverSettings in Hs. congruence.
Qed.

Lemma processMessage_generate_shape now conversation context t :
  throughFrom (fun s => messageCheckThreshold (ai s) = t)
    (stepShape now (conv_id conversation) (Z.rem (ctx_messageCount context) t =? 0))
    (processMessage_generate now conversation context).
Proof.
  assert (∀ check, stepShape now (conv_id conversation) check []) as Hnil by (by left).
  unfold GenerationDriver.processMessage_generate.
  apply throughFrom_bind_keeps; [done| | |].
  { apply keeps_onWorld_world, keeps_getConversationMessages. }
  { apply keeps_threshold. keeps_auto. }
  intros messages. apply throughFrom_bind_keeps; [done| | |].
  { apply keeps_map_async. intros m. apply keeps_formatTurn. }
  { apply keeps_threshold, keeps_map_async. intros m. apply keeps_formatTurn. }
  intros formatted. apply throughFrom_bind_keeps; [done| | |].
  { apply keeps_generateSystemPrompt. }
  { apply keeps_threshold, keeps_generateSystemPrompt. }
  intros _. apply throughFrom_bind_keeps; [done| | |].
  { keeps_auto. }
  { apply keeps_threshold. keeps_auto. }
  intros [[|a text]|]; try (apply throughFrom_keeps; [done|apply keeps_throw]).
  apply throughFrom_bind_keeps; [done|apply keeps_liftResult| |].
  { apply keeps_threshold, keeps_liftResult. }
  intros parsed.
  set (due := Z.rem (ctx_messageCount context) t =? 0).
  set (complete := CompleteConversation now (conv_id conversation) true).
  eapply throughFrom_weaken;
    [|apply (throughFrom_bind_call _
               (fun rest => rest = [] ∨ (due = true ∧ rest = [complete]))
               _ (AddMessage now (mkAddMessageDTO (conv_id conversation) parsed.1 parsed.2
                                    RecipientsAll)))].
  - intros calls (rest & -> & [->|[Hdue ->]]); right; exists parsed.1, parsed.2; simpl; auto.
  - by left.
  - by intros w.
  - apply keeps_threshold. keeps_auto.
  - intros _. apply throughFrom_bind_get. intros this Hthis.
    apply (throughFrom_any (fun s => True)); [done|].
    apply throughFrom_then_keeps;
      [|intros _; unfold GenerationDriver.resetErrorCount; keeps_auto].
    rewrite Hthis. fold due. destruct due eqn:Hdue.
    2: { apply throughFrom_keeps; [by left|apply keeps_ret]. }
    apply throughFrom_bind_keeps;
      [by left|apply checkGoalAchievement_world|by intros s|].
    intros [|]; [|apply throughFrom_keeps; [by left|apply keeps_ret]].
    eapply throughFrom_weaken;
      [|apply (throughFrom_bind_call _ (fun rest => rest = []) _ complete)].
    + intros calls (rest & -> & ->). by right.
    + done.
    + by intros w.
    + by intros s.
    + intros _. apply throughFrom_keeps; [done|apply keeps_ret].
Qed.

Lemma initializeConversation_Ok conversation s u s1 :
  initializeConversation conversation s = (Ok u, s1) →
  world s1 = world s ∧ messageCheckThreshold (ai s1) = messageCheckThreshold (ai s) ∧
  ∃ context, contextsOf s1 !! conv_id conversation = Some context ∧
             ctx_messageCount context = 0.
Proof.
  unfold GenerationDriver.initializeConversation. rewrite run_bind, run_roster.
  destruct (List.find _ _); [done|]. rewrite run_modify. intros [= _ <-].
  split; [done|]. split; [done|]. eexists. unfold contextsOf. simpl.
  by rewrite lookup_insert_eq.
Qed.

Lemma processMessage_try_shape now message conversation s :
  ∃ calls,
    stepShape now (conv_id conversation)
      (Z.rem (default 0 (ctx_messageCount <$> contextsOf s !! conv_id conversation) + 1)
         (messageCheckThreshold (ai s)) =? 0) calls ∧
    world (processMessage_try now message conversation s).2 = performAll calls (world s).
Proof.
  assert (∀ s0 context,
            world s0 = world s →
            messageCheckThreshold (ai s0) = messageCheckThreshold (ai s) →
            ctx_messageCount context =
              default 0 (ctx_messageCount <$> contextsOf s !! conv_id conversation) →
            ∃ calls,
              stepShape now (conv_id conversation)
                (Z.rem (default 0 (ctx_messageCount <$>
                                     contextsOf s !! conv_id conversation) + 1)
                   (messageCheckThreshold (ai s)) =? 0) calls ∧
              world (bind (modify (fun s =>
                             with_ai (set_contexts
                                        (<[conv_id conversation :=
                                             set_messageCount (ctx_messageCount context + 1)
                                               context]> (conversationContexts (ai s)))
                                        (ai s)) s))
                       (fun _ => processMessage_generate now conversation
                                   (set_messageCount (ctx_messageCount context + 1) context))
                       s0).2
              = performAll calls (world s)) as Hgen.
  { intros s0 context Hw Ht Hn. rewrite run_bind, run_modify. cbv beta iota zeta.
    match goal with |- context [processMessage_generate _ _ _ ?s2] =>
      destruct (processMessage_generate_shape now conversation
                  (set_messageCount (ctx_messageCount context + 1) context)
                  (messageCheckThreshold (ai s)) s2 Ht) as (calls & H & Hw2)
    end.
    exists calls. split.
    - rewrite <- Hn. exact H.
    - rewrite Hw2. simpl. by rewrite Hw. }
  unfold GenerationDriver.processMessage_try. rewrite run_bind, run_get.
  cbv beta iota zeta. unfold contextsOf in *.
  destruct (conversationContexts (ai s) !! conv_id conversation) as [context|] eqn:Hctx.
  - rewrite run_bind, run_ret. cbv beta iota zeta. by apply Hgen.
  - rewrite run_bind, run_bind.
    pose proof (initializeConversation_world conversation s) as Hworld.
    destruct (initializeConversation conversation s) as [[u|e] s1] eqn:Hinit;
      simpl in Hworld.
    2: { exists []. split; [by left|done]. }
    apply initializeConversation_Ok in Hinit as (Hw & Ht & context & Hc & Hn).
    cbv beta iota zeta. rewrite run_bind, run_get. cbv beta iota zeta.
    unfold contextsOf in Hc. rewrite Hc, run_ret. cbv beta iota zeta. by apply Hgen.
Qed.

Lemma processMessage_shape now message conversation s :
  ∃ calls,
    stepShape now (conv_id conversation)
      (Z.rem (default 0 (ctx_messageCount <$> contextsOf s !! conv_id conversation) + 1)
         (messageCheckThreshold (ai s)) =? 0) calls ∧
    world (processMessage now message conversation s).2 = performAll calls (world s).
Proof.
  unfold GenerationDriver.processMessage. rewrite run_bind, run_get.
  cbv beta iota zeta. destruct (_ || _).
  { exists []. split; [by left|done]. }
  rewrite run_try_catch.
  destruct (processMessage_try_shape now message conversation s) as (calls & H & Hw).
  exists calls. split; [done|].
  destruct (processMessage_try now message conversation s) as [[u|e] s1]; [done|].
  rewrite <- Hw. apply handleApiError_world.
Qed.

(** X23. The calls of one generation step.  The tables after
    [processMessage] are those after no call, or after one [addMessage] to
    its conversation for all participants, or after that message and a
    [completeConversation] of its conversation with the goal achieved; the
    completion happens only when the message counter of the context, after
    its increment (1 for a context that is created by the step), is a
    multiple of the goal check threshold. *)
Theorem generation_step_calls now message conversation s :
  ∃ calls,
    world (processMessage now message conversation s).2 = performAll calls (world s) ∧
    (calls = [] ∨
     ∃ sender content,
       calls = [AddMessage now (mkAddMessageDTO (conv_id conversation) sender content
                                  RecipientsAll)] ∨
       (Z.rem (default 0 (ctx_messageCount <$> contextsOf s !! conv_id conversation) + 1)
          (messageCheckThreshold (ai s)) = 0 ∧
        calls = [AddMessage now (mkAddMessageDTO (conv_id conversation) sender content
                                   RecipientsAll);
                 CompleteConversation now (conv_id conversation) true])).
Proof.
  destruct (processMessage_shape now message conversation s) as (calls & H & Hw).
  exists calls. split; [done|].
  destruct H as [->|(sender & content & [->|[Hdue ->]])]; [by left|right..].
  - exists sender, content. by left.
  - exists sender, content. right. split; [|done]. by apply Z.eqb_eq.
Qed.

Lemma perform_add_other now data w k :
  k ≠ am_conversationId data →
  conversationTable (perform (AddMessage now data) w) !! k = conversationTable w !! k.
Proof.
  intros Hne. simpl. rewrite addMessage_eq.
  destruct (conversationTable w !! am_conversationId data) as [c|]; [|done].
  destruct (negb _); [done|]. destruct (negb _); [done|].
  destruct (0 <? _)%nat; [done|]. simpl. by rewrite lookup_insert_ne.
Qed.

Lemma perform_complete_other now id g w k :
  k ≠ id →
  conversationTable (perform (CompleteConversation now id g) w) !! k
  = conversationTable w !! k.
Proof.
  intros Hne. simpl. rewrite completeConversation_eq.
  destruct (conversationTable w !! id) as [c|]; [|done].
  destruct (negb _); [done|]. simpl. by rewrite lookup_insert_ne.
Qed.

Lemma perform_add_messages now data w :
  messagesOf (perform (AddMessage now data) w) (am_conversationId data)
  = messagesOf w (am_conversationId data) ∨
  ∃ m, messagesOf (perform (AddMessage now data) w) (am_conversationId data)
       = (messagesOf w (am_conversationId data) ++ [m])%list ∧
       msg_senderId m = am_senderId data ∧ msg_content m = am_content data ∧
       msg_timestamp m = now.
Proof.
  unfold messagesOf. simpl. rewrite addMessage_eq.
  destruct (conversationTable w !! am_conversationId data) as [c|] eqn:Hc;
    [|left; simpl; by rewrite Hc].
  destruct (negb _); [left; simpl; by rewrite Hc|].
  destruct (negb _); [left; simpl; by rewrite Hc|].
  destruct (0 <? _)%nat; [left; simpl; by rewrite Hc|]. right. simpl.
  rewrite lookup_insert_eq. simpl. by eexists.
Qed.

Lemma perform_add_agents now data w :
  agentTable (perform (AddMessage now data) w) = agentTable w.
Proof.
  simpl. rewrite addMessage_eq.
  destruct (conversationTable w !! am_conversationId data) as [c|]; [|done].
  destruct (negb _); [done|]. destruct (negb _); [done|].
  by destruct (0 <? _)%nat.
Qed.

Lemma perform_complete_messages now id g w :
  messagesOf (perform (CompleteConversation now id g) w) id = messagesOf w id.
Proof.
  unfold messagesOf. simpl. rewrite completeConversation_eq.
  destruct (conversationTable w !! id) as [c|] eqn:Hc; [|simpl; by rewrite Hc].
  destruct (negb _); [simpl; by rewrite Hc|]. simpl. by rewrite lookup_insert_eq.
Qed.

(** X24. What one generation step can change.  [processMessage] leaves
    every other conversation as it is; the history of its conversation
    stays or grows by exactly one message, stamped with the time of the
    step; and unless the message counter after its increment is a multiple
    of the goal check threshold, every agent stays as it is. *)
Theorem generation_step_effect now message conversation s :
  (∀ k, k ≠ conv_id conversation →
     conversationTable (world (processMessage now message conversation s).2) !! k
     = conversationTable (world s) !! k) ∧
  (messagesOf (world (processMessage now message conversation s).2) (conv_id conversation)
   = messagesOf (world s) (conv_id conversation) ∨
   ∃ m, messagesOf (world (processMessage now message conversation s).2)
          (conv_id conversation)
        = (messagesOf (world s) (conv_id conversation) ++ [m])%list ∧
        msg_timestamp m = now) ∧
  (Z.rem (default 0 (ctx_messageCount <$> contextsOf s !! conv_id conversation) + 1)
     (messageCheckThreshold (ai s)) ≠ 0 →
   agentTable (world (processMessage now message conversation s).2)
   = agentTable (world s)).
Proof.
  destruct (processMessage_shape now message conversation s) as (calls & H & ->).
  destruct H as [->|(sender & content & [->|[Hdue ->]])].
  - split; [done|]. split; [by left|done].
  - cbn [performAll foldl]. split; [|split].
    + intros k Hk. by apply perform_add_other.
    + destruct (perform_add_messages now
                  (mkAddMessageDTO (conv_id conversation) sender content RecipientsAll)
                  (world s)) as [H|(m & H & _ & _ & Ht)]; [by left|right; eauto].
    + intros _. apply perform_add_agents.
  - cbn [performAll foldl]. split; [|split].
    + intros k Hk. rewrite perform_complete_other by done. by apply perform_add_other.
    + rewrite perform_complete_messages.
      destruct (perform_add_messages now
                  (mkAddMessageDTO (conv_id conversation) sender content RecipientsAll)
                  (world s)) as [H|(m & H & _ & _ & Ht)]; [by left|right; eauto].
    + intros Hnot. apply Z.eqb_eq in Hdue. done.
Qed.

(** ** The preview of a message in the AI logs *)

Lemma splitOnSpace_cons s : ∃ word words, splitOnSpace s = word :: words.
Proof.
  destruct s as [|c s]; simpl; [by eexists _, _|].
  destruct (Ascii.eqb c " "%char); [by eexists _, _|].
  destruct (splitOnSpace s); by eexists _, _.
Qed.

Lemma concat_cons sep word words :
  words ≠ [] → String.concat sep (word :: words) = word ++ sep ++ String.concat sep words.
Proof. by destruct words. Qed.

(** [s.split(' ').join(' ')] is [s]. *)
Lemma join_split s : String.concat " " (splitOnSpace s) = s.
Proof.
  induction s as [|c s IH]; [done|]. cbn [splitOnSpace].
  destruct (splitOnSpace_cons s) as (word & words & Hs). rewrite Hs in *.
  destruct (Ascii.eqb_spec c " "%char) as [->|Hc].
  - rewrite concat_cons by done. by rewrite IH.
  - destruct words as [|w ws].
    + rewrite <- IH. reflexivity.
    + rewrite <- IH. reflexivity.
Qed.

Lemma append_assoc_string (a b c : string) : (a ++ b) ++ c = a ++ (b ++ c).
Proof.
  induction a as [|x a IH]; [done|].
  change (String x ((a ++ b) ++ c) = String x (a ++ (b ++ c))). by f_equal.
Qed.

Lemma concat_app sep (l1 l2 : list string) :
  l1 ≠ [] → l2 ≠ [] →
  String.concat sep (l1 ++ l2) = String.concat sep l1 ++ sep ++ String.concat sep l2.
Proof.
  intros H1 H2. induction l1 as [|x l1 IH]; [done|].
  destruct l1 as [|y l1].
  - simpl. by destruct l2.
  - change ((x :: y :: l1) ++ l2)%list with (x :: (y :: l1) ++ l2)%list.
    rewrite concat_cons by done. rewrite IH by done.
    rewrite (concat_cons sep x (y :: l1)) by done.
    by rewrite !append_assoc_string.
Qed.

Lemma append_empty_r s : s ++ "" = s.
Proof.
  induction s as [|c s IH]; [done|]. change (String c (s ++ "") = String c s).
  by f_equal.
Qed.

Lemma splitOnSpace_words s word :
  word ∈ splitOnSpace s → ∀ a b, word ≠ a ++ String " " b.
Proof.
  revert word. induction s as [|c s IH]; intros word.
  - intros ->%list_elem_of_singleton a b H. by destruct a.
  - cbn [splitOnSpace]. destruct (splitOnSpace_cons s) as (w & ws & Hs).
    rewrite Hs in *. destruct (Ascii.eqb_spec c " "%char) as [->|Hc].
    + intros [->|Hin]%elem_of_cons; [|by apply IH].
      intros a b H. by destruct a.
    + intros [->|Hin]%elem_of_cons; [|apply IH; by right].
      intros a b H. destruct a as [|c' a]; simpl in H.
      * by injection H.
      * injection H as _ H. by apply (IH w (list_elem_of_here _ _) a b).
Qed.

(** X25. The preview of a message in the AI logs.  Splitting a text at
    its spaces and joining the pieces with spaces gives the text back, and
    no piece contains a space.  A message of at most 10 pieces is shown in
    full; a longer one is cut after its tenth piece, which is a prefix of
    the message followed by a space, and "..." is appended. *)
Theorem preview_spec content :
  String.concat " " (splitOnSpace content) = content ∧
  (∀ word, word ∈ splitOnSpace content → ∀ a b, word ≠ a ++ String " " b) ∧
  ((length (splitOnSpace content) ≤ 10)%nat → preview content = content) ∧
  ((10 < length (splitOnSpace content))%nat →
   preview content = String.concat " " (take 10 (splitOnSpace content)) ++ "..." ∧
   content = String.concat " " (take 10 (splitOnSpace content)) ++ " " ++
             String.concat " " (drop 10 (splitOnSpace content))).
Proof.
  split; [apply join_split|]. split; [apply splitOnSpace_words|].
  unfold preview. split.
  - intros Hle. rewrite take_ge by done. rewrite join_split.
    destruct (Nat.ltb_spec 10 (length (splitOnSpace content))); [lia|].
    apply append_empty_r.
  - intros Hlt. destruct (Nat.ltb_spec 10 (length (splitOnSpace content))); [|lia].
    split; [done|].
    rewrite <- concat_app.
    + by rewrite take_drop, join_split.
    + intros Heq. apply (f_equal length) in Heq. rewrite length_take in Heq.
      change (length (@nil string)) with 0%nat in Heq. lia.
    + intros Heq. apply (f_equal length) in Heq. rewrite length_drop in Heq.
      change (length (@nil string)) with 0%nat in Heq. lia.
Qed.

(** ** Roles and communication styles *)

Lemma lowerAscii_idem c : lowerAscii (lowerAscii c) = lowerAscii c.
Proof. destruct c as [[] [] [] [] [] [] [] []]; vm_compute; reflexivity. Qed.

Lemma toLowerCase_idem s : toLowerCase (toLowerCase s) = toLowerCase s.
Proof.
  induction s as [|c s IH]; [done|]. cbn [toLowerCase].
  by rewrite lowerAscii_idem, IH.
Qed.

Lemma toLowerCase_empty s : toLowerCase s = "" ↔ s = "".
Proof. by destruct s. Qed.

Lemma pushIf_lower description word trait traits :
  PromptStyle.pushIf (toLowerCase description) word trait traits
  = PromptStyle.pushIf description word trait traits.
Proof. unfold PromptStyle.pushIf. by rewrite toLowerCase_idem. Qed.

Lemma analyze_lower d :
  PromptStyle.analyzeDescriptionForTraits (toLowerCase d)
  = PromptStyle.analyzeDescriptionForTraits d.
Proof.
  unfold PromptStyle.analyzeDescriptionForTraits. cbv zeta.
  by rewrite !pushIf_lower.
Qed.

Lemma pushIf_nonempty description word trait traits :
  trait ≠ "" → Forall (fun t => t ≠ "") traits →
  Forall (fun t => t ≠ "") (PromptStyle.pushIf description word trait traits).
Proof.
  intros Ht Hall. unfold PromptStyle.pushIf. destruct (includesText _ _); [|done].
  apply Forall_app. split; [done|]. by constructor.
Qed.

Lemma pushIf_head description word trait first rest :
  ∃ rest', PromptStyle.pushIf description word trait (first :: rest) = first :: rest'.
Proof. unfold PromptStyle.pushIf. destruct (includesText _ _); by eexists. Qed.

Lemma concat_head sep first rest :
  ∃ tail, String.concat sep (first :: rest) = first ++ tail.
Proof.
  destruct rest as [|x rest]; [exists ""; by rewrite append_empty_r|].
  by exists (sep ++ String.concat sep (x :: rest)).
Qed.

Lemma analyze_nonempty d : PromptStyle.analyzeDescriptionForTraits d ≠ "".
Proof.
  unfold PromptStyle.analyzeDescriptionForTraits. cbv zeta.
  match goal with |- context [if (0 <? length ?traits)%nat then _ else _] =>
    assert (Forall (fun t => t ≠ "") traits) as Hall
  end.
  { destruct (_ =? _)%nat; repeat (apply pushIf_nonempty; [done|]); constructor. }
  match goal with |- context [if (0 <? length ?traits)%nat then _ else _] =>
    destruct traits as [|first rest]
  end; [done|].
  apply Forall_cons in Hall as [Hfirst _]. cbn [length Nat.ltb Nat.leb].
  destruct (concat_head " and " first rest) as [tail ->]. by destruct first.
Qed.

Lemma analyze_formal_first d :
  includesText (toLowerCase d) "formal" = true →
  ∃ rest, PromptStyle.analyzeDescriptionForTraits d = "formal" ++ rest.
Proof.
  intros H. unfold PromptStyle.analyzeDescriptionForTraits. cbv zeta.
  assert (PromptStyle.pushIf d "formal" "formal" [] = ["formal"]) as ->
    by (unfold PromptStyle.pushIf; by rewrite H).
  destruct (pushIf_head d "casual" "casual" "formal" []) as [r1 ->].
  destruct (pushIf_head d "direct" "direct" "formal" r1) as [r2 ->].
  destruct (pushIf_head d "diplomatic" "diplomatic" "formal" r2) as [r3 ->].
  destruct (pushIf_head d "technical" "technical" "formal" r3) as [r4 ->].
  destruct (pushIf_head d "friendly" "friendly" "formal" r4) as [r5 ->].
  destruct (pushIf_head d "professional" "professional" "formal" r5) as [r6 ->].
  cbn [length Nat.eqb Nat.ltb Nat.leb]. apply concat_head.
Qed.

Lemma analyze_default d :
  (∀ word, word ∈ traitWords → includesText (toLowerCase d) word = false) →
  PromptStyle.analyzeDescriptionForTraits d = "adaptable and context-aware".
Proof.
  intros H. unfold PromptStyle.analyzeDescriptionForTraits, PromptStyle.pushIf.
  cbv zeta. rewrite !H; [done|unfold traitWords; repeat constructor..].
Qed.

(** X26. Roles and communication styles of the system prompt.  The type of
    an agent is matched without regard to case, and so are the trait words
    in its description; an absent and an empty description give the style of
    the type alone; the traits read from a description are never the empty
    text, they are "adaptable and context-aware" when the description
    contains none of the trait words, and they start with "formal" when the
    description contains it, in any case and also inside a longer word. *)
Theorem communication_style_spec type description :
  PromptStyle.getAgentTypeDescription (toLowerCase type)
  = PromptStyle.getAgentTypeDescription type ∧
  PromptStyle.getCommunicationStyle (toLowerCase type) (toLowerCase <$> description)
  = PromptStyle.getCommunicationStyle type description ∧
  PromptStyle.getCommunicationStyle type (Some "")
  = PromptStyle.getCommunicationStyle type None ∧
  (∀ d, PromptStyle.analyzeDescriptionForTraits d ≠ "") ∧
  (∀ d, (∀ word pre post, word ∈ traitWords → toLowerCase d ≠ pre ++ word ++ post) →
        PromptStyle.analyzeDescriptionForTraits d = "adaptable and context-aware") ∧
  (∀ d pre post, toLowerCase d = pre ++ "formal" ++ post →
     ∃ rest, PromptStyle.analyzeDescriptionForTraits d = "formal" ++ rest).
Proof.
  split; [unfold PromptStyle.getAgentTypeDescription; cbv zeta;
          by rewrite toLowerCase_idem|].
  split.
  { unfold PromptStyle.getCommunicationStyle, PromptStyle.baseStyle. cbv zeta.
    rewrite toLowerCase_idem. destruct description as [[|c d]|]; [done| |done].
    change (toLowerCase <$> Some (String c d))
      with (Some (String (lowerAscii c) (toLowerCase d))).
    change (String (lowerAscii c) (toLowerCase d)) with (toLowerCase (String c d)).
    cbv beta iota. change (String (lowerAscii c) (toLowerCase d))
      with (toLowerCase (String c d)). by rewrite analyze_lower. }
  split; [done|]. split; [apply analyze_nonempty|]. split.
  - intros d Hnone. apply analyze_default. intros word Hword.
    destruct (includesText (toLowerCase d) word) eqn:Hinc; [|done].
    apply includesText_spec in Hinc as (pre & post & Hinc).
    by destruct (Hnone word pre post Hword).
  - intros d pre post Hd. apply analyze_formal_first, includesText_spec. eauto.
Qed.

(** ** Which conversations a sweep advances *)

Lemma performAll_wellKeyed calls w : wellKeyed w → wellKeyed (performAll calls w).
Proof.
  unfold performAll. revert w. induction calls as [|call calls IH]; intros w Hw; [done|].
  simpl. by apply IH, perform_wellKeyed.
Qed.

Lemma performAll_stored calls w k :
  wellKeyed w → is_Some (conversationTable w !! k) →
  is_Some (conversationTable (performAll calls w) !! k).
Proof.
  unfold performAll. revert w. induction calls as [|call calls IH]; intros w Hw Hk;
    [done|].
  simpl. apply IH; [by apply perform_wellKeyed|]. destruct Hk as [c Hc].
  destruct (perform_row call w k c Hw Hc) as (c' & -> & _). done.
Qed.

Lemma sweepable_step {A} (m : M System A) ids s :
  through (fun _ => True) m → sweepable ids s → sweepable ids (m s).2.
Proof.
  intros Hm [Hkeys Hids]. destruct (Hm s) as (calls & _ & Hw). split.
  - rewrite Hw. by apply performAll_wellKeyed.
  - intros id Hid. rewrite Hw. apply performAll_stored; auto.
Qed.

Lemma through_any {A} (Q : Call → Prop) (m : M System A) :
  through (Forall Q) m → through (fun _ => True) m.
Proof. intros Hm s. destruct (Hm s) as (calls & _ & Hw). by exists calls. Qed.

Lemma sweep_body now conversation s :
  sweepable [conv_id conversation] s →
  ∃ s',
    (let! this := get in
     let lastTime := default 0 (lastMessageTime (bg this) !! conv_id conversation) in
     let timeSinceLastMessage := now - lastTime in
     if processInterval (bg this) <=? timeSinceLastMessage then
       let! messages := onWorld (getConversationMessages (conv_id conversation)) in
       match last messages with
       | None =>
           do! processActiveConversations now in
           modify (Scheduler.set_lastMessageTime (conv_id conversation) now)
       | Some lastMessage =>
           do! processMessage now lastMessage conversation in
           modify (Scheduler.set_lastMessageTime (conv_id conversation) now)
       end
     else ret tt) s = (Ok tt, s') ∧
    (∃ calls, world s' = performAll calls (world s)) ∧
    bg s' = (if bool_decide (due now (bg s) (conv_id conversation))
             then bg (Scheduler.set_lastMessageTime (conv_id conversation) now s)
             else bg s).
Proof.
  intros [Hkeys Hid]. rewrite run_bind, run_get. cbv beta iota zeta. unfold due.
  destruct (Z.leb_spec (processInterval (bg s))
              (now - default 0 (lastMessageTime (bg s) !! conv_id conversation)))
    as [Hdue|Hnot].
  2: { rewrite bool_decide_eq_false_2 by lia. exists s. rewrite run_ret.
       split; [done|]. split; [by exists []|done]. }
  rewrite bool_decide_eq_true_2 by done.
  rewrite run_bind, run_read_messages.
  destruct (Hid (conv_id conversation)) as [c ->]; [by left|]. cbv beta iota zeta.
  destruct (last (conv_messages c)) as [lastMessage|].
  - rewrite run_bind.
    pose proof (processMessage_returns conversationStore agentStore now lastMessage
                  conversation s) as Hret.
    pose proof (keeps_bg_processMessage conversationStore agentStore now lastMessage
                  conversation s) as Hbg.
    destruct (processMessage_through now lastMessage conversation s) as (calls & _ & Hw).
    destruct (processMessage now lastMessage conversation s) as [[[]|e] s1];
      simpl in *; [|done].
    rewrite run_modify. eexists. split; [done|]. split; [by exists calls|].
    simpl. by rewrite Hbg.
  - rewrite run_bind.
    pose proof (processActiveConversations_returns conversationStore agentStore now s)
      as Hret.
    pose proof (keeps_bg_processActiveConversations conversationStore agentStore now s)
      as Hbg.
    destruct (processActiveConversations_through now s) as (calls & _ & Hw).
    destruct (processActiveConversations now s) as [[[]|e] s1]; simpl in *; [|done].
    rewrite run_modify. eexists. split; [done|]. split; [by exists calls|].
    simpl. by rewrite Hbg.
Qed.

Lemma due_bg now b b' id :
  processInterval b' = processInterval b →
  lastMessageTime b' !! id = lastMessageTime b !! id →
  due now b' id ↔ due now b id.
Proof. unfold due. by intros -> ->. Qed.

Lemma sweep_loop now cs s :
  NoDup (conv_id <$> cs) → sweepable (conv_id <$> cs) s →
  ∃ s',
    for_of cs (sweepBody now) s = (Ok tt, s') ∧
    intervalId (bg s') = intervalId (bg s) ∧
    processInterval (bg s') = processInterval (bg s) ∧
    isProcessing (bg s') = isProcessing (bg s) ∧
    ∀ id, lastMessageTime (bg s') !! id =
          if bool_decide (id ∈ conv_id <$> cs ∧ due now (bg s) id) then Some now
          else lastMessageTime (bg s) !! id.
Proof.
  revert s. induction cs as [|c cs IH]; intros s Hnd Hsw.
  - exists s. rewrite run_for_of_nil. do 4 (split; [done|]). intros id.
    rewrite bool_decide_eq_false_2; [done|]. by intros [?%elem_of_nil _].
  - rewrite fmap_cons in Hnd, Hsw. apply NoDup_cons in Hnd as [Hfresh Hnd].
    destruct Hsw as [Hkeys Hids]. rewrite run_for_of_cons.
    destruct (sweep_body now c s) as (s1 & Hrun & [calls Hw] & Hbg).
    { split; [done|]. intros id ->%list_elem_of_singleton. apply Hids. by left. }
    rewrite Hrun.
    destruct (IH s1 Hnd) as (s' & Hloop & Hi & Hp & Hf & Ht).
    { split; [rewrite Hw; by apply performAll_wellKeyed|].
      intros id Hid. rewrite Hw. apply performAll_stored; [done|]. apply Hids.
      by right. }
    exists s'. split; [done|].
    assert (intervalId (bg s1) = intervalId (bg s) ∧
            processInterval (bg s1) = processInterval (bg s) ∧
            isProcessing (bg s1) = isProcessing (bg s) ∧
            ∀ id, lastMessageTime (bg s1) !! id =
                  if bool_decide (id = conv_id c ∧ due now (bg s) id) then Some now
                  else lastMessageTime (bg s) !! id) as (Hi1 & Hp1 & Hf1 & Ht1).
    { rewrite Hbg. destruct (bool_decide_reflect (due now (bg s) (conv_id c))) as [Hd|Hd].
      - do 3 (split; [done|]). intros id. simpl.
        destruct (decide (id = conv_id c)) as [->|Hne].
        + rewrite lookup_insert_eq. by rewrite bool_decide_eq_true_2.
        + rewrite lookup_insert_ne by done.
          rewrite bool_decide_eq_false_2; [done|]. by intros [? _].
      - do 3 (split; [done|]). intros id.
        rewrite bool_decide_eq_false_2; [done|]. by intros [-> ?]. }
    split; [congruence|]. split; [congruence|]. split; [congruence|].
    intros id. rewrite Ht, Ht1. rewrite fmap_cons.
    destruct (decide (id = conv_id c)) as [->|Hne].
    + rewrite (bool_decide_eq_false_2 (conv_id c ∈ _ ∧ _)) by (by intros [? _]).
      destruct (bool_decide_reflect (due now (bg s) (conv_id c))) as [Hd|Hd].
      * rewrite !bool_decide_eq_true_2; [done| |done]. split; [by left|done].
      * rewrite !bool_decide_eq_false_2; [done| |]; by intros [_ ?].
    + rewrite (bool_decide_eq_false_2 (id = conv_id c ∧ _)) by (by intros [? _]).
      assert (due now (bg s1) id ↔ due now (bg s) id) as Hdue.
      { apply due_bg; [done|]. rewrite Ht1.
        rewrite bool_decide_eq_false_2; [done|]. by intros [? _]. }
      destruct (bool_decide_reflect (id ∈ conv_id <$> cs ∧ due now (bg s1) id))
        as [[Hin Hd]|Hn].
      * rewrite bool_decide_eq_true_2; [done|]. split; [by right|by apply Hdue].
      * rewrite bool_decide_eq_false_2; [done|].
        intros [[?|Hin]%elem_of_cons Hd]; [done|]. apply Hn. split; [done|].
        by apply Hdue.
Qed.

Lemma active_ids_NoDup w :
  wellKeyed w →
  NoDup (conv_id <$> List.filter (statusIs ConvActive) (allConversations w)).
Proof.
  intros Hkeys. unfold allConversations.
  assert (NoDup (map_to_list (conversationTable w)).*1) as Hnd
    by apply NoDup_fst_map_to_list.
  assert (∀ p, p ∈ map_to_list (conversationTable w) → conv_id p.2 = p.1) as Hk.
  { intros [k c] Hp. apply elem_of_map_to_list in Hp. by apply Hkeys. }
  induction (map_to_list (conversationTable w)) as [|[k c] l IH]; [constructor|].
  rewrite fmap_cons in Hnd. apply NoDup_cons in Hnd as [Hfresh Hnd].
  rewrite fmap_cons. cbn [List.filter snd].
  assert (NoDup (conv_id <$> List.filter (statusIs ConvActive) l.*2)) as Hrest.
  { apply IH; [done|]. intros p Hp. apply Hk. by right. }
  destruct (statusIs ConvActive c); [|done].
  rewrite fmap_cons. apply NoDup_cons. split; [|done].
  intros Hin. apply Hfresh. simpl.
  apply list_elem_of_fmap in Hin as (c' & Hid & Hc').
  apply list_elem_of_In, filter_In in Hc' as [Hc' _].
  apply list_elem_of_In, list_elem_of_fmap in Hc' as ([k' c''] & -> & Hp).
  apply list_elem_of_fmap. exists (k', c''). split; [|done]. simpl in *.
  assert (conv_id c = k) as <- by (apply (Hk (k, c)); by left).
  rewrite Hid. apply (Hk (k', c'')). by right.
Qed.

(** X27. Which conversations a sweep marks as advanced.  In a state whose
    rows are stored under their ids, a timer callback that finds no sweep in
    progress sets the last-advance time to the time of the sweep for every
    conversation that is active when the sweep starts and is due (the
    interval has passed since its last advance, or it was never advanced),
    whatever the provider answers and also when its generation fails; the
    entry of every other conversation stays as it is. *)
Theorem sweep_marks_due_conversations now s id :
  wellKeyed (world s) → isProcessing (bg s) = false →
  ((∃ c, conversationTable (world s) !! id = Some c ∧ conv_status c = ConvActive) ∧
   processInterval (bg s) ≤ now - default 0 (lastMessageTime (bg s) !! id) →
   lastMessageTime (bg (tick now s).2) !! id = Some now) ∧
  (¬ ((∃ c, conversationTable (world s) !! id = Some c ∧ conv_status c = ConvActive) ∧
      processInterval (bg s) ≤ now - default 0 (lastMessageTime (bg s) !! id)) →
   lastMessageTime (bg (tick now s).2) !! id = lastMessageTime (bg s) !! id).
Proof.
  intros Hkeys Hidle.
  assert (lastMessageTime (bg (tick now s).2) !! id =
          if bool_decide
               (id ∈ conv_id <$> List.filter (statusIs ConvActive) (allConversations (world s))
                ∧ due now (bg s) id)
          then Some now else lastMessageTime (bg s) !! id) as Hstamp.
  { unfold Scheduler.tick. rewrite run_bind, run_get. cbv beta iota zeta.
    rewrite Hidle. rewrite run_bind, run_modify. cbv beta iota zeta.
    rewrite run_bind, run_try_catch.
    unfold Scheduler.processConversations. rewrite run_try_catch, run_bind.
    unfold ConversationService.getAllConversations.
    rewrite run_onWorld, run_convs_findAll. cbn [fst snd]. rewrite with_world_same.
    cbv beta iota zeta.
    destruct (sweep_loop now
                (List.filter (statusIs ConvActive)
                   (allConversations (world (Scheduler.set_isProcessing true s))))
                (Scheduler.set_isProcessing true s))
      as (s' & Hloop & _ & _ & _ & Ht).
    - by apply active_ids_NoDup.
    - split; [done|]. intros k Hk. apply active_ids in Hk as (c & -> & _); done.
    - cbv beta iota zeta in Hloop. rewrite Hloop. cbv beta iota zeta.
      rewrite run_modify. simpl. apply Ht. }
  rewrite Hstamp. split.
  - intros [(c & Hc & Hact) Hdue]. rewrite bool_decide_eq_true_2; [done|].
    split; [|done]. apply active_ids; eauto.
  - intros Hnot. rewrite bool_decide_eq_false_2; [done|].
    intros [Hin Hdue]. apply Hnot. split; [|done]. by apply active_ids in Hin.
Qed.

Lemma wellKeyed_list w :
  Forall (fun p => conv_id p.2 = p.1) (map_to_list (conversationTable w)) → wellKeyed w.
Proof.
  intros Hall k c Hk. rewrite Forall_forall in Hall.
  apply (Hall (k, c)). by apply elem_of_map_to_list.
Qed.

(** An instance: conversation "1" was advanced 10 ms ago and is skipped;
    conversation "0" was never advanced and is marked, though the provider
    rejects every call. *)
Lemma sweep_marks_due_conversations_witness :
  let a := mkConversation "0" "A" "topic" "goal" "room" ConvActive ["0"; "1"] [] 5
             None (Some false) in
  let b := mkConversation "1" "B" "topic" "goal" "room" ConvActive ["2"; "3"] [] 5
             None (Some false) in
  let w := mkWorld ∅ {[ "0" := a; "1" := b ]} in
  let driver := GenerationDriver.create 50 (Some "key")
                  (Some (mkOpenAI (fun _ => Rejects) 0)) in
  let s := mkSystem w driver (mkBackgroundService (Some 1000) false 1000 {[ "1" := 9990 ]}) in
  lastMessageTime (bg (tick 10000 s).2) !! "0" = Some 10000.
Proof.
  intros a b w driver s.
  assert (wellKeyed (world s)) as Hkeys.
  { apply wellKeyed_list. vm_compute. by repeat constructor. }
  apply (proj1 (sweep_marks_due_conversations 10000 s "0" Hkeys eq_refl)).
  split; [by exists a|]. vm_compute. discriminate.
Defined.

(** ** The availability checks *)

Lemma two_inactive (l : list (Id * Agent)) :
  NoDup l.*1 →
  (2 ≤ length (List.filter (fun a => bool_decide (agent_status a = AgentInactive)) l.*2))%nat →
  ∃ k1 a1 k2 a2,
    (k1, a1) ∈ l ∧ (k2, a2) ∈ l ∧ k1 ≠ k2 ∧
    agent_status a1 = AgentInactive ∧ agent_status a2 = AgentInactive.
Proof.
  induction l as [|[k a] l IH]; [simpl; lia|].
  rewrite !fmap_cons. intros [Hk Hnd]%NoDup_cons. cbn [List.filter snd].
  destruct (bool_decide_reflect (agent_status a = AgentInactive)) as [Ha|Ha].
  - cbn [length]. intros Hlen.
    destruct (List.filter _ l.*2) as [|a2 rest] eqn:Hf; [simpl in Hlen; lia|].
    assert (In a2 (List.filter
                     (fun a => bool_decide (agent_status a = AgentInactive)) l.*2))
      as Hin by (rewrite Hf; by left).
    apply filter_In in Hin as [Hin Ha2]. apply bool_decide_eq_true in Ha2.
    apply list_elem_of_In, list_elem_of_fmap in Hin as ([k2 a2'] & -> & Hp).
    exists k, a, k2, a2'. split; [by left|]. split; [by right|]. split; [|done].
    intros ->. apply Hk. simpl. apply list_elem_of_fmap. by exists (k2, a2').
  - intros Hlen. destruct (IH Hnd Hlen) as (k1 & a1 & k2 & a2 & H1 & H2 & Hne & Hs).
    exists k1, a1, k2, a2. split; [by right|]. split; [by right|]. done.
Qed.

(** X28. [hasEnoughInactiveAgents] is a sufficient check.  It reads
    without writing, and when it returns true there are two different
    stored agents that [createConversation] accepts together as the
    participants of a conversation, under every name that is free. *)
Theorem hasEnoughInactiveAgents_sufficient w :
  ∃ enough,
    hasEnoughInactiveAgents w = (Ok enough, w) ∧
    (enough = true →
     ∃ id1 id2, id1 ≠ id2 ∧
       ∀ now data,
         cc_participantIds data = [id1; id2] →
         ¬ conversationNameTaken w (cc_name data) →
         ∃ c w', createConversation now data w = (Ok c, w') ∧
                 conv_participants c = [id1; id2]).
Proof.
  unfold ConversationQueries.hasEnoughInactiveAgents.
  rewrite run_bind, run_agents_findAll. cbv beta iota zeta. rewrite run_ret.
  eexists. split; [done|]. intros Hlen%Nat.leb_le.
  destruct (two_inactive (map_to_list (agentTable w)) (NoDup_fst_map_to_list _) Hlen)
    as (k1 & a1 & k2 & a2 & H1%elem_of_map_to_list & H2%elem_of_map_to_list & Hne & Hs1 & Hs2).
  exists k1, k2. split; [done|]. intros now data Hids Hfree.
  rewrite createConversation_eq, bool_decide_eq_false_2 by done.
  rewrite Hids. cbn [length Nat.ltb Nat.leb orb firstUnavailable].
  rewrite H1, Hs1. cbn [bool_decide decide_rel]. rewrite H2, Hs2.
  eexists _, _. split; [done|]. simpl. by rewrite Hids.
Qed.

(** X29. [isAgentInActiveConversation] reads without writing and tells
    whether the agent is a participant of a stored conversation whose
    status is 'active'; a paused conversation does not count.  When the
    reservation invariant holds, it returns true only for agents that are
    active. *)
Theorem isAgentInActiveConversation_spec id w :
  ∃ busy,
    isAgentInActiveConversation id w = (Ok busy, w) ∧
    (busy = true ↔
     ∃ k c, conversationTable w !! k = Some c ∧ conv_status c = ConvActive ∧
            id ∈ conv_participants c) ∧
    ((∀ k c, conversationTable w !! k = Some c → id ∈ conv_participants c →
             conv_status c = ConvPaused) → busy = false) ∧
    (busy = true → reservedIffParticipating w →
     ∀ a, agentTable w !! id = Some a → agent_status a = AgentActive).
Proof.
  unfold ConversationService.isAgentInActiveConversation.
  rewrite run_bind, run_convs_findAll. cbv beta iota zeta. rewrite run_ret.
  eexists. split; [done|].
  assert (existsb (fun conversation =>
                     statusIs ConvActive conversation &&
                     includes (conv_participants conversation) id)
            (allConversations w) = true ↔
          ∃ k c, conversationTable w !! k = Some c ∧ conv_status c = ConvActive ∧
                 id ∈ conv_participants c) as Hbusy.
  { rewrite existsb_exists. split.
    - intros (c & Hin & Hc). apply list_elem_of_In, elem_of_allConversations in Hin
        as [k Hk].
      apply andb_true_iff in Hc as [Hs Hp]. apply bool_decide_eq_true in Hs, Hp. eauto.
    - intros (k & c & Hk & Hs & Hp). exists c. split.
      + apply list_elem_of_In, elem_of_allConversations. eauto.
      + apply andb_true_iff. split; by apply bool_decide_eq_true. }
  split; [done|]. split.
  - intros Hpaused. apply not_true_is_false. intros Hb.
    apply Hbusy in Hb as (k & c & Hk & Hs & Hp). specialize (Hpaused k c Hk Hp).
    congruence.
  - intros Hb Hres a Ha. apply Hbusy in Hb as (k & c & Hk & Hs & Hp).
    apply (Hres id a Ha). exists k, c. split; [done|]. split; [by left|done].
Qed.

(** ** The opening pass *)

Lemma sameProfiles_refl t : sameProfiles t t.
Proof. intros x a Ha. by exists a. Qed.

Lemma sameProfiles_trans t1 t2 t3 :
  sameProfiles t1 t2 → sameProfiles t2 t3 → sameProfiles t1 t3.
Proof.
  intros H12 H23 x a Ha. destruct (H12 x a Ha) as (a2 & Ha2 & Ht & Hd).
  destruct (H23 x a2 Ha2) as (a3 & Ha3 & Ht3 & Hd3). exists a3.
  split; [done|]. split; congruence.
Qed.

Lemma perform_profiles call w : sameProfiles (agentTable w) (agentTable (perform call w)).
Proof.
  intros x a Ha. destruct (perform_agent call w x) as (f & Hf & ->).
  rewrite Ha. simpl. exists (f a). split; [done|].
  by destruct (Hf a) as [->|[st ->]].
Qed.

Lemma performAll_profiles calls w :
  sameProfiles (agentTable w) (agentTable (performAll calls w)).
Proof.
  unfold performAll. revert w. induction calls as [|call calls IH]; intros w.
  - apply sameProfiles_refl.
  - simpl. eapply sameProfiles_trans; [apply perform_profiles|apply IH].
Qed.

Lemma perform_other call w id k :
  targets id call → k ≠ id →
  conversationTable (perform call w) !! k = conversationTable w !! k.
Proof.
  intros Hcall Hne. destruct call as [?|now data|now id' g|?| |?|?]; try done;
    simpl in Hcall; subst id.
  - by apply perform_add_other.
  - by apply perform_complete_other.
Qed.

Lemma performAll_other calls w id k :
  Forall (targets id) calls → k ≠ id →
  conversationTable (performAll calls w) !! k = conversationTable w !! k.
Proof.
  unfold performAll. intros Hcalls Hne. revert w.
  induction Hcalls as [|call calls Hcall _ IH]; intros w; [done|].
  simpl. rewrite IH. by apply (perform_other call w id).
Qed.

Lemma stepShape_targets now id due calls :
  stepShape now id due calls → Forall (targets id) calls.
Proof.
  intros [->|(sender & content & [->|[_ ->]])]; repeat constructor.
Qed.

Lemma openingMessage_profile agent agent' conversation :
  agent_type agent' = agent_type agent →
  agent_description agent' = agent_description agent →
  GenerationDriver.openingMessage agent' conversation
  = GenerationDriver.openingMessage agent conversation.
Proof. unfold GenerationDriver.openingMessage. by intros -> ->. Qed.

Lemma addMessage_to_all now id sender content w c :
  conversationTable w !! id = Some c → conv_status c = ConvActive →
  sender ∈ conv_participants c →
  addMessage now (mkAddMessageDTO id sender content RecipientsAll) w =
  (Ok (mkMessage (fresh (messageIds w)) id sender content
         (RecipientsOf (conv_participants c)) now),
   with_conversations
     (<[id := appendMessage
                (mkMessage (fresh (messageIds w)) id sender content
                   (RecipientsOf (conv_participants c)) now) c]>
        (conversationTable w)) w).
Proof.
  intros Hc Hact Hin. rewrite addMessage_eq. cbn [am_conversationId am_senderId].
  rewrite Hc. unfold statusIs, includes.
  by rewrite (bool_decide_eq_true_2 _ Hact), (bool_decide_eq_true_2 _ Hin).
Qed.

(** One iteration of the opening pass on a listed conversation whose row is
    as listed: it returns, it changes no other row, and it opens the
    conversation when it is silent and its first participant is stored. *)
Lemma opening_body now c s :
  wellKeyed (world s) →
  conversationTable (world s) !! conv_id c = Some c → conv_status c = ConvActive →
  ∃ s' calls,
    openingBody now c s = (Ok tt, s') ∧
    Forall (targets (conv_id c)) calls ∧ world s' = performAll calls (world s) ∧
    (conv_messages c = [] →
     ∀ first agent, head (conv_participants c) = Some first →
       agentTable (world s) !! first = Some agent →
       ∃ m, conversationTable (world s') !! conv_id c = Some (appendMessage m c) ∧
            msg_senderId m = first ∧
            msg_content m = GenerationDriver.openingMessage agent c ∧
            msg_recipients m = RecipientsOf (conv_participants c) ∧
            msg_timestamp m = now).
Proof.
  intros Hkeys Hc Hact. cbv beta.
  rewrite run_bind, run_read_messages, Hc. cbv beta iota zeta.
  destruct (last (conv_messages c)) as [lastMessage|] eqn:Hlast.
  - pose proof (processMessage_returns conversationStore agentStore now lastMessage c s)
      as Hret.
    destruct (processMessage_shape now lastMessage c s) as (calls & Hshape & Hw).
    destruct (processMessage now lastMessage c s) as [[[]|e] s1]; simpl in *; [|done].
    exists s1, calls. split; [done|]. split; [by eapply stepShape_targets|].
    split; [done|]. intros Hnil. by rewrite Hnil in Hlast.
  - assert (conv_messages c = []) as Hnil.
    { destruct (conv_messages c) as [|m l] using rev_ind; [done|].
      by rewrite last_snoc in Hlast. }
    destruct (head (conv_participants c)) as [first|] eqn:Hhead.
    2: { exists s, []. rewrite run_ret. split; [done|]. split; [constructor|].
         split; [done|]. by intros _ first agent. }
    rewrite run_bind, run_read_agent. cbv beta iota zeta.
    destruct (agentTable (world s) !! first) as [agent|] eqn:Hagent.
    2: { exists s, []. rewrite run_ret. split; [done|]. split; [constructor|].
         split; [done|]. intros _ first' agent' [= <-] Ha. congruence. }
    assert (first ∈ conv_participants c) as Hin.
    { destruct (conv_participants c) as [|x l]; [done|]. injection Hhead as ->. by left. }
    rewrite run_bind, run_onWorld, (addMessage_to_all now _ _ _ _ c Hc Hact Hin).
    cbn [fst snd]. cbv beta iota zeta. rewrite run_ret.
    eexists _, [AddMessage now
                  (mkAddMessageDTO (conv_id c) first
                     (GenerationDriver.openingMessage agent c) RecipientsAll)].
    split; [done|]. split; [by repeat constructor|].
    split.
    + cbn [performAll foldl perform].
      by rewrite (addMessage_to_all now _ _ _ _ c Hc Hact Hin).
    + intros _ first' agent' Hf Ha. injection Hf as <-. rewrite Hagent in Ha.
      injection Ha as <-. eexists. simpl.
      rewrite lookup_insert_eq. split; [done|]. done.
Qed.

Lemma opening_loop now cs s :
  NoDup (conv_id <$> cs) → wellKeyed (world s) →
  (∀ c, c ∈ cs →
     conversationTable (world s) !! conv_id c = Some c ∧ conv_status c = ConvActive) →
  ∃ s',
    for_of cs (openingBody now) s = (Ok tt, s') ∧
    sameProfiles (agentTable (world s)) (agentTable (world s')) ∧
    (∀ k, k ∉ conv_id <$> cs →
       conversationTable (world s') !! k = conversationTable (world s) !! k) ∧
    (∀ c, c ∈ cs → conv_messages c = [] →
       ∀ first agent, head (conv_participants c) = Some first →
         agentTable (world s) !! first = Some agent →
         ∃ m, conversationTable (world s') !! conv_id c = Some (appendMessage m c) ∧
              msg_senderId m = first ∧
              msg_content m = GenerationDriver.openingMessage agent c ∧
              msg_recipients m = RecipientsOf (conv_participants c) ∧
              msg_timestamp m = now).
Proof.
  revert s. induction cs as [|c cs IH]; intros s Hnd Hkeys Hall.
  - exists s. rewrite run_for_of_nil. split; [done|].
    split; [apply sameProfiles_refl|]. split; [done|]. by intros c ?%elem_of_nil.
  - rewrite fmap_cons in Hnd. apply NoDup_cons in Hnd as [Hfresh Hnd].
    destruct (Hall c) as [Hc Hact]; [by left|].
    destruct (opening_body now c s Hkeys Hc Hact)
      as (s1 & calls & Hrun & Htargets & Hw & Hopen).
    assert (∀ k, k ≠ conv_id c →
              conversationTable (world s1) !! k = conversationTable (world s) !! k)
      as Hother.
    { intros k Hk. rewrite Hw. by apply (performAll_other calls _ (conv_id c)). }
    assert (∀ c', c' ∈ cs → conv_id c' ≠ conv_id c) as Hdiff.
    { intros c' Hc' Heq. apply Hfresh. rewrite <- Heq. by apply list_elem_of_fmap_2. }
    destruct (IH s1 Hnd) as (s' & Hloop & Hprof & Hothers & Hopens).
    { rewrite Hw. by apply performAll_wellKeyed. }
    { intros c' Hc'. rewrite Hother by auto. apply Hall. by right. }
    exists s'. split.
    { rewrite run_for_of_cons. cbv beta in Hrun. rewrite Hrun. exact Hloop. }
    split.
    { eapply sameProfiles_trans; [|exact Hprof]. rewrite Hw. apply performAll_profiles. }
    split.
    { intros k Hk. rewrite fmap_cons in Hk. apply not_elem_of_cons in Hk as [Hk1 Hk2].
      rewrite Hothers by done. by apply Hother. }
    intros c0 [->|Hc0]%elem_of_cons Hnil first agent Hhead Hagent.
    + destruct (Hopen Hnil first agent Hhead Hagent) as (m & Hm & Hfields).
      exists m. split; [|done]. by rewrite Hothers.
    + assert (sameProfiles (agentTable (world s)) (agentTable (world s1))) as Hp1
        by (rewrite Hw; apply performAll_profiles).
      destruct (Hp1 first agent Hagent) as (agent1 & Hagent1 & Ht & Hd).
      destruct (Hopens c0 Hc0 Hnil first agent1 Hhead Hagent1)
        as (m & Hm & Hs & Hcontent & Hrest).
      exists m. split; [done|]. split; [done|]. split; [|done].
      rewrite Hcontent. by apply openingMessage_profile.
Qed.

(** X30. The opening pass opens every silent conversation.  With a driver
    that is enabled and has a client, in a state whose rows are stored
    under their ids, [processActiveConversations] gives every active
    conversation without messages, whose first participant is a stored
    agent, exactly one message: sent by that participant to all
    participants at the time of the pass, with the introduction built from
    the type and description of the agent and the topic and goal of the
    conversation; this holds whatever the provider answers for the other
    conversations of the pass. *)
Theorem opening_pass_opens_silent_conversations now s id c first agent :
  ready s → wellKeyed (world s) →
  conversationTable (world s) !! id = Some c → conv_status c = ConvActive →
  conv_messages c = [] →
  head (conv_participants c) = Some first → agentTable (world s) !! first = Some agent →
  ∃ m,
    conversationTable (world (processActiveConversations now s).2) !! id
    = Some (appendMessage m c) ∧
    conv_messages (appendMessage m c) = [m] ∧
    msg_senderId m = first ∧
    msg_content m = GenerationDriver.openingMessage agent c ∧
    msg_recipients m = RecipientsOf (conv_participants c) ∧
    msg_timestamp m = now.
Proof.
  intros Hready Hkeys Hc Hact Hnil Hhead Hagent.
  unfold GenerationDriver.processActiveConversations.
  rewrite run_bind, run_get. cbv beta iota zeta. rewrite (ready_guard s Hready).
  rewrite run_try_catch, run_bind.
  unfold ConversationService.getAllConversations.
  rewrite run_onWorld, run_convs_findAll. cbn [fst snd]. rewrite with_world_same.
  cbv beta iota zeta.
  destruct (opening_loop now
              (List.filter (statusIs ConvActive) (allConversations (world s))) s)
    as (s' & Hloop & _ & _ & Hopens).
  - by apply active_ids_NoDup.
  - done.
  - intros c' Hc'. apply list_elem_of_In, filter_In in Hc' as [Hin Hs].
    apply bool_decide_eq_true in Hs. split; [|done].
    apply list_elem_of_In, elem_of_allConversations in Hin as [k Hk].
    by rewrite (Hkeys k c' Hk).
  - cbv beta iota zeta in Hloop. rewrite Hloop. simpl.
    destruct (Hopens c) with (first := first) (agent := agent)
      as (m & Hm & Hfields); try done.
    + apply list_elem_of_In, filter_In. split.
      * apply list_elem_of_In, elem_of_allConversations. eauto.
      * by apply bool_decide_eq_true.
    + exists m. rewrite (Hkeys id c Hc) in Hm. split; [done|]. split; [|done].
      simpl. by rewrite Hnil.
Qed.

(** An instance: the conversation of carol and dave has no message yet, and
    the provider rejects every call. *)
Lemma opening_pass_opens_silent_conversations_witness :
  let carol := mkAgent "2" "carol" Specialist (Some "reviews contracts") AgentActive 3 in
  let dave := mkAgent "3" "dave" Learning None AgentActive 4 in
  let b := mkConversation "1" "B" "pricing" "agree on a price" "room" ConvActive
             ["2"; "3"] [] 5 None (Some false) in
  let w := mkWorld {[ "2" := carol; "3" := dave ]} {[ "1" := b ]} in
  let driver := GenerationDriver.create 50 (Some "key")
                  (Some (mkOpenAI (fun _ => Rejects) 0)) in
  let s := mkSystem w driver (Scheduler.create 1000) in
  ∃ m, conversationTable (world (processActiveConversations 10000 s).2) !! "1"
       = Some (appendMessage m b) ∧
       msg_senderId m = "2" ∧
       msg_content m =
         "As a specialist who reviews contracts, I'd like to begin our discussion about pricing. Our goal is to agree on a price. Let's work together to achieve this.".
Proof.
  intros carol dave b w driver s.
  assert (wellKeyed (world s)) as Hkeys.
  { apply wellKeyed_list. vm_compute. by repeat constructor. }
  assert (ready s) as Hready by (split; [reflexivity|by eexists]).
  destruct (opening_pass_opens_silent_conversations 10000 s "1" b "2" carol
              Hready Hkeys eq_refl eq_refl eq_refl eq_refl eq_refl)
    as (m & Hm & _ & Hs & Hcontent & _).
  exists m. split; [done|]. split; [done|]. rewrite Hcontent. vm_compute. reflexivity.
Defined.

(** ** What a failed step leaves behind (C7) *)

Lemma bind_Throw {S A B} (m : M S A) (k : A → M S B) s e s1 :
  bind m k s = (Throw e, s1) →
  m s = (Throw e, s1) ∨ ∃ a s2, m s = (Ok a, s2) ∧ k a s2 = (Throw e, s1).
Proof.
  rewrite run_bind. destruct (m s) as [[a|e'] s2]; intros H; [right; eauto|].
  injection H as -> ->. by left.
Qed.

Lemma keeps_run {S T A} (f : S → T) (m : M S A) s r s1 :
  keeps f m → m s = (r, s1) → f s1 = f s.
Proof. intros H Hm. specialize (H s). by rewrite Hm in H. Qed.

Lemma addMessage_Throw now data w e w1 :
  addMessage now data w = (Throw e, w1) → w1 = w.
Proof.
  rewrite addMessage_eq.
  destruct (conversationTable w !! am_conversationId data) as [c|]; [|congruence].
  destruct (negb _); [congruence|]. destruct (negb _); [congruence|].
  destruct (0 <? _)%nat; congruence.
Qed.

Lemma completeConversation_Throw now id g w e w1 :
  completeConversation now id g w = (Throw e, w1) → w1 = w.
Proof.
  rewrite completeConversation_eq.
  destruct (conversationTable w !! id) as [c|]; [|congruence].
  destruct (negb _); congruence.
Qed.

(** A returning [addMessage] appends its message to the row of its
    conversation and changes nothing else. *)
Lemma addMessage_Ok now data w m w1 :
  addMessage now data w = (Ok m, w1) →
  ∃ c, conversationTable w !! am_conversationId data = Some c ∧
       w1 = mkWorld (agentTable w)
              (<[am_conversationId data := appendMessage m c]> (conversationTable w)) ∧
       messagesOf w1 (am_conversationId data) =
         (messagesOf w (am_conversationId data) ++ [m])%list ∧
       msg_senderId m = am_senderId data ∧ msg_content m = am_content data ∧
       msg_timestamp m = now.
Proof.
  rewrite addMessage_eq. unfold messagesOf.
  destruct (conversationTable w !! am_conversationId data) as [c|] eqn:Hc; [|congruence].
  destruct (negb _); [congruence|]. destruct (negb _); [congruence|].
  destruct (0 <? _)%nat; [congruence|]. intros [= <- <-].
  exists c. split; [done|]. split; [done|]. simpl. by rewrite lookup_insert_eq.
Qed.

(** A throwing generation leaves the tables as they were, or as the
    [addMessage] of the reply left them; the latter only when the goal check
    was due, which is where it then threw. *)
Lemma processMessage_generate_failure now conversation context s e s1 :
  processMessage_generate now conversation context s = (Throw e, s1) →
  world s1 = world s ∨
  ∃ sender content m,
    Z.rem (ctx_messageCount context) (messageCheckThreshold (ai s)) = 0 ∧
    addMessage now (mkAddMessageDTO (conv_id conversation) sender content RecipientsAll)
      (world s) = (Ok m, world s1).
Proof.
  unfold GenerationDriver.processMessage_generate. intros Hrun.
  apply bind_Throw in Hrun as [H|(messages & s2 & H1 & Hrun)].
  { left. eapply (keeps_run world); [|exact H].
    apply keeps_onWorld_world, keeps_getConversationMessages. }
  assert (world s2 = world s) as Hw2.
  { eapply (keeps_run world); [|exact H1].
    apply keeps_onWorld_world, keeps_getConversationMessages. }
  assert (driverSettings s2 = driverSettings s) as Hd2.
  { eapply (keeps_run driverSettings); [|exact H1]. keeps_auto. }
  apply bind_Throw in Hrun as [H|(formatted & s3 & H2 & Hrun)].
  { left. rewrite <- Hw2. eapply (keeps_run world); [|exact H].
    apply keeps_map_async. intros m. apply keeps_formatTurn. }
  assert (world s3 = world s) as Hw3.
  { rewrite <- Hw2. eapply (keeps_run world); [|exact H2].
    apply keeps_map_async. intros m. apply keeps_formatTurn. }
  assert (driverSettings s3 = driverSettings s) as Hd3.
  { rewrite <- Hd2. eapply (keeps_run driverSettings); [|exact H2].
    apply keeps_map_async. intros m. apply keeps_formatTurn. }
  apply bind_Throw in Hrun as [H|(u & s4 & H3 & Hrun)].
  { left. rewrite <- Hw3. eapply (keeps_run world); [|exact H].
    apply keeps_generateSystemPrompt. }
  assert (world s4 = world s) as Hw4.
  { rewrite <- Hw3. eapply (keeps_run world); [|exact H3].
    apply keeps_generateSystemPrompt. }
  assert (driverSettings s4 = driverSettings s) as Hd4.
  { rewrite <- Hd3. eapply (keeps_run driverSettings); [|exact H3].
    apply keeps_generateSystemPrompt. }
  apply bind_Throw in Hrun as [H|(content & s5 & H4 & Hrun)].
  { left. rewrite <- Hw4. eapply (keeps_run world); [|exact H]. keeps_auto. }
  assert (world s5 = world s) as Hw5.
  { rewrite <- Hw4. eapply (keeps_run world); [|exact H4]. keeps_auto. }
  assert (driverSettings s5 = driverSettings s) as Hd5.
  { rewrite <- Hd4. eapply (keeps_run driverSettings); [|exact H4]. keeps_auto. }
  destruct content as [[|a text]|]; try (injection Hrun as _ <-; by left).
  apply bind_Throw in Hrun as [H|(parsed & s6 & H5 & Hrun)].
  { left. rewrite run_liftResult in H. by injection H as _ <-. }
  rewrite run_liftResult in H5. injection H5 as _ <-.
  apply bind_Throw in Hrun as [H|(m & s7 & H6 & Hrun)].
  { left. rewrite run_onWorld in H. injection H as Hr <-. simpl.
    destruct (addMessage _ _ (world s5)) as [r w1] eqn:Hadd. simpl in *. subst r.
    apply addMessage_Throw in Hadd. congruence. }
  rewrite run_onWorld in H6. injection H6 as Hr Hs7.
  assert (addMessage now
            (mkAddMessageDTO (conv_id conversation) parsed.1 parsed.2 RecipientsAll)
            (world s) = (Ok m, world s7)) as Hadd.
  { rewrite <- Hs7, <- Hw5. simpl. rewrite <- Hr. by destruct (addMessage _ _ _). }
  assert (messageCheckThreshold (ai s7) = messageCheckThreshold (ai s)) as Ht.
  { rewrite <- Hs7. simpl. unfold driverSettings in Hd5. congruence. }
  rewrite run_bind, run_get in Hrun. cbv beta iota zeta in Hrun. rewrite Ht in Hrun.
  destruct (Z.eqb_spec (Z.rem (ctx_messageCount context) (messageCheckThreshold (ai s))) 0)
    as [Hdue|Hnot]; [|done].
  right. exists parsed.1, parsed.2, m. split; [done|].
  apply bind_Throw in Hrun as [H|(u' & s8 & _ & H)]; [|done].
  apply bind_Throw in H as [H|(achieved & s8 & H7 & H)].
  { rewrite (keeps_run world _ _ _ _ (checkGoalAchievement_world _) H). exact Hadd. }
  pose proof (keeps_run world _ _ _ _ (checkGoalAchievement_world _) H7) as Hw8.
  destruct achieved; [|done].
  apply bind_Throw in H as [H|(c' & s9 & _ & H)]; [|done].
  rewrite run_onWorld in H. injection H as Hr' <-. simpl.
  destruct (completeConversation _ _ _ (world s8)) as [r w1] eqn:Hc. simpl in *. subst r.
  apply completeConversation_Throw in Hc. congruence.
Qed.

(** The same for the whole [try] block; the counter that decides whether the
    goal check is due is the one of the context after its increment. *)
Lemma processMessage_try_failure now message conversation s e s1 :
  processMessage_try now message conversation s = (Throw e, s1) →
  world s1 = world s ∨
  ∃ sender content m,
    Z.rem (default 0 (ctx_messageCount <$> contextsOf s !! conv_id conversation) + 1)
      (messageCheckThreshold (ai s)) = 0 ∧
    addMessage now (mkAddMessageDTO (conv_id conversation) sender content RecipientsAll)
      (world s) = (Ok m, world s1).
Proof.
  assert (∀ s0 context,
            world s0 = world s →
            messageCheckThreshold (ai s0) = messageCheckThreshold (ai s) →
            ctx_messageCount context =
              default 0 (ctx_messageCount <$> contextsOf s !! conv_id conversation) →
            bind (modify (fun s =>
                    with_ai (set_contexts
                               (<[conv_id conversation :=
                                    set_messageCount (ctx_messageCount context + 1)
                                      context]> (conversationContexts (ai s)))
                               (ai s)) s))
              (fun _ => processMessage_generate now conversation
                          (set_messageCount (ctx_messageCount context + 1) context))
              s0 = (Throw e, s1) →
            world s1 = world s ∨
            ∃ sender content m,
              Z.rem (default 0 (ctx_messageCount <$>
                                  contextsOf s !! conv_id conversation) + 1)
                (messageCheckThreshold (ai s)) = 0 ∧
              addMessage now
                (mkAddMessageDTO (conv_id conversation) sender content RecipientsAll)
                (world s) = (Ok m, world s1)) as Hgen.
  { intros s0 context Hw Ht Hn. rewrite run_bind, run_modify. cbv beta iota zeta.
    intros Hrun. apply processMessage_generate_failure in Hrun.
    simpl in Hrun. rewrite Hw, Ht, Hn in Hrun. exact Hrun. }
  unfold GenerationDriver.processMessage_try. rewrite run_bind, run_get.
  cbv beta iota zeta. unfold contextsOf in *.
  destruct (conversationContexts (ai s) !! conv_id conversation) as [context|] eqn:Hctx.
  - rewrite run_bind, run_ret. cbv beta iota zeta. by apply Hgen.
  - rewrite run_bind, run_bind.
    pose proof (initializeConversation_world conversation s) as Hworld.
    destruct (initializeConversation conversation s) as [[u|e'] s2] eqn:Hinit;
      simpl in Hworld.
    2: { intros [= _ <-]. by left. }
    apply initializeConversation_Ok in Hinit as (Hw & Ht & context & Hc & Hn).
    cbv beta iota zeta. rewrite run_bind, run_get. cbv beta iota zeta.
    unfold contextsOf in Hc. rewrite Hc, run_ret. cbv beta iota zeta. by apply Hgen.
Qed.

(** C7 (as stated, fails): a failed step does not always leave the
    conversations untouched.  With a goal check every 10 steps, nine steps
    fail in a rejected generation call and leave the one message of the
    conversation; in the tenth step the provider answers, the reply is
    stored, and the goal check that follows is rejected: the step fails, the
    counter goes from 9 to 10, the driver is disabled, and the conversation
    has two messages. *)
Lemma goal_check_failure_keeps_reply :
  let carol := mkAgent "2" "carol" Specialist None AgentActive 3 in
  let dave := mkAgent "3" "dave" Learning None AgentActive 4 in
  let hello := mkMessage "0" "1" "2" "hello" (RecipientsOf ["2"; "3"]) 6 in
  let b := mkConversation "1" "B" "topic" "goal" "room" ConvActive ["2"; "3"] [hello] 5
             None (Some false) in
  let w := mkWorld {[ "2" := carol; "3" := dave ]} {[ "1" := b ]} in
  let provider := mkOpenAI (fun k => if (k =? 9)%nat
                                     then Resolves (Some "dave: I agree")
                                     else Rejects) 0 in
  let driver := GenerationDriver.create 10 (Some "key") (Some provider) in
  let s := runSteps (replicate 9 (mkStep 10000 hello b))
             (mkSystem w driver (Scheduler.create 1000)) in
  let s' := (processMessage 10000 hello b s).2 in
  (isEnabled (ai s) = true ∧ errorsOf s = 9 ∧
   msg_content <$> messagesOf (world s) "1" = ["hello"]) ∧
  (processMessage_try 10000 hello b s).1 = Throw ProviderError ∧
  (isEnabled (ai s') = false ∧ errorsOf s' = 10 ∧
   msg_content <$> messagesOf (world s') "1" = ["hello"; "I agree"]).
Proof. vm_compute. auto. Qed.

(** C7 (amended): for a step that passes the guard of [processMessage]:
    when its [try] block throws (whatever throws: a call of the provider,
    the parsing, or anything else in it), the consecutive-error counter goes
    up by one, the driver is disabled afterwards exactly when the counter
    has reached [maxConsecutiveErrors], the reason is then set to a readable
    text, and the handler itself changes neither the tables nor the
    contexts.  The tables after a failed step are those before it, or, when
    the step failed after the reply was stored (in the goal check, which is
    due when the message counter of the context after its increment is a
    multiple of the goal check threshold), those before it with the one
    generated message appended to its conversation: no agent and no other
    conversation has changed, also when this is the step that disables the
    driver.  When the generation call is rejected, returns no text, or
    returns a text that does not parse against the roster of the
    conversation's context, the tables are as before the step.  When the
    [try] block returns, the counter is zero and the driver stays enabled.
    Over any sequence of steps from an enabled driver whose counter is below
    the threshold, the driver is either enabled with the counter below the
    threshold, or disabled with the counter at the threshold and the reason
    set. *)
Theorem consecutive_errors_contract now message conversation s :
  ready s →
  (∀ e s1, processMessage_try now message conversation s = (Throw e, s1) →
     let s' := (processMessage now message conversation s).2 in
     errorsOf s' = errorsOf s + 1 ∧
     (isEnabled (ai s') = false ↔ maxConsecutiveErrors (ai s) ≤ errorsOf s + 1) ∧
     (isEnabled (ai s') = false → disabledReason (ai s') = Some tooManyErrors) ∧
     world s' = world s1 ∧ contextsOf s' = contextsOf s1 ∧
     agentTable (world s') = agentTable (world s) ∧
     (∀ k, k ≠ conv_id conversation →
        conversationTable (world s') !! k = conversationTable (world s) !! k) ∧
     (world s' = world s ∨
      ∃ sender content m c,
        Z.rem (default 0 (ctx_messageCount <$> contextsOf s !! conv_id conversation) + 1)
          (messageCheckThreshold (ai s)) = 0 ∧
        addMessage now
          (mkAddMessageDTO (conv_id conversation) sender content RecipientsAll)
          (world s) = (Ok m, world s') ∧
        conversationTable (world s) !! conv_id conversation = Some c ∧
        world s' = mkWorld (agentTable (world s))
                     (<[conv_id conversation := appendMessage m c]>
                        (conversationTable (world s))) ∧
        messagesOf (world s') (conv_id conversation) =
          (messagesOf (world s) (conv_id conversation) ++ [m])%list ∧
        msg_senderId m = sender ∧ msg_content m = content ∧ msg_timestamp m = now)) ∧
  (∀ s1, processMessage_try now message conversation s = (Ok tt, s1) →
     processMessage now message conversation s = (Ok tt, s1) ∧
     errorsOf s1 = 0 ∧ isEnabled (ai s1) = true) ∧
  (∀ c, clientOf s = Some c →
     let s' := (processMessage now message conversation s).2 in
     (script c (served c) = Rejects → world s' = world s) ∧
     (script c (served c) = Resolves None ∨ script c (served c) = Resolves (Some "") →
        world s' = world s) ∧
     (∀ text context e,
        script c (served c) = Resolves (Some text) →
        contextsOf s' !! conv_id conversation = Some context →
        GenerationDriver.parseResponse text (ctx_participants context) = Throw e →
        world s' = world s)) ∧
  (∀ steps,
     0 ≤ errorsOf s < maxConsecutiveErrors (ai s) →
     let s' := runSteps steps s in
     (isEnabled (ai s') = true ∧ 0 ≤ errorsOf s' < maxConsecutiveErrors (ai s)) ∨
     (isEnabled (ai s') = false ∧ errorsOf s' = maxConsecutiveErrors (ai s) ∧
      disabledReason (ai s') = Some tooManyErrors)).
Proof.
  intros Hr. split; [|split; [|split]].
  - intros e s1 Htry.
    destruct (failed_step _ _ _ _ _ _ Hr Htry) as (H1 & H2 & H3 & _ & H4 & H5).
    cbv zeta in *. do 5 (split; [done|]). rewrite H4.
    destruct (processMessage_try_failure _ _ _ _ _ _ Htry)
      as [Hw|(sender & content & m & Hdue & Hadd)].
    + rewrite Hw. split; [done|]. split; [done|]. by left.
    + destruct (addMessage_Ok _ _ _ _ _ Hadd) as (c & Hc & Hw & Hm & Hs & Hct & Ht).
      simpl in Hc, Hw, Hm, Hs, Hct. split; [by rewrite Hw|]. split.
      * intros k Hk. rewrite Hw. simpl. by rewrite lookup_insert_ne.
      * right. exists sender, content, m, c. done.
  - intros s1 Htry.
    destruct (successful_step _ _ _ _ _ Hr Htry) as (H1 & H2 & H3 & _). done.
  - intros c Hc s'.
    assert (world s' = world s ∨
            ∃ text context p,
              script c (served c) = Resolves (Some text) ∧ text ≠ "" ∧
              contextsOf s' !! conv_id conversation = Some context ∧
              GenerationDriver.parseResponse text (ctx_participants context) = Ok p)
      as Hcases.
    { subst s'. rewrite processMessage_ready by done.
      destruct (processMessage_try_world now message conversation s c Hc)
        as [[Hw [e He]]|(text & context & p & Hs & Ht & Hctx & Hp)].
      - left. destruct (processMessage_try now message conversation s) as [[[]|e'] s1];
          simpl in *; [done|].
        by rewrite handleApiError_world.
      - right. exists text, context, p. repeat split; try done.
        destruct (processMessage_try now message conversation s) as [[[]|e'] s1];
          simpl in *; [done|].
        by rewrite handleApiError_contexts. }
    destruct Hcases as [Hw|(text & context & p & Hs & Ht & Hctx & Hp)];
      [by repeat split|].
    split; [congruence|]. split.
    + intros [H|H]; congruence.
    + intros text' context' e Hs' Hctx' Hp'. congruence.
  - intros steps Herr s'. apply runSteps_counter; [done|]. left.
    destruct Hr as [Hen _]. done.
Qed.

(** An instance: the provider rejects the call; the counter goes from 0 to 1
    and the tables are untouched. *)
Lemma consecutive_errors_contract_witness :
  let carol := mkAgent "2" "carol" Specialist None AgentActive 3 in
  let dave := mkAgent "3" "dave" Learning None AgentActive 4 in
  let hello := mkMessage "0" "1" "2" "hello" (RecipientsOf ["2"; "3"]) 6 in
  let b := mkConversation "1" "B" "topic" "goal" "room" ConvActive ["2"; "3"] [hello] 5
             None (Some false) in
  let w := mkWorld {[ "2" := carol; "3" := dave ]} {[ "1" := b ]} in
  let driver := GenerationDriver.create 50 (Some "key")
                  (Some (mkOpenAI (fun _ => Rejects) 0)) in
  let s := mkSystem w driver (Scheduler.create 1000) in
  errorsOf (processMessage 10000 hello b s).2 = errorsOf s + 1 ∧
  world (processMessage 10000 hello b s).2 = w.
Proof.
  intros carol dave hello b w driver s.
  assert (ready s) as Hr by (split; [reflexivity|by eexists]).
  destruct (proj1 (consecutive_errors_contract 10000 hello b s Hr)
              ProviderError (processMessage_try 10000 hello b s).2)
    as (Herrors & _ & _ & Hworld & _).
  - vm_compute. reflexivity.
  - split; [exact Herrors|]. rewrite Hworld. vm_compute. reflexivity.
Defined.
